(** * FusedAdam: host-side step orchestration of apex's fused Adam optimizer

    A shallow embedding of [apex/contrib/optimizers/fused_adam.py] and the
    properties of its step orchestration: construction rules, the overflow
    register, input normalisation, the per-group combined scale, the
    per-parameter step counters, the undo pass and the batched dispatch.

    Python objects that are mutated in place (the optimizer instance, the
    per-parameter state dictionaries, parameter tensors, output buffers and
    generator objects) live in an explicit [world]; every method is a
    function in a state-and-exception monad over that world.  The numeric
    kernels of [fused_adam_cuda], [torch.optim.Optimizer.__init__] and the
    tensor allocators are collaborators outside the file: they are the
    methods of the [Backend] class. *)

From Stdlib Require Import ZArith List Bool String Floats Lia.
From stdpp Require Import base option list gmap functions.

Local Open Scope Z_scope.

(** ** Python exceptions and results *)

Inductive pyexc : Type :=
| RuntimeError (msg : string)
| AssertionError (msg : string)
| ImportError (msg : string)
| ModuleNotFoundError (msg : string)
| IndexError
| TypeError
| AttributeError
| ZeroDivisionError
| UnboundLocalError (var : string)
| KeyError
| ExternalError (tag : string).

Inductive result (A : Type) : Type :=
| Ok (a : A)
| Raise (e : pyexc).
Arguments Ok {A} a.
Arguments Raise {A} e.

Definition is_ok {A} (r : result A) : bool :=
  match r with Ok _ => true | Raise _ => false end.

Definition sparse_msg : string :=
  "FusedAdam does not support sparse gradients, please consider SparseAdam instead".
Definition amsgrad_msg : string :=
  "FusedAdam does not support the AMSGrad variant.".
Definition undo_mt_msg : string :=
  "Undo feature not supported with multi_tensor mode".
Definition undo_unsupported_msg : string :=
  "Called _step(undo=True) but undo is not supported".
Definition revert_mt_msg : string :=
  "Revert step does not support multi tensor".
Definition mt_warning : string :=
  "Warning:  multi_tensor_applier is unavailable".
Definition missing_module_msg : string :=
  "No module named 'fused_adam_cuda'".

(** ** Numbers

    [scale], [grad_norm] and the hyperparameters are Python numbers; the code
    only uses [/], [+], [*] and [>] on them.  [num_truediv] can raise
    (ZeroDivisionError on Python floats).  [num_le] is not used by the code;
    it is there to state what happens when [clip <= 1]. *)

Class PyNumber (num : Type) : Type := {
  num_truediv : num -> num -> result num;
  num_add : num -> num -> num;
  num_mul : num -> num -> num;
  num_gt : num -> num -> bool;
  num_le : num -> num -> bool;
  num_of_int : Z -> num;
  num_1e_6 : num;
  num_le_not_gt : forall x y, num_le x y = true -> num_gt x y = false
}.

(** ** Values passed for [grads] and [output_params]

    A Python value in one of these arguments is [None], a tensor-like leaf or
    a list.  A generator is a one-shot iterator: it is named by an identity
    and its pending items live in the store. *)

Definition pid := positive.   (* identity of a parameter tensor *)
Definition oid := positive.   (* identity of an output buffer *)
Definition gid := positive.   (* identity of a generator object *)

#[warnings="-register-all"]
Inductive pyval (A : Type) : Type :=
| VNone
| VLeaf (a : A)
| VList (l : list (pyval A)).
Arguments VNone {A}.
Arguments VLeaf {A} a.
Arguments VList {A} l.

Inductive pyarg (A : Type) : Type :=
| ArgNone
| ArgGenerator (g : gid)
| ArgList (l : list (pyval A)).
Arguments ArgNone {A}.
Arguments ArgGenerator {A} g.
Arguments ArgList {A} l.

(** An element of [grads_group] / [output_params_group]. *)
Inductive gentry (A : Type) : Type :=
| GVal (v : pyval A)
| GGen (g : gid).
Arguments GVal {A} v.
Arguments GGen {A} g.

Definition is_list {A} (v : pyval A) : bool :=
  match v with VList _ => true | _ => false end.

(** Lines 120-129 and 131-138: [None] gives one [None] per group, a generator
    or a list whose first element is not a list is a single group, any other
    list is taken as it is.  [grads[0]] on an empty list raises IndexError. *)
Definition normalize {A} (n_groups : nat) (a : pyarg A) : result (list (gentry A)) :=
  match a with
  | ArgNone => Ok (repeat (GVal VNone) n_groups)
  | ArgGenerator g => Ok [GGen g]
  | ArgList [] => Raise IndexError
  | ArgList ((x :: _) as l) =>
      if is_list x then Ok (map GVal l) else Ok [GVal (VList l)]
  end.

(** Lines 144-147: a group entry that is [None] becomes one [None] per
    parameter of the group. *)
Definition fill_none {A} (n_params : nat) (e : gentry A) : gentry A :=
  match e with
  | GVal VNone => GVal (VList (repeat VNone n_params))
  | _ => e
  end.

(** [if output_params:] (line 160). *)
Definition truthy {A} (a : pyarg A) : bool :=
  match a with
  | ArgNone => false
  | ArgGenerator _ => true
  | ArgList l => negb (Nat.eqb (length l) 0)
  end.

Definition is_generator {A} (a : pyarg A) : bool :=
  match a with ArgGenerator _ => true | _ => false end.

(** What [zip] iterates over. *)
Inductive iter (A : Type) : Type :=
| ItList (l : list (pyval A))
| ItGen (g : gid).
Arguments ItList {A} l.
Arguments ItGen {A} g.

(** [iter(x)] as [zip] calls it (line 165).  A bare leaf in a group position
    is not iterated: it raises TypeError, as a 0-dim tensor does. *)
Definition make_iter {A} (e : gentry A) : result (iter A) :=
  match e with
  | GGen g => Ok (ItGen g)
  | GVal (VList l) => Ok (ItList l)
  | GVal _ => Raise TypeError
  end.

Section DataModel.

Context {num tensor : Type}.

(** ** Data model *)

Record gradient : Type := {
  is_sparse : bool;
  grad_data : tensor
}.

Record group : Type := {
  params : list pid;
  lr : num;
  bias_correction : bool;
  betas : num * num;
  eps : num;
  weight_decay : num;
  max_grad_norm : num
}.

Record defaults : Type := {
  d_lr : num;
  d_bias_correction : bool;
  d_betas : num * num;
  d_eps : num;
  d_weight_decay : num;
  d_max_grad_norm : num
}.

(** [self.state[p]]: absent while the dictionary is empty. *)
Record pstate : Type := {
  state_step : Z;
  exp_avg : tensor;
  exp_avg_sq : tensor
}.

Record amp_stash : Type := {
  stash_grads : pyarg gradient;
  stash_output_params : pyarg oid;
  stash_scale : num;
  stash_grad_norms : option (list (option num))
}.

(** The scalar arguments every kernel entry point receives. *)
Record hyper : Type := {
  h_lr : num;
  h_beta1 : num;
  h_beta2 : num;
  h_eps : num;
  h_combined_scale : num;
  h_step : Z;
  h_eps_mode : Z;
  h_bias_correction : Z;
  h_weight_decay : num
}.

Record adam_out : Type := {
  o_overflow : Z;
  o_p : tensor;
  o_out_p : tensor;
  o_exp_avg : tensor;
  o_exp_avg_sq : tensor
}.

Record undo_out : Type := {
  u_p : tensor;
  u_exp_avg : tensor;
  u_exp_avg_sq : tensor
}.

(** An entry of the batched mode's [tensorlists]: the tensor appended, with
    the place it is stored at (so that the kernel's in-place update can be
    written back), or a value that is not a tensor. *)
Inductive tref : Type :=
| RData (p : pid)
| RExpAvg (p : pid)
| RExpAvgSq (p : pid)
| RGrad
| ROut (o : oid).

Inductive tl_entry : Type :=
| TlTensor (r : tref) (t : tensor)
| TlNotTensor.

(** Calls that leave the host code, in the order they are issued.  [EvEnter]
    marks an entry into [_step]. *)
Inductive event : Type :=
| EvZero
| EvEnter (undo : bool)
| EvClosure
| EvAdam (gi : nat) (p : pid) (h : hyper)
| EvAdamUndo (gi : nat) (p : pid) (h : hyper)
| EvAdamMt (gi : nat) (tls : list (list tl_entry)) (h : hyper)
| EvStridedCheck (clear : Z).

(** The attributes of the optimizer instance. *)
Record optimizer : Type := {
  _use_multi_tensor : bool;
  _allow_undo : bool;
  _overflow_buf : Z;
  _amp_scale_adjustment : num;
  eps_mode : Z;
  param_groups : list group;
  state : gmap pid pstate;
  _amp_stash : option amp_stash
}.

(** Objects the optimizer does not own: each parameter's attached gradient
    ([p.grad], absent when [None]) and contents ([p.data]), the output
    buffers, and the pending items of generator objects. *)
Record store : Type := {
  p_grad : gmap pid gradient;
  p_data : pid -> tensor;
  out_bufs : oid -> tensor;
  gen_grads : gmap gid (list (pyval gradient));
  gen_outs : gmap gid (list (pyval oid))
}.

Record world : Type := {
  self : optimizer;
  heap : store;
  trace : list event      (* most recent first *)
}.

(** The local variables of [_step] that outlive a loop iteration. *)
Record locals : Type := {
  loc_state : option pid;            (* [state], a reference to [self.state[p]] *)
  loc_betas : option (num * num);    (* [beta1, beta2] *)
  tensorlists : list (list tl_entry)
}.

(** The direction of a pass, after the assertions of lines 106-108: an undo
    pass never runs in batched mode. *)
Inductive pass : Type :=
| Forward (mt : bool)
| Undo.

Inductive retval (loss : Type) : Type :=
| RNone
| RLoss (l : loss).

Record ctor_env : Type := {
  cuda_ext_importable : bool;             (* import_module("fused_adam_cuda") returns *)
  import_error : pyexc;                   (* what importlib raises when it does not *)
  multi_tensor_applier_available : bool   (* multi_tensor_applier.available *)
}.

End DataModel.

Arguments tl_entry : clear implicits.
Arguments event : clear implicits.
Arguments optimizer : clear implicits.
Arguments store : clear implicits.
Arguments world : clear implicits.
Arguments locals : clear implicits.
Arguments RNone {loss}.
Arguments RLoss {loss} l.

Arguments gradient : clear implicits.
Arguments group : clear implicits.
Arguments defaults : clear implicits.
Arguments pstate : clear implicits.
Arguments amp_stash : clear implicits.
Arguments hyper : clear implicits.
Arguments adam_out : clear implicits.
Arguments undo_out : clear implicits.

(** ** Collaborators

    [torch.optim.Optimizer.__init__] turns the constructor's [params] and
    [defaults] into the parameter groups (or raises); [zeros_like] and
    [empty_tensor] ([torch.tensor([], dtype=torch.float)]) allocate; the four
    kernels are the entry points of [fused_adam_cuda].  A kernel mutates the
    tensors it is given and nothing else, so it is a function from the
    contents it reads to the contents it leaves; any of them may raise. *)

Class Backend (num tensor : Type) : Type := {
  params_in : Type;
  optimizer_init : params_in -> defaults num -> result (list (group num));
  zeros_like : tensor -> tensor;
  empty_tensor : tensor;
  (* adam(overflow_buf, p, p, out_p, m, m, v, v, grad, scalars...) *)
  adam : Z -> tensor -> tensor -> tensor -> tensor -> tensor -> hyper num ->
         result (adam_out tensor);
  (* adam_undo(p, p, m, m, v, v, grad, scalars...) *)
  adam_undo : tensor -> tensor -> tensor -> tensor -> hyper num ->
              result (undo_out tensor);
  (* multi_tensor_applier(adam_mt, overflow_buf, tensorlists, scalars...) *)
  adam_mt : Z -> list (list tensor) -> hyper num ->
            result (Z * list (list tensor));
  (* strided_check_finite(overflow_buf, tensors, stride, clear) *)
  strided_check_finite_kernel : Z -> list tensor -> Z -> Z -> result Z
}.

(** ** Python floats

    Python's [float] is IEEE 754 binary64, as is [PrimFloat.float].  [x / y]
    raises ZeroDivisionError when [y] is a zero; the literals [0] and [1] the
    code compares with are the integers, converted exactly. *)

Definition float_truediv (x y : float) : result float :=
  if PrimFloat.eqb y PrimFloat.zero then Raise ZeroDivisionError
  else Ok (PrimFloat.div x y).

Definition float_of_int (z : Z) : float :=
  if (z <? 0)
  then PrimFloat.opp (PrimFloat.of_uint63 (Uint63.of_Z (- z)))
  else PrimFloat.of_uint63 (Uint63.of_Z z).

Lemma SFcompare_Lt_swap a b :
  SFcompare a b = Some Lt -> SFcompare b a = Some Gt.
Proof.
  destruct a as [sa|sa| |sa ma ea], b as [sb|sb| |sb mb eb]; simpl;
    try destruct sa; try destruct sb; simpl; try congruence.
  all: rewrite (Z.compare_antisym ea eb);
    destruct (ea ?= eb)%Z; simpl; try congruence;
    change (Pos.compare_cont Eq ma mb) with (Pos.compare ma mb);
    change (Pos.compare_cont Eq mb ma) with (Pos.compare mb ma);
    rewrite (Pos.compare_antisym ma mb);
    destruct (ma ?= mb)%positive; simpl; congruence.
Qed.

Lemma float_leb_not_gt (x y : float) :
  PrimFloat.leb x y = true -> PrimFloat.ltb y x = false.
Proof.
  rewrite leb_spec, ltb_spec. unfold SFleb, SFltb. intros Hle.
  destruct (SFcompare (Prim2SF y) (Prim2SF x)) as [[]|] eqn:E; try reflexivity.
  apply SFcompare_Lt_swap in E. rewrite E in Hle. discriminate.
Qed.

#[export] Instance float_PyNumber : PyNumber float := {|
  num_truediv := float_truediv;
  num_add := PrimFloat.add;
  num_mul := PrimFloat.mul;
  num_gt := fun x y => PrimFloat.ltb y x;
  num_le := PrimFloat.leb;
  num_of_int := float_of_int;
  num_1e_6 := 0x1.0c6f7a0b5ed8dp-20%float;     (* 1e-6 *)
  num_le_not_gt := float_leb_not_gt
|}.

(** ** A reference backend

    One-element tensors of floats and kernels simple enough to run the
    methods on concrete inputs: the forward kernel accumulates the gradient
    into both moments, moves the parameter against it and raises the
    overflow register on a non-finite gradient; the undo kernel subtracts
    what the forward kernel added.  The base class refuses an empty
    parameter list. *)

Definition ref_adam (ovf : Z) (p out_p m v g : float) (h : hyper float)
    : result (adam_out float) :=
  let p' := PrimFloat.sub p (PrimFloat.mul (h_lr h) g) in
  Ok {| o_overflow := if PrimFloat.is_finite g then ovf else 1;
        o_p := p'; o_out_p := p';
        o_exp_avg := PrimFloat.add m g;
        o_exp_avg_sq := PrimFloat.add v (PrimFloat.mul g g) |}.

Definition ref_adam_undo (p m v g : float) (h : hyper float)
    : result (undo_out float) :=
  Ok {| u_p := PrimFloat.add p (PrimFloat.mul (h_lr h) g);
        u_exp_avg := PrimFloat.sub m g;
        u_exp_avg_sq := PrimFloat.sub v (PrimFloat.mul g g) |}.

Definition ref_adam_mt (ovf : Z) (tls : list (list float)) (h : hyper float)
    : result (Z * list (list float)) :=
  match tls with
  | ps :: ms :: vs :: gs :: rest =>
      let ps' := zip_with (fun p g => PrimFloat.sub p (PrimFloat.mul (h_lr h) g)) ps gs in
      Ok (if forallb PrimFloat.is_finite gs then ovf else 1,
          ps' :: zip_with PrimFloat.add ms gs
              :: zip_with (fun v g => PrimFloat.add v (PrimFloat.mul g g)) vs gs
              :: gs :: match rest with [] => [] | _ => [ps'] end)
  | _ => Raise (ExternalError "adam_mt: expected at least four tensor lists")
  end.

Definition ref_strided_check (ovf : Z) (ts : list float) (stride clear : Z)
    : result Z :=
  Ok (if forallb PrimFloat.is_finite ts
      then (if clear =? 0 then ovf else 0) else 1).

Definition ref_optimizer_init (prms : list (group float)) (d : defaults float)
    : result (list (group float)) :=
  match prms with
  | [] => Raise (ExternalError "ValueError: optimizer got an empty parameter list")
  | _ => Ok prms
  end.

#[export] Instance ref_backend : Backend float float := {|
  params_in := list (group float);
  optimizer_init := ref_optimizer_init;
  zeros_like := fun _ => PrimFloat.zero;
  empty_tensor := PrimFloat.zero;
  adam := ref_adam;
  adam_undo := ref_adam_undo;
  adam_mt := ref_adam_mt;
  strided_check_finite_kernel := ref_strided_check
|}.

(** Example data: a group with exactly representable hyperparameters, and
    worlds built around a list of groups. *)

Definition ex_group (ps : list pid) (mgn : float) : group float :=
  {| params := ps; lr := 0.5%float; bias_correction := true;
     betas := (0.5%float, 0.75%float); eps := 0.25%float;
     weight_decay := 0%float; max_grad_norm := mgn |}.

Definition ex_optimizer (mt undo : bool) (gs : list (group float))
    : optimizer float float :=
  {| _use_multi_tensor := mt; _allow_undo := undo; _overflow_buf := 0;
     _amp_scale_adjustment := 1%float; eps_mode := 1; param_groups := gs;
     state := ∅; _amp_stash := None |}.

Definition dense (x : float) : gradient float :=
  {| is_sparse := false; grad_data := x |}.
Definition sparse (x : float) : gradient float :=
  {| is_sparse := true; grad_data := x |}.

Definition ex_store (attached : list (pid * gradient float)) : store float :=
  {| p_grad := list_to_map attached; p_data := fun _ => 1%float;
     out_bufs := fun _ => 0%float; gen_grads := ∅; gen_outs := ∅ |}.

Definition ex_world (mt undo : bool) (gs : list (group float))
    (attached : list (pid * gradient float)) : world float float :=
  {| self := ex_optimizer mt undo gs; heap := ex_store attached; trace := [] |}.

Definition ex_env (mt_available : bool) : ctor_env :=
  {| cuda_ext_importable := true;
     import_error := ModuleNotFoundError missing_module_msg;
     multi_tensor_applier_available := mt_available |}.

(** An environment in which the extension module is not installed. *)
Definition ex_env_missing : ctor_env :=
  {| cuda_ext_importable := false;
     import_error := ModuleNotFoundError missing_module_msg;
     multi_tensor_applier_available := true |}.

(** Worlds used in the examples below.  [ex_mixed]: one group, parameter 1
    with a dense gradient and parameter 2 with a sparse one.  [ex_overflow]:
    undo enabled, parameter 2 has a non-finite gradient.  [ex_one]: undo
    enabled, parameter 1 has a gradient and parameter 2 has none.
    [ex_empty]: one group without parameters.  [ex_batched]: batched mode,
    two parameters that already hold different step counters, and a second
    group without gradients. *)

Definition ex_mixed : world float float :=
  ex_world false false [ex_group [1%positive; 2%positive] 0%float]
    [(1%positive, dense 0.5%float); (2%positive, sparse 0.5%float)].

Definition ex_overflow : world float float :=
  ex_world false true [ex_group [1%positive; 2%positive] 0%float]
    [(1%positive, dense 0.5%float); (2%positive, dense PrimFloat.infinity)].

Definition ex_one : world float float :=
  ex_world false true [ex_group [1%positive; 2%positive] 0%float]
    [(1%positive, dense 0.5%float)].

Definition ex_empty : world float float :=
  ex_world false false [ex_group [] 0%float] [].

Definition ex_state (n : Z) : pstate float :=
  {| state_step := n; exp_avg := 0%float; exp_avg_sq := 0%float |}.

Definition ex_batched : world float float :=
  {| self := {| _use_multi_tensor := true; _allow_undo := false;
                _overflow_buf := 0; _amp_scale_adjustment := 1%float;
                eps_mode := 1;
                param_groups := [ex_group [1%positive; 2%positive] 0%float;
                                 ex_group [3%positive] 0%float];
                state := <[1%positive := ex_state 5]>
                           (<[2%positive := ex_state 2]> ∅);
                _amp_stash := None |};
     heap := ex_store [(1%positive, dense 0.5%float);
                       (2%positive, dense 0.25%float)];
     trace := [] |}.

Definition ex_closure (h : store float) : result float * store float :=
  (Ok 7%float, h).

Definition ex_locals : locals float float :=
  {| loc_state := None; loc_betas := None; tensorlists := [] |}.

(** ** The optimizer's methods *)

Section Model.

Context {num tensor loss : Type}.
Context {N : PyNumber num} {B : Backend num tensor}.

Abbreviation world := (world num tensor).
Abbreviation optimizer := (optimizer num tensor).
Abbreviation store := (store tensor).
Abbreviation event := (event num tensor).
Abbreviation locals := (locals num tensor).
Abbreviation gradient := (gradient tensor).
Abbreviation pstate := (pstate tensor).
Abbreviation group := (group num).
Abbreviation hyper := (hyper num).

(** *** Field updates *)

Definition set_overflow (z : Z) (w : world) : world :=
  {| self := {| _use_multi_tensor := _use_multi_tensor (self w);
                _allow_undo := _allow_undo (self w);
                _overflow_buf := z;
                _amp_scale_adjustment := _amp_scale_adjustment (self w);
                eps_mode := eps_mode (self w);
                param_groups := param_groups (self w);
                state := state (self w);
                _amp_stash := _amp_stash (self w) |};
     heap := heap w; trace := trace w |}.

Definition set_state (s : gmap pid pstate) (w : world) : world :=
  {| self := {| _use_multi_tensor := _use_multi_tensor (self w);
                _allow_undo := _allow_undo (self w);
                _overflow_buf := _overflow_buf (self w);
                _amp_scale_adjustment := _amp_scale_adjustment (self w);
                eps_mode := eps_mode (self w);
                param_groups := param_groups (self w);
                state := s;
                _amp_stash := _amp_stash (self w) |};
     heap := heap w; trace := trace w |}.

Definition set_heap (h : store) (w : world) : world :=
  {| self := self w; heap := h; trace := trace w |}.

Definition set_p_data (d : pid -> tensor) (w : world) : world :=
  set_heap {| p_grad := p_grad (heap w); p_data := d;
              out_bufs := out_bufs (heap w);
              gen_grads := gen_grads (heap w);
              gen_outs := gen_outs (heap w) |} w.

Definition set_out_bufs (o : oid -> tensor) (w : world) : world :=
  set_heap {| p_grad := p_grad (heap w); p_data := p_data (heap w);
              out_bufs := o;
              gen_grads := gen_grads (heap w);
              gen_outs := gen_outs (heap w) |} w.

Definition set_gen_grads (g : gmap gid (list (pyval gradient))) (w : world) : world :=
  set_heap {| p_grad := p_grad (heap w); p_data := p_data (heap w);
              out_bufs := out_bufs (heap w);
              gen_grads := g;
              gen_outs := gen_outs (heap w) |} w.

Definition set_gen_outs (g : gmap gid (list (pyval oid))) (w : world) : world :=
  set_heap {| p_grad := p_grad (heap w); p_data := p_data (heap w);
              out_bufs := out_bufs (heap w);
              gen_grads := gen_grads (heap w);
              gen_outs := g |} w.

Definition add_event (e : event) (w : world) : world :=
  {| self := self w; heap := heap w; trace := e :: trace w |}.

(** *** State and exceptions *)

Definition M (A : Type) : Type := world -> result A * world.

Definition ret {A} (a : A) : M A := fun w => (Ok a, w).
Definition raise {A} (e : pyexc) : M A := fun w => (Raise e, w).
Definition bind {A C} (m : M A) (k : A -> M C) : M C :=
  fun w => match m w with
           | (Ok a, w') => k a w'
           | (Raise e, w') => (Raise e, w')
           end.
Definition lift {A} (r : result A) : M A := fun w => (r, w).
Definition get : M world := fun w => (Ok w, w).
Definition modify (f : world -> world) : M unit := fun w => (Ok tt, f w).
Definition log (e : event) : M unit := modify (add_event e).
Definition py_assert (c : bool) (msg : string) : M unit :=
  if c then ret tt else raise (AssertionError msg).

Notation "x <- m ;; k" := (bind m (fun x => k))
  (at level 100, m at next level, right associativity).

(** *** Overflow register (lines 74-88) *)

Definition has_overflow : M Z :=
  w <- get ;;
  let has_overflow := _overflow_buf (self w) in
  _ <- log EvZero ;;
  _ <- modify (set_overflow 0) ;;
  ret has_overflow.

Definition peek_overflow : M Z :=
  w <- get ;;
  ret (_overflow_buf (self w)).

(** *** strided_check_finite (lines 90-101) *)

Definition strided_check_finite (output_params : list oid) (stride start end_ : Z)
    (clear : bool) : M unit :=
  let out_p :=
    if (0 <=? start) && (start <? end_)
    then take (Z.to_nat (end_ - start)) (drop (Z.to_nat start) output_params)
    else output_params in
  w <- get ;;
  let c := if clear then 1 else 0 in
  _ <- log (EvStridedCheck c) ;;
  z <- lift (strided_check_finite_kernel (_overflow_buf (self w))
               (map (out_bufs (heap w)) out_p) stride c) ;;
  modify (set_overflow z).

(** *** Combined scale (lines 149-155) *)

Definition combined_scale (g : group) (scale : num) (grad_norm : option num)
    : result num :=
  if num_gt (max_grad_norm g) (num_of_int 0) then
    match grad_norm with
    | None => Raise TypeError
    | Some gn =>
        match num_truediv gn scale with
        | Raise e => Raise e
        | Ok q =>
            match num_truediv (num_add q num_1e_6) (max_grad_norm g) with
            | Raise e => Raise e
            | Ok clip =>
                if num_gt clip (num_of_int 1)
                then Ok (num_mul clip scale)
                else Ok scale
            end
        end
    end
  else Ok scale.

(** *** One parameter (lines 166-240) *)

(** Lines 167-171: which gradient the iteration works on. *)
Inductive eff_grad : Type :=
| EffSkip                      (* both absent: [continue] *)
| EffTensor (g : gradient)
| EffNotTensor.                (* a list: it has no [is_sparse] *)

Definition effective_grad (attached : option gradient) (grad : pyval gradient)
    : eff_grad :=
  match grad with
  | VNone => match attached with None => EffSkip | Some g => EffTensor g end
  | VLeaf g => EffTensor g
  | VList _ => EffNotTensor
  end.

(** Lines 174-182. *)
Definition get_or_init (p : pid) : M pstate := fun w =>
  match state (self w) !! p with
  | Some s => (Ok s, w)
  | None =>
      let s := {| state_step := 0;
                  exp_avg := zeros_like (p_data (heap w) p);
                  exp_avg_sq := zeros_like (p_data (heap w) p) |} in
      (Ok s, set_state (<[p := s]> (state (self w))) w)
  end.

Definition put_state (p : pid) (s : pstate) : M unit :=
  modify (fun w => set_state (<[p := s]> (state (self w))) w).

Definition write_p_data (p : pid) (t : tensor) : M unit :=
  modify (fun w => set_p_data (<[p := t]> (p_data (heap w))) w).

Definition write_out_buf (o : oid) (t : tensor) : M unit :=
  modify (fun w => set_out_bufs (<[o := t]> (out_bufs (heap w))) w).

Definition mk_hyper (g : group) (b : num * num) (cs : num) (stepv em bc : Z)
    : hyper :=
  {| h_lr := lr g; h_beta1 := fst b; h_beta2 := snd b; h_eps := eps g;
     h_combined_scale := cs; h_step := stepv; h_eps_mode := em;
     h_bias_correction := bc; h_weight_decay := weight_decay g |}.

(** [for tl, t in zip(tensorlists, pl): tl.append(t)] *)
Fixpoint zip_append {A} (tls : list (list A)) (pl : list A) : list (list A) :=
  match tls, pl with
  | tl :: tls', t :: pl' => (tl ++ [t]) :: zip_append tls' pl'
  | _, _ => tls
  end.

(** The body of the loop over the parameters of a group.  The per-parameter
    state is read once ([s]) and written back with the new step counter; the
    kernel, which updates [p.data] and both moment buffers in place, gives
    their new contents.  An output buffer that is a list is refused by the
    kernel binding (TypeError) before any kernel runs. *)
Definition param_body (ps : pass) (gi : nat) (g : group) (cs : num) (bc : Z)
    (p : pid) (grad : pyval gradient) (output_param : pyval oid) (loc : locals)
    : M locals :=
  w <- get ;;
  match effective_grad (p_grad (heap w) !! p) grad with
  | EffSkip => ret loc
  | EffNotTensor => raise AttributeError
  | EffTensor gr =>
      if is_sparse gr then raise (RuntimeError sparse_msg) else
      s <- get_or_init p ;;
      let loc1 := {| loc_state := Some p; loc_betas := Some (betas g);
                     tensorlists := tensorlists loc |} in
      match ps with
      | Undo =>
          let stepv := state_step s in
          _ <- put_state p {| state_step := stepv - 1; exp_avg := exp_avg s;
                              exp_avg_sq := exp_avg_sq s |} ;;
          let h := mk_hyper g (betas g) cs stepv (eps_mode (self w)) bc in
          _ <- log (EvAdamUndo gi p h) ;;
          r <- lift (adam_undo (p_data (heap w) p) (exp_avg s) (exp_avg_sq s)
                       (grad_data gr) h) ;;
          _ <- write_p_data p (u_p r) ;;
          _ <- put_state p {| state_step := stepv - 1; exp_avg := u_exp_avg r;
                              exp_avg_sq := u_exp_avg_sq r |} ;;
          ret loc1
      | Forward mt =>
          let stepv := state_step s + 1 in
          _ <- put_state p {| state_step := stepv; exp_avg := exp_avg s;
                              exp_avg_sq := exp_avg_sq s |} ;;
          if mt then
            let pl :=
              [TlTensor (RData p) (p_data (heap w) p);
               TlTensor (RExpAvg p) (exp_avg s);
               TlTensor (RExpAvgSq p) (exp_avg_sq s);
               TlTensor RGrad (grad_data gr)] ++
              match output_param with
              | VNone => []
              | VLeaf o => [TlTensor (ROut o) (out_bufs (heap w) o)]
              | VList _ => [TlNotTensor]
              end in
            ret {| loc_state := Some p; loc_betas := Some (betas g);
                   tensorlists := zip_append (tensorlists loc) pl |}
          else
            let h := mk_hyper g (betas g) cs stepv (eps_mode (self w)) bc in
            match output_param with
            | VList _ => raise TypeError
            | VNone =>
                _ <- log (EvAdam gi p h) ;;
                r <- lift (adam (_overflow_buf (self w)) (p_data (heap w) p)
                             empty_tensor (exp_avg s) (exp_avg_sq s)
                             (grad_data gr) h) ;;
                _ <- modify (set_overflow (o_overflow r)) ;;
                _ <- write_p_data p (o_p r) ;;
                _ <- put_state p {| state_step := stepv; exp_avg := o_exp_avg r;
                                    exp_avg_sq := o_exp_avg_sq r |} ;;
                ret loc1
            | VLeaf o =>
                _ <- log (EvAdam gi p h) ;;
                r <- lift (adam (_overflow_buf (self w)) (p_data (heap w) p)
                             (out_bufs (heap w) o) (exp_avg s) (exp_avg_sq s)
                             (grad_data gr) h) ;;
                _ <- modify (set_overflow (o_overflow r)) ;;
                _ <- write_p_data p (o_p r) ;;
                _ <- write_out_buf o (o_out_p r) ;;
                _ <- put_state p {| state_step := stepv; exp_avg := o_exp_avg r;
                                    exp_avg_sq := o_exp_avg_sq r |} ;;
                ret loc1
            end
      end
  end.


(** *** The zipped iteration over a group (line 165)

    [zip] asks the parameter list first, then the gradients, then the output
    buffers, and stops at the first one that is exhausted; an item taken
    from a generator before that is gone. *)

Definition next_grad (it : iter gradient)
    : M (option (pyval gradient * iter gradient)) := fun w =>
  match it with
  | ItList [] => (Ok None, w)
  | ItList (x :: l) => (Ok (Some (x, ItList l)), w)
  | ItGen g =>
      match gen_grads (heap w) !! g with
      | Some (x :: l) =>
          (Ok (Some (x, ItGen g)), set_gen_grads (<[g := l]> (gen_grads (heap w))) w)
      | _ => (Ok None, w)
      end
  end.

Definition next_out (it : iter oid)
    : M (option (pyval oid * iter oid)) := fun w =>
  match it with
  | ItList [] => (Ok None, w)
  | ItList (x :: l) => (Ok (Some (x, ItList l)), w)
  | ItGen g =>
      match gen_outs (heap w) !! g with
      | Some (x :: l) =>
          (Ok (Some (x, ItGen g)), set_gen_outs (<[g := l]> (gen_outs (heap w))) w)
      | _ => (Ok None, w)
      end
  end.

Fixpoint param_loop (ps : pass) (gi : nat) (g : group) (cs : num) (bc : Z)
    (prms : list pid) (git : iter gradient) (oit : iter oid) (loc : locals)
    : M locals :=
  match prms with
  | [] => ret loc
  | p :: rest =>
      ng <- next_grad git ;;
      match ng with
      | None => ret loc
      | Some (grad, git') =>
          no <- next_out oit ;;
          match no with
          | None => ret loc
          | Some (output_param, oit') =>
              loc' <- param_body ps gi g cs bc p grad output_param loc ;;
              param_loop ps gi g cs bc rest git' oit' loc'
          end
      end
  end.

(** *** The batched kernel call of a group (lines 242-255) *)

Definition entry_tensor (e : tl_entry tensor) : result tensor :=
  match e with
  | TlTensor _ t => Ok t
  | TlNotTensor => Raise TypeError
  end.

Fixpoint all_ok {A C} (f : A -> result C) (l : list A) : result (list C) :=
  match l with
  | [] => Ok []
  | x :: l' =>
      match f x with
      | Raise e => Raise e
      | Ok y => match all_ok f l' with
                | Raise e => Raise e
                | Ok ys => Ok (y :: ys)
                end
      end
  end.

Definition write_back (e : tl_entry tensor) (t : tensor) (w : world) : world :=
  match e with
  | TlTensor (RData p) _ => set_p_data (<[p := t]> (p_data (heap w))) w
  | TlTensor (RExpAvg p) _ =>
      match state (self w) !! p with
      | Some s => set_state (<[p := {| state_step := state_step s; exp_avg := t;
                                       exp_avg_sq := exp_avg_sq s |}]>
                               (state (self w))) w
      | None => w
      end
  | TlTensor (RExpAvgSq p) _ =>
      match state (self w) !! p with
      | Some s => set_state (<[p := {| state_step := state_step s;
                                       exp_avg := exp_avg s;
                                       exp_avg_sq := t |}]>
                               (state (self w))) w
      | None => w
      end
  | TlTensor (ROut o) _ => set_out_bufs (<[o := t]> (out_bufs (heap w))) w
  | TlTensor RGrad _ => w
  | TlNotTensor => w
  end.

Fixpoint write_list (es : list (tl_entry tensor)) (ts : list tensor) (w : world)
    : world :=
  match es, ts with
  | e :: es', t :: ts' => write_list es' ts' (write_back e t w)
  | _, _ => w
  end.

Fixpoint write_lists (tls : list (list (tl_entry tensor))) (tss : list (list tensor))
    (w : world) : world :=
  match tls, tss with
  | es :: tls', ts :: tss' => write_lists tls' tss' (write_list es ts w)
  | _, _ => w
  end.

Definition mt_call (gi : nat) (g : group) (cs : num) (bc : Z) (loc : locals)
    : M unit :=
  match loc_betas loc with
  | None => raise (UnboundLocalError "beta1")
  | Some b =>
      match loc_state loc with
      | None => raise (UnboundLocalError "state")
      | Some p =>
          w <- get ;;
          match state (self w) !! p with
          | None => raise KeyError
          | Some s =>
              let h := mk_hyper g b cs (state_step s) (eps_mode (self w)) bc in
              tensors <- lift (all_ok (all_ok entry_tensor) (tensorlists loc)) ;;
              _ <- log (EvAdamMt gi (tensorlists loc) h) ;;
              r <- lift (adam_mt (_overflow_buf (self w)) tensors h) ;;
              _ <- modify (set_overflow (fst r)) ;;
              modify (write_lists (tensorlists loc) (snd r))
          end
      end
  end.

(** *** One group (lines 144-255) *)

Definition step_group (ps : pass) (scale : num) (out_truthy : bool) (gi : nat)
    (g : group) (grads_this_group : gentry gradient)
    (output_params_this_group : gentry oid) (grad_norm : option num)
    (loc : locals) : M locals :=
  let ge := fill_none (length (params g)) grads_this_group in
  let oe := fill_none (length (params g)) output_params_this_group in
  cs <- lift (combined_scale g scale grad_norm) ;;
  let bc := if bias_correction g then 1 else 0 in
  let loc0 :=
    match ps with
    | Forward true =>
        {| loc_state := loc_state loc; loc_betas := loc_betas loc;
           tensorlists := if out_truthy then [[]; []; []; []; []]
                          else [[]; []; []; []] |}
    | _ => loc
    end in
  git <- lift (make_iter ge) ;;
  oit <- lift (make_iter oe) ;;
  loc1 <- param_loop ps gi g cs bc (params g) git oit loc0 ;;
  match ps with
  | Forward true => _ <- mt_call gi g cs bc loc1 ;; ret loc1
  | _ => ret loc1
  end.

Fixpoint group_loop (ps : pass) (scale : num) (out_truthy : bool) (gi : nat)
    (gs : list group) (ges : list (gentry gradient)) (oes : list (gentry oid))
    (gns : list (option num)) (loc : locals) : M locals :=
  match gs, ges, oes, gns with
  | g :: gs', ge :: ges', oe :: oes', gn :: gns' =>
      loc' <- step_group ps scale out_truthy gi g ge oe gn loc ;;
      group_loop ps scale out_truthy (S gi) gs' ges' oes' gns' loc'
  | _, _, _, _ => ret loc
  end.

(** *** _step (lines 103-257) *)

Definition run_closure (c : store -> result loss * store) : M loss := fun w =>
  let '(r, h') := c (heap w) in (r, set_heap h' w).

Definition no_locals : locals :=
  {| loc_state := None; loc_betas := None; tensorlists := [] |}.

(** Lines 106-112. *)
Definition prologue (closure : option (store -> result loss * store)) (undo : bool)
    : M (pass * retval loss) :=
  w <- get ;;
  if undo then
    _ <- py_assert (_allow_undo (self w)) undo_unsupported_msg ;;
    _ <- py_assert (negb (_use_multi_tensor (self w))) revert_mt_msg ;;
    ret (Undo, RNone)
  else
    match closure with
    | None => ret (Forward (_use_multi_tensor (self w)), RNone)
    | Some c =>
        _ <- log EvClosure ;;
        l <- run_closure c ;;
        ret (Forward (_use_multi_tensor (self w)), RLoss l)
    end.

Record step_args : Type := {
  a_grads : pyarg gradient;
  a_output_params : pyarg oid;
  a_scale : num;
  a_grad_norms : option (list (option num))
}.

(** Lines 114-118: the stash, when the instance has one, replaces the
    arguments. *)
Definition effective_args (o : optimizer) (a : step_args) : step_args :=
  match _amp_stash o with
  | Some st =>
      {| a_grads := stash_grads st;
         a_output_params := stash_output_params st;
         a_scale := num_mul (stash_scale st) (_amp_scale_adjustment o);
         a_grad_norms := stash_grad_norms st |}
  | None => a
  end.

Definition _step (closure : option (store -> result loss * store))
    (grads : pyarg gradient) (output_params : pyarg oid) (scale : num)
    (grad_norms : option (list (option num))) (undo : bool) : M (retval loss) :=
  _ <- log (EvEnter undo) ;;
  pl <- prologue closure undo ;;
  w <- get ;;
  let a := effective_args (self w)
             {| a_grads := grads; a_output_params := output_params;
                a_scale := scale; a_grad_norms := grad_norms |} in
  let n := length (param_groups (self w)) in
  grads_group <- lift (normalize n (a_grads a)) ;;
  output_params_group <- lift (normalize n (a_output_params a)) ;;
  let gns := match a_grad_norms a with
             | None => repeat None n
             | Some l => l
             end in
  _ <- group_loop (fst pl) (a_scale a) (truthy (a_output_params a)) 0
         (param_groups (self w)) grads_group output_params_group gns no_locals ;;
  ret (snd pl).

(** *** step (lines 259-278) *)

Definition step (closure : option (store -> result loss * store))
    (grads : pyarg gradient) (output_params : pyarg oid) (scale : num)
    (grad_norms : option (list (option num))) : M (retval loss) :=
  _ <- log EvZero ;;
  _ <- modify (set_overflow 0) ;;
  loss <- _step closure grads output_params scale grad_norms false ;;
  w <- get ;;
  if _allow_undo (self w) then
    ov <- peek_overflow ;;
    if negb (ov =? 0) then
      _ <- _step closure grads output_params scale grad_norms true ;;
      ret RNone
    else ret RNone
  else ret RNone.

(** *** __init__ (lines 42-72)

    The result is what was printed and the attributes of the new instance,
    or the exception.  [importlib.import_module] is not guarded: when it
    raises, its exception leaves the constructor as it is. *)

Definition __init__ (env : ctor_env) (prms : params_in)
    (lr_ : num) (bias_correction_ : bool) (betas_ : num * num) (eps_ : num)
    (eps_inside_sqrt : bool) (weight_decay_ : num) (max_grad_norm_ : num)
    (amsgrad use_mt : bool) (amp_scale_adjustment : num) (allow_undo : bool)
    : list string * result optimizer :=
  if negb (cuda_ext_importable env)
  then ([], Raise (import_error env))
  else
    let '(printed, use_multi_tensor) :=
      if use_mt then
        if negb (multi_tensor_applier_available env)
        then ([mt_warning], false)
        else ([], true)
      else ([], false) in
    if amsgrad then (printed, Raise (RuntimeError amsgrad_msg))
    else
      let dflt := {| d_lr := lr_; d_bias_correction := bias_correction_;
                     d_betas := betas_; d_eps := eps_;
                     d_weight_decay := weight_decay_;
                     d_max_grad_norm := max_grad_norm_ |} in
      match optimizer_init prms dflt with
      | Raise e => (printed, Raise e)
      | Ok groups =>
          let o := {| _use_multi_tensor := use_multi_tensor;
                      _allow_undo := allow_undo;
                      _overflow_buf := 0;
                      _amp_scale_adjustment := amp_scale_adjustment;
                      eps_mode := if eps_inside_sqrt then 0 else 1;
                      param_groups := groups;
                      state := ∅;
                      _amp_stash := None |} in
          if negb use_multi_tensor then (printed, Ok o)
          else if negb allow_undo then (printed, Ok o)
          else (printed, Raise (AssertionError undo_mt_msg))
      end.

End Model.

(** The calls used in the examples: [step] and [_step] with no gradients,
    output buffers or norms supplied and scale 1; the clip ratio of the
    combined scale; the first group of [ex_batched] run in batched mode. *)

Definition step0 (c : option (store float -> result float * store float))
    (w : world float float) :=
  step c ArgNone ArgNone 1%float None w.

Definition fwd0 (c : option (store float -> result float * store float))
    (undo : bool) (w : world float float) :=
  _step c ArgNone ArgNone 1%float None undo w.

Definition clip_of (gn scale mgn : float) : float :=
  PrimFloat.div (PrimFloat.add (PrimFloat.div gn scale) num_1e_6) mgn.

Definition ex_group_run :=
  step_group (Forward true) 1%float false 0 (ex_group [1%positive; 2%positive] 0%float)
    (GVal VNone) (GVal VNone) None ex_locals ex_batched.

(** Further worlds.  [ex_stashed]: an instance that carries a stash with a
    flat gradient list, scale 2 and scale adjustment one half.
    [ex_two_groups]: two groups of one parameter each, both with a gradient.
    [ex_clipped]: clipping configured ([max_grad_norm = 1]).  [ex_generator]:
    undo enabled, two parameters, and a generator that yields one non-finite
    gradient.  [ex_bare]: two parameters without gradients.  [ex_spoiled]:
    [ex_one] with a non-finite value in output buffer 2.  [ex_twice]: one
    group that lists parameter 1 twice.  [ex_clipped_sparse]: clipping
    configured and a sparse gradient on the only parameter.
    [ex_batched_sparse]: batched mode, a first group whose parameter has a
    dense gradient and a second group whose parameter has a sparse one. *)

Definition ex_stash : amp_stash float float :=
  {| stash_grads := ArgList [VLeaf (dense 0.5%float); VNone];
     stash_output_params := ArgNone;
     stash_scale := 2%float;
     stash_grad_norms := None |}.

Definition ex_stashed : world float float :=
  {| self := {| _use_multi_tensor := false; _allow_undo := true;
                _overflow_buf := 0; _amp_scale_adjustment := 0.5%float;
                eps_mode := 1;
                param_groups := [ex_group [1%positive; 2%positive] 0%float];
                state := ∅; _amp_stash := Some ex_stash |};
     heap := ex_store []; trace := [] |}.

Definition ex_two_groups : world float float :=
  ex_world false false
    [ex_group [1%positive] 0%float; ex_group [2%positive] 0%float]
    [(1%positive, dense 0.5%float); (2%positive, dense 0.25%float)].

Definition ex_clipped : world float float :=
  ex_world false false [ex_group [1%positive] 1%float]
    [(1%positive, dense 0.5%float)].

Definition ex_generator : world float float :=
  {| self := ex_optimizer false true [ex_group [1%positive; 2%positive] 0%float];
     heap := {| p_grad := ∅; p_data := fun _ => 1%float;
                out_bufs := fun _ => 0%float;
                gen_grads := {[ 1%positive := [VLeaf (dense PrimFloat.infinity)] ]};
                gen_outs := ∅ |};
     trace := [] |}.

Definition ex_bare (mt : bool) : world float float :=
  ex_world mt false [ex_group [1%positive; 2%positive] 0%float] [].

Definition ex_spoiled : world float float :=
  {| self := self ex_one;
     heap := {| p_grad := p_grad (heap ex_one); p_data := p_data (heap ex_one);
                out_bufs := <[2%positive := PrimFloat.infinity]> (out_bufs (heap ex_one));
                gen_grads := ∅; gen_outs := ∅ |};
     trace := [] |}.

Definition ex_twice : world float float :=
  ex_world false true [ex_group [1%positive; 1%positive] 0%float]
    [(1%positive, dense 0.5%float)].



(** ** What a pass visits

    The iteration of [_step] pairs every parameter of every group with the
    supplied gradient and output buffer at its position.  These definitions
    describe that structure as a function of the inputs, so that the
    properties below can speak about it. *)

Section Plan.

Context {num tensor : Type}.

Abbreviation gradient := (gradient tensor).
Abbreviation store := (store tensor).
Abbreviation group := (group num).

Definition visit : Type := pid * pyval gradient * pyval oid.

Fixpoint zip3 (ps : list pid) (gs : list (pyval gradient)) (os : list (pyval oid))
    : list visit :=
  match ps, gs, os with
  | p :: ps', g :: gs', o :: os' => (p, g, o) :: zip3 ps' gs' os'
  | _, _, _ => []
  end.

Definition items_g (h : store) (it : iter gradient) : list (pyval gradient) :=
  match it with
  | ItList l => l
  | ItGen g => default [] (gen_grads h !! g)
  end.

Definition items_o (h : store) (it : iter oid) : list (pyval oid) :=
  match it with
  | ItList l => l
  | ItGen g => default [] (gen_outs h !! g)
  end.

Definition entry_items_g (h : store) (n : nat) (e : gentry gradient)
    : list (pyval gradient) :=
  match make_iter (fill_none n e) with
  | Ok it => items_g h it
  | Raise _ => []
  end.

Definition entry_items_o (h : store) (n : nat) (e : gentry oid)
    : list (pyval oid) :=
  match make_iter (fill_none n e) with
  | Ok it => items_o h it
  | Raise _ => []
  end.

Definition group_visits (h : store) (g : group) (ge : gentry gradient)
    (oe : gentry oid) : list visit :=
  zip3 (params g) (entry_items_g h (length (params g)) ge)
       (entry_items_o h (length (params g)) oe).

(** The groups a pass iterates over, with what it pairs them with
    (line 143). *)
Fixpoint zip_groups (gs : list group) (ges : list (gentry gradient))
    (oes : list (gentry oid)) (gns : list (option num))
    : list (group * gentry gradient * gentry oid * option num) :=
  match gs, ges, oes, gns with
  | g :: gs', ge :: ges', oe :: oes', gn :: gns' =>
      (g, ge, oe, gn) :: zip_groups gs' ges' oes' gns'
  | _, _, _, _ => []
  end.

Definition plan_groups (h : store)
    (zs : list (group * gentry gradient * gentry oid * option num))
    : list (list visit) :=
  map (fun z => group_visits h z.1.1.1 z.1.1.2 z.1.2) zs.

(** The gradient the iteration uses for a visit is absent ([continue]). *)
Definition bearing (pg : gmap pid gradient) (v : visit) : bool :=
  match v.1.2, pg !! v.1.1 with
  | VNone, None => false
  | _, _ => true
  end.

(** The gradient the iteration uses for a visit is a sparse tensor. *)
Definition sparse_visit (pg : gmap pid gradient) (v : visit) : bool :=
  match v.1.2 with
  | VNone => match pg !! v.1.1 with Some g => is_sparse g | None => false end
  | VLeaf g => is_sparse g
  | VList _ => false
  end.

(** The visits that come before the first sparse gradient. *)
Fixpoint until_sparse (pg : gmap pid gradient) (V : list visit) : list visit :=
  match V with
  | [] => []
  | v :: V' => if sparse_visit pg v then [] else v :: until_sparse pg V'
  end.

(** [q] is visited with a gradient before the first sparse gradient. *)
Definition processed (pg : gmap pid gradient) (V : list visit) (q : pid) : Prop :=
  ∃ v, v ∈ until_sparse pg V ∧ v.1.1 = q ∧ bearing pg v = true.

(** How often [q] is visited with a gradient. *)
Fixpoint bearing_count (pg : gmap pid gradient) (V : list visit) (q : pid) : nat :=
  match V with
  | [] => 0
  | v :: V' =>
      ((if decide (v.1.1 = q) then if bearing pg v then 1 else 0 else 0)
       + bearing_count pg V' q)%nat
  end.

(** The last parameter visited with a gradient, [init] when there is none. *)
Definition last_bearing (pg : gmap pid gradient) (init : option pid)
    (V : list visit) : option pid :=
  foldl (fun acc v => if bearing pg v then Some v.1.1 else acc) init V.

End Plan.

Arguments visit : clear implicits.

(** ** Notions the properties are stated with *)

Section Properties.

Context {num tensor loss : Type}.
Context {N : PyNumber num} {B : Backend num tensor}.

Abbreviation world := (world num tensor).
Abbreviation optimizer := (optimizer num tensor).
Abbreviation store := (store tensor).
Abbreviation event := (event num tensor).
Abbreviation locals := (locals num tensor).
Abbreviation gradient := (gradient tensor).
Abbreviation pstate := (pstate tensor).
Abbreviation group := (group num).
Abbreviation hyper := (hyper num).
Abbreviation visit := (visit tensor).

Definition step_counter (w : world) (p : pid) : Z :=
  match state (self w) !! p with
  | Some s => state_step s
  | None => 0
  end.

Definition config (o : optimizer) :=
  (_use_multi_tensor o, _allow_undo o, _amp_scale_adjustment o, eps_mode o,
   param_groups o, _amp_stash o).

Definition entry_refs (e : tl_entry tensor) (p : pid) : Prop :=
  match e with
  | TlTensor (RData q) _ | TlTensor (RExpAvg q) _ | TlTensor (RExpAvgSq q) _ => q = p
  | _ => False
  end.

Definition refs_in (S : pid -> Prop) (tls : list (list (tl_entry tensor))) : Prop :=
  Forall (Forall (fun e => forall p, entry_refs e p -> S p)) tls.

Definition kev (S : pid -> Prop) (Q : nat -> hyper -> Prop) (ev : event) : Prop :=
  match ev with
  | EvAdam gi p h | EvAdamUndo gi p h => S p /\ Q gi h
  | EvAdamMt gi tls h => refs_in S tls /\ Q gi h
  | _ => False
  end.

Record touches (S : pid -> Prop) (Q : nat -> hyper -> Prop) (w w' : world) : Prop :=
  Touches {
    t_config : config (self w') = config (self w);
    t_p_grad : p_grad (heap w') = p_grad (heap w);
    t_state : forall q, ~ S q -> state (self w') !! q = state (self w) !! q;
    t_trace : exists evs, trace w' = evs ++ trace w /\ Forall (kev S Q) evs;
    t_p_data : forall q, ~ S q -> p_data (heap w') q = p_data (heap w) q
  }.

Definition same_gens (w w' : world) : Prop :=
  gen_grads (heap w') = gen_grads (heap w) /\ gen_outs (heap w') = gen_outs (heap w).

(** Worlds up to the pending items of generators. *)
Definition strip (w : world) : world :=
  set_gen_outs ∅ (set_gen_grads ∅ w).

Fixpoint run_visits (ps : pass) (gi : nat) (g : group) (cs : num) (bc : Z)
    (V : list visit) (loc : locals) : M locals :=
  match V with
  | [] => ret loc
  | v :: V' =>
      bind (param_body ps gi g cs bc v.1.1 v.1.2 v.2 loc)
           (fun loc' => run_visits ps gi g cs bc V' loc')
  end.

(** The write-back of the batched kernel's results. *)
Record quiet (S : pid -> Prop) (w w' : world) : Prop := Quiet {
  q_touches : touches S (fun _ _ => False) w w';
  q_trace : trace w' = trace w;
  q_counter : forall q, step_counter w' q = step_counter w q;
  q_gens : same_gens w w'
}.

Definition sign (ps : pass) : Z := match ps with Forward _ => 1 | Undo => -1 end.

(** Group entries that are plain values: what they hold does not depend on
    the store. *)
Definition is_gval {A} (e : gentry A) : Prop :=
  match e with GVal _ => True | GGen _ => False end.

Definition gval_entry (z : group * gentry gradient * gentry oid * option num) : Prop :=
  is_gval z.1.1.2 /\ is_gval z.1.2.

(** *** A whole pass *)

Abbreviation closure_t := (store -> result loss * store).

Definition closure_heap (closure : option closure_t) (undo : bool) (h : store) : store :=
  if undo then h
  else match closure with Some c => (c h).2 | None => h end.

Definition prologue_events (closure : option closure_t) (undo : bool) : list event :=
  if undo then []
  else match closure with Some _ => [EvClosure] | None => [] end.

(** The world when the prologue of [_step] is over (or has raised). *)
Definition after_prologue (closure : option closure_t) (undo : bool) (w : world)
    : world :=
  {| self := self w;
     heap := closure_heap closure undo (heap w);
     trace := prologue_events closure undo ++ EvEnter undo :: trace w |}.

Definition pass_of (o : optimizer) (undo : bool) : pass :=
  if undo then Undo else Forward (_use_multi_tensor o).

Definition grad_norms_list (n : nat) (gns : option (list (option num)))
    : list (option num) :=
  match gns with None => repeat None n | Some l => l end.

(** The groups a pass iterates over, each with the entries it is paired
    with: empty when normalisation raises. *)
Definition step_zip (o : optimizer) (a : step_args)
    : list (group * gentry gradient * gentry oid * option num) :=
  let a' := effective_args o a in
  let n := length (param_groups o) in
  match normalize n (a_grads a'), normalize n (a_output_params a') with
  | Ok ges, Ok oes =>
      zip_groups (param_groups o) ges oes (grad_norms_list n (a_grad_norms a'))
  | _, _ => []
  end.

Definition step_plan (o : optimizer) (h : store) (a : step_args) : list visit :=
  concat (plan_groups h (step_zip o a)).

Definition mk_args (grads : pyarg gradient) (output_params : pyarg oid) (scale : num)
    (grad_norms : option (list (option num))) : step_args :=
  {| a_grads := grads; a_output_params := output_params; a_scale := scale;
     a_grad_norms := grad_norms |}.

(** The locals a group starts its iteration with (lines 159-163). *)
Definition group_locals (ps : pass) (out_truthy : bool) (loc : locals) : locals :=
  match ps with
  | Forward true =>
      {| loc_state := loc_state loc; loc_betas := loc_betas loc;
         tensorlists := if out_truthy then [[]; []; []; []; []]
                        else [[]; []; []; []] |}
  | _ => loc
  end.

Definition bias_flag (g : group) : Z := if bias_correction g then 1 else 0.

(** The group index and scalar arguments of a kernel call. *)
Definition event_hyper (ev : event) : option (nat * hyper) :=
  match ev with
  | EvAdam gi _ h | EvAdamUndo gi _ h | EvAdamMt gi _ h => Some (gi, h)
  | _ => None
  end.

(** The event is a kernel call on a tensor of parameter [q]: its contents or
    one of its moment buffers. *)
Definition event_touches (q : pid) (ev : event) : Prop :=
  match ev with
  | EvAdam _ p _ | EvAdamUndo _ p _ => p = q
  | EvAdamMt _ tls _ => exists row e, row ∈ tls /\ e ∈ row /\ entry_refs e q
  | _ => False
  end.

(** Neither the zeroing of the overflow register nor an entry into a pass. *)
Definition inside_pass (ev : event) : Prop :=
  ev <> EvZero /\ forall u, ev <> EvEnter u.

(** The per-group, per-parameter structure the iteration works on for a
    [grads] argument (lines 120-129, 143-145 and the pairing of line 143). *)
Definition normalized (h : store) (gs : list group) (a : pyarg gradient)
    : result (list (list (pyval gradient))) :=
  match normalize (length gs) a with
  | Raise e => Raise e
  | Ok ges =>
      Ok (zip_with (fun g e => entry_items_g h (length (params g)) e) gs ges)
  end.

Definition opt_val (x : option gradient) : pyval gradient :=
  match x with None => VNone | Some g => VLeaf g end.

(** The loop over the groups, on the groups as line 143 pairs them. *)
Fixpoint run_groups (ps : pass) (scale : num) (out_truthy : bool) (gi : nat)
    (zs : list (group * gentry gradient * gentry oid * option num))
    (loc : locals) : M locals :=
  match zs with
  | [] => ret loc
  | z :: zs' =>
      bind (step_group ps scale out_truthy gi z.1.1.1 z.1.1.2 z.1.2 z.2 loc)
           (fun loc' => run_groups ps scale out_truthy (S gi) zs' loc')
  end.

(** *** What can raise before a sparse gradient is met *)










(** *** Notions for the further properties *)

(** The [defaults] dictionary the constructor hands to the base class, and
    what it prints (lines 51-53, 62-64). *)
Definition ctor_defaults (lr_ : num) (bias_correction_ : bool) (betas_ : num * num)
    (eps_ weight_decay_ max_grad_norm_ : num) : defaults num :=
  {| d_lr := lr_; d_bias_correction := bias_correction_; d_betas := betas_;
     d_eps := eps_; d_weight_decay := weight_decay_;
     d_max_grad_norm := max_grad_norm_ |}.

Definition ctor_printed (env : ctor_env) (use_mt : bool) : list string :=
  if use_mt && negb (multi_tensor_applier_available env) then [mt_warning] else [].

(** Nothing was written to the overflow register or to an output buffer. *)
Definition keeps_register_and_outputs (w w' : world) : Prop :=
  _overflow_buf (self w') = _overflow_buf (self w) /\
  out_bufs (heap w') = out_bufs (heap w).

(** The per-parameter kernel call of a pass. *)
Definition pass_call (ps : pass) (gi : nat) (p : pid) (h : hyper) : event :=
  match ps with Undo => EvAdamUndo gi p h | Forward _ => EvAdam gi p h end.

(** The step counters before and after a pass, the smaller ones first. *)
Definition lower (ps : pass) (w w' : world) : pid -> Z :=
  match ps with Forward _ => step_counter w | Undo => step_counter w' end.

Definition upper (ps : pass) (w w' : world) : pid -> Z :=
  match ps with Forward _ => step_counter w' | Undo => step_counter w end.

(** [ev] is the kernel call of a pass for a parameter of one of the paired
    groups [zs], with the scalar arguments of that group and a step value
    between [lo] (exclusive) and [hi] (inclusive). *)
Definition call_of (ps : pass)
    (zs : list (group * gentry gradient * gentry oid * option num))
    (scale : num) (em : Z) (lo hi : pid -> Z) (ev : event) : Prop :=
  exists gi z cs p stepv,
    zs !! gi = Some z /\
    combined_scale z.1.1.1 scale z.2 = Ok cs /\
    p ∈ params z.1.1.1 /\
    ev = pass_call ps gi p
           (mk_hyper z.1.1.1 (betas z.1.1.1) cs stepv em (bias_flag z.1.1.1)) /\
    lo p < stepv <= hi p.

(** From [w] to [w'] only such kernel calls were issued, [eps_mode] is as
    it was and no counter moved against the direction of the pass. *)
Definition issues (ps : pass)
    (zs : list (group * gentry gradient * gentry oid * option num))
    (scale : num) (w w' : world) : Prop :=
  eps_mode (self w') = eps_mode (self w) /\
  (forall q, lower ps w w' q <= upper ps w w' q) /\
  exists evs, trace w' = evs ++ trace w /\
    Forall (call_of ps zs scale (eps_mode (self w)) (lower ps w w') (upper ps w w')) evs.

(** No state entry was removed. *)
Definition keeps_entries (w w' : world) : Prop :=
  forall q, is_Some (state (self w) !! q) -> is_Some (state (self w') !! q).

(** What [p.grad] holds for every parameter of every group, as the nested
    list one would pass for [grads]. *)
Definition attached_grads (h : store) (gs : list group) : pyarg gradient :=
  ArgList (map (fun g : group =>
                  VList (map (fun p => opt_val (p_grad h !! p)) (params g))) gs).

(** [self.state[p]] as an iteration finds or creates it (lines 174-182). *)
Definition entry_of (w : world) (p : pid) : pstate :=
  match state (self w) !! p with
  | Some s => s
  | None => {| state_step := 0;
               exp_avg := zeros_like (p_data (heap w) p);
               exp_avg_sq := zeros_like (p_data (heap w) p) |}
  end.

(** The gradient tensor an iteration works on (lines 167-170). *)
Definition visit_grad (pg : gmap pid gradient) (v : visit) : option gradient :=
  match v.1.2 with
  | VNone => pg !! v.1.1
  | VLeaf g => Some g
  | VList _ => None
  end.

(** What one visit appends to each of the tensor lists (lines 197-202). *)
Definition col_data (w : world) (v : visit) : tl_entry tensor :=
  TlTensor (RData v.1.1) (p_data (heap w) v.1.1).
Definition col_avg (w : world) (v : visit) : tl_entry tensor :=
  TlTensor (RExpAvg v.1.1) (exp_avg (entry_of w v.1.1)).
Definition col_sq (w : world) (v : visit) : tl_entry tensor :=
  TlTensor (RExpAvgSq v.1.1) (exp_avg_sq (entry_of w v.1.1)).
Definition col_grad (w : world) (v : visit) : option (tl_entry tensor) :=
  (fun g => TlTensor RGrad (grad_data g)) <$> visit_grad (p_grad (heap w)) v.
Definition col_out (w : world) (v : visit) : option (tl_entry tensor) :=
  match v.2 with
  | VNone => None
  | VLeaf o => Some (TlTensor (ROut o) (out_bufs (heap w) o))
  | VList _ => Some TlNotTensor
  end.

(** The five lists for the visits [L], as they stand in the world [w]; the
    fifth only when [output_params] is truthy (lines 159-163, 196-202). *)
Definition batch (ot : bool) (w : world) (L : list visit)
    : list (list (tl_entry tensor)) :=
  [map (col_data w) L; map (col_avg w) L; map (col_sq w) L; omap (col_grad w) L]
  ++ (if ot then [omap (col_out w) L] else []).

(** The entries a visit would append are the same in both worlds. *)
Definition cols_agree (w0 w : world) : Prop :=
  forall v, col_data w v = col_data w0 v /\ col_avg w v = col_avg w0 v /\
            col_sq w v = col_sq w0 v /\ col_grad w v = col_grad w0 v /\
            col_out w v = col_out w0 v.

(** The group index and parameter of a per-parameter kernel call. *)
Definition event_target (ev : event) : option (nat * pid) :=
  match ev with
  | EvAdam gi p _ | EvAdamUndo gi p _ => Some (gi, p)
  | _ => None
  end.

(** The gradient-bearing visits of the groups, numbered from [gi], in the
    order of the iteration. *)
Fixpoint targets (pg : gmap pid gradient) (gi : nat) (Vs : list (list visit))
    : list (nat * pid) :=
  match Vs with
  | [] => []
  | V :: Vs' =>
      map (fun v : visit => (gi, v.1.1)) (List.filter (bearing pg) V)
      ++ targets pg (S gi) Vs'
  end.


(** The forward kernel ran once on [q] with gradient [gr], on the contents
    and the moments [q] had in [w], and [w'] holds what it returned. *)
Definition stepped_by (g : group) (cs : num) (w w' : world) (q : pid) (gr : gradient)
    : Prop :=
  let e := entry_of w q in
  exists ovf out_t r,
    adam ovf (p_data (heap w) q) out_t (exp_avg e) (exp_avg_sq e) (grad_data gr)
      (mk_hyper g (betas g) cs (state_step e + 1) (eps_mode (self w)) (bias_flag g))
    = Ok r /\
    p_data (heap w') q = o_p r /\
    state (self w') !! q
    = Some {| state_step := state_step e + 1; exp_avg := o_exp_avg r;
              exp_avg_sq := o_exp_avg_sq r |}.

(** [q] has in [w'] the state entry and contents it has in [w]. *)
Definition same_at (q : pid) (w w' : world) : Prop :=
  state (self w') !! q = state (self w) !! q /\
  p_data (heap w') q = p_data (heap w) q /\
  eps_mode (self w') = eps_mode (self w).

(** The undo kernel ran once on [q] with gradient [gr], on the contents and
    the moments [q] had in [w], and [w'] holds what it returned. *)
Definition reverted_by (g : group) (cs : num) (w w' : world) (q : pid) (gr : gradient)
    : Prop :=
  let e := entry_of w q in
  exists r,
    adam_undo (p_data (heap w) q) (exp_avg e) (exp_avg_sq e) (grad_data gr)
      (mk_hyper g (betas g) cs (state_step e) (eps_mode (self w)) (bias_flag g))
    = Ok r /\
    p_data (heap w') q = u_p r /\
    state (self w') !! q
    = Some {| state_step := state_step e - 1; exp_avg := u_exp_avg r;
              exp_avg_sq := u_exp_avg_sq r |}.

(** The kernel of the pass ran once on [q]. *)
Definition updated_by (ps : pass) : group -> num -> world -> world -> pid -> gradient -> Prop :=
  match ps with Forward _ => stepped_by | Undo => reverted_by end.

(** [o] is not the output buffer of a visit with a gradient. *)
Definition not_written (pg : gmap pid gradient) (V : list visit) (o : oid) : Prop :=
  forall v, v ∈ V -> bearing pg v = true -> v.2 <> VLeaf o.

(** An entry of the tensor lists that is not the output buffer [o]. *)
Definition no_out_ref (o : oid) (e : tl_entry tensor) : Prop :=
  forall t, e <> TlTensor (ROut o) t.

(** ** Lemmas *)

Lemma touches_refl S Q w : touches S Q w w.
Proof. split; auto. exists []. split; auto. Qed.

Lemma touches_trans S Q w1 w2 w3 :
  touches S Q w1 w2 -> touches S Q w2 w3 -> touches S Q w1 w3.
Proof.
  intros [c1 g1 s1 (e1 & t1 & f1) d1] [c2 g2 s2 (e2 & t2 & f2) d2]. split.
  - congruence.
  - congruence.
  - intros q Hq. rewrite s2, s1; auto.
  - exists (e2 ++ e1). split.
    + rewrite t2, t1, app_assoc. reflexivity.
    + apply Forall_app; auto.
  - intros q Hq. rewrite d2, d1; auto.
Qed.

Lemma refs_in_mono (S S' : pid -> Prop) tls :
  (forall q, S q -> S' q) -> refs_in S tls -> refs_in S' tls.
Proof.
  intros HS. unfold refs_in. intros Hr.
  eapply List.Forall_impl; [|exact Hr]. intros row Hrow.
  eapply List.Forall_impl; [|exact Hrow]. simpl. intros e He p Hp. auto.
Qed.

Lemma refs_in_True (tls : list (list (tl_entry tensor))) :
  refs_in (fun _ => True) tls.
Proof.
  unfold refs_in. apply List.Forall_forall. intros row _.
  apply List.Forall_forall. auto.
Qed.

Lemma kev_mono (S S' : pid -> Prop) (Q Q' : nat -> hyper -> Prop) ev :
  (forall q, S q -> S' q) -> (forall gi h, Q gi h -> Q' gi h) ->
  kev S Q ev -> kev S' Q' ev.
Proof.
  intros HS HQ. destruct ev; simpl; try tauto.
  - intros [? ?]; auto.
  - intros [? ?]; auto.
  - intros [? ?]; split; eauto using refs_in_mono.
Qed.

Lemma touches_mono (S S' : pid -> Prop) (Q Q' : nat -> hyper -> Prop) w w' :
  (forall q, S q -> S' q) -> (forall gi h, Q gi h -> Q' gi h) ->
  touches S Q w w' -> touches S' Q' w w'.
Proof.
  intros HS HQ [c g s (e & t & f) d]. split; auto.
  exists e. split; auto. eapply List.Forall_impl; [|exact f].
  intros ev. apply kev_mono; auto.
Qed.

Lemma param_body_skip ps gi g cs bc p grad o loc (w : world) :
  bearing (p_grad (heap w)) (p, grad, o) = false ->
  param_body ps gi g cs bc p grad o loc w = (Ok loc, w).
Proof.
  unfold bearing, param_body, bind, get. simpl.
  destruct grad; simpl; try discriminate.
  destruct (p_grad (heap w) !! p); simpl; try discriminate. reflexivity.
Qed.

Lemma param_body_sparse ps gi g cs bc p grad o loc (w : world) :
  sparse_visit (p_grad (heap w)) (p, grad, o) = true ->
  param_body ps gi g cs bc p grad o loc w = (Raise (RuntimeError sparse_msg), w).
Proof.
  unfold sparse_visit, param_body, bind, get. simpl.
  destruct grad as [|gr|l]; simpl; try discriminate.
  - destruct (p_grad (heap w) !! p) as [gr|]; simpl; try discriminate.
    intros ->. reflexivity.
  - intros ->. reflexivity.
Qed.

Ltac mstep :=
  repeat (first
    [ progress simpl
    | progress unfold lift, put_state, modify, log, write_p_data, write_out_buf,
        ret, raise, get_or_init, bind, get
    | match goal with
      | |- context [match ?x with _ => _ end] =>
          lazymatch x with
          | context [match _ with _ => _ end] => fail
          | _ => destruct x eqn:?
          end
      end ]).

Ltac solve_touches :=
  split; simpl; auto;
  try (intros ? ?; rewrite ?lookup_insert_ne by congruence; solve [auto]);
  try (intros ? ?; rewrite ?fn_lookup_insert_ne by congruence; solve [auto]);
  try (first [ exists []; split; [reflexivity | constructor]
             | eexists [_]; split; [reflexivity | repeat constructor; simpl; auto] ]).

Lemma param_body_touches (S : pid -> Prop) (Q : nat -> hyper -> Prop)
    ps gi g cs bc p grad o loc (w : world) r w' :
  S p ->
  (forall h, h_combined_scale h = cs -> Q gi h) ->
  param_body ps gi g cs bc p grad o loc w = (r, w') ->
  touches S Q w w' /\ same_gens w w'.
Proof.
  intros HS HQ. unfold param_body. mstep.
  all: intros [= <- <-]; (split; [|split; reflexivity]).
  all: try apply touches_refl.
  all: solve_touches.
Qed.

Lemma param_body_strip ps gi g cs bc p grad o loc (w : world) :
  param_body ps gi g cs bc p grad o loc (strip w) =
  ((param_body ps gi g cs bc p grad o loc w).1,
   strip (param_body ps gi g cs bc p grad o loc w).2).
Proof.
  unfold param_body. mstep; reflexivity.
Qed.

Lemma zip_append_refs (S : pid -> Prop) (tls : list (list (tl_entry tensor))) pl :
  refs_in S tls ->
  Forall (fun e => forall p, entry_refs e p -> S p) pl ->
  refs_in S (zip_append tls pl).
Proof.
  unfold refs_in. revert pl. induction tls as [|tl tls IH]; intros pl Ht Hp; simpl.
  - constructor.
  - destruct pl as [|t pl]; auto.
    inversion Ht; subst. inversion Hp; subst.
    constructor; auto. apply Forall_app; auto.
Qed.

Lemma param_body_locals (S : pid -> Prop) ps gi g cs bc p grad o loc (w : world) loc' w' :
  param_body ps gi g cs bc p grad o loc w = (Ok loc', w') ->
  (if bearing (p_grad (heap w)) (p, grad, o)
   then loc_state loc' = Some p /\ loc_betas loc' = Some (betas g)
   else loc' = loc) /\
  (refs_in S (tensorlists loc) -> S p -> refs_in S (tensorlists loc')).
Proof.
  unfold param_body, bearing. mstep.
  all: intros [= <- <-]; simpl; try (split; [tauto|]); auto.
  all: try discriminate.
  all: intros Hr Hp; apply zip_append_refs; auto.
  all: repeat constructor; simpl; intros; subst; auto; try contradiction.
Qed.

Ltac counters :=
  unfold step_counter; simpl;
  repeat match goal with
  | |- context [<[?p := _]> _ !! ?q] => rewrite (lookup_insert _ p q)
  | |- context [decide (?p = ?q)] => destruct (decide (p = q)); subst
  | H : ?m !! ?p = _ |- context [?m !! ?p] => rewrite H
  end; simpl;
  repeat match goal with
  | |- context [match ?m !! ?q with _ => _ end] => destruct (m !! q)
  end; simpl; try lia.

Lemma param_body_forward_mono mt gi g cs bc p grad o loc (w : world) r w' q :
  param_body (Forward mt) gi g cs bc p grad o loc w = (r, w') ->
  step_counter w q <= step_counter w' q.
Proof.
  unfold param_body. mstep.
  all: intros [= <- <-]; counters.
Qed.

Lemma param_body_counter ps gi g cs bc p grad o loc (w : world) loc' w' q :
  param_body ps gi g cs bc p grad o loc w = (Ok loc', w') ->
  step_counter w' q =
  step_counter w q +
  (if decide (p = q)
   then if bearing (p_grad (heap w)) (p, grad, o)
        then match ps with Forward _ => 1 | Undo => -1 end
        else 0
   else 0).
Proof.
  unfold param_body, bearing. mstep.
  all: intros [= <- <-]; try discriminate; counters.
Qed.

Lemma param_body_mt_silent gi g cs bc p grad o loc (w : world) r w' :
  param_body (Forward true) gi g cs bc p grad o loc w = (r, w') ->
  trace w' = trace w /\ _overflow_buf (self w') = _overflow_buf (self w).
Proof.
  unfold param_body. mstep.
  all: intros [= <- <-]; auto.
Qed.

Lemma next_grad_spec (it : iter gradient) (w : world) :
  match items_g (heap w) it with
  | [] => next_grad it w = (Ok None, w)
  | x :: xs => exists it' w1,
      next_grad it w = (Ok (Some (x, it')), w1) /\
      items_g (heap w1) it' = xs /\ strip w1 = strip w /\
      gen_outs (heap w1) = gen_outs (heap w)
  end.
Proof.
  destruct it as [l|g]; simpl.
  - destruct l as [|x l]; eauto 10.
  - destruct (gen_grads (heap w) !! g) as [[|x l]|] eqn:E; simpl; auto.
    eexists _, _. split; [reflexivity|]. simpl.
    rewrite lookup_insert_eq. auto.
Qed.

Lemma next_out_spec (it : iter oid) (w : world) :
  match items_o (heap w) it with
  | [] => next_out it w = (Ok None, w)
  | x :: xs => exists it' w1,
      next_out it w = (Ok (Some (x, it')), w1) /\
      items_o (heap w1) it' = xs /\ strip w1 = strip w /\
      gen_grads (heap w1) = gen_grads (heap w)
  end.
Proof.
  destruct it as [l|g]; simpl.
  - destruct l as [|x l]; eauto 10.
  - destruct (gen_outs (heap w) !! g) as [[|x l]|] eqn:E; simpl; auto.
    eexists _, _. split; [reflexivity|]. simpl.
    rewrite lookup_insert_eq. auto.
Qed.

Lemma items_g_gens (h h' : store) it :
  gen_grads h' = gen_grads h -> items_g h' it = items_g h it.
Proof. intros E. destruct it; simpl; rewrite ?E; auto. Qed.

Lemma items_o_gens (h h' : store) it :
  gen_outs h' = gen_outs h -> items_o h' it = items_o h it.
Proof. intros E. destruct it; simpl; rewrite ?E; auto. Qed.

Lemma param_body_gens ps gi g cs bc p grad o loc (w : world) r w' :
  param_body ps gi g cs bc p grad o loc w = (r, w') -> same_gens w w'.
Proof.
  unfold param_body. mstep.
  all: intros [= <- <-]; split; reflexivity.
Qed.

Lemma param_loop_run ps gi g cs bc prms : forall git oit loc (w : world) r w',
  param_loop ps gi g cs bc prms git oit loc w = (r, w') ->
  run_visits ps gi g cs bc
    (zip3 prms (items_g (heap w) git) (items_o (heap w) oit)) loc (strip w)
  = (r, strip w').
Proof.
  induction prms as [|p rest IH]; intros git oit loc w r w'; simpl.
  - intros [= <- <-]. reflexivity.
  - unfold bind at 1.
    pose proof (next_grad_spec git w) as Hg.
    destruct (items_g (heap w) git) as [|x xs].
    { rewrite Hg. intros [= <- <-]. reflexivity. }
    destruct Hg as (git' & w1 & -> & Hxs & Hs1 & Ho1).
    unfold bind at 1.
    pose proof (next_out_spec oit w1) as Ho.
    rewrite <- (items_o_gens _ _ oit Ho1).
    destruct (items_o (heap w1) oit) as [|y ys].
    { rewrite Ho. intros [= <- <-]. simpl. rewrite Hs1. reflexivity. }
    destruct Ho as (oit' & w2 & -> & Hys & Hs2 & Hg2).
    simpl. unfold bind.
    rewrite <- Hs1, <- Hs2, param_body_strip.
    destruct (param_body ps gi g cs bc p x y loc w2) as [[loc'|e] w3] eqn:Eb; simpl.
    + intros Hl. apply IH in Hl.
      apply param_body_gens in Eb. destruct Eb as [Eg Eo].
      rewrite (items_g_gens _ _ git' Eg), (items_o_gens _ _ oit' Eo) in Hl.
      rewrite (items_g_gens _ _ git' Hg2), Hxs, Hys in Hl. exact Hl.
    + intros [= <- <-]. reflexivity.
Qed.

Lemma param_body_p_grad ps gi g cs bc p grad o loc (w : world) r w' :
  param_body ps gi g cs bc p grad o loc w = (r, w') ->
  p_grad (heap w') = p_grad (heap w).
Proof.
  intros Hb.
  apply (param_body_touches (fun _ => True) (fun _ _ => True)) in Hb; auto.
  destruct Hb as [[] _]; auto.
Qed.

Lemma processed_cons pg (v : visit) V q :
  sparse_visit pg v = false -> processed pg V q -> processed pg (v :: V) q.
Proof.
  intros Hs (u & Hu & Hq & Hb). exists u. simpl. rewrite Hs.
  split; [|auto]. apply elem_of_cons. auto.
Qed.

Lemma processed_head pg (v : visit) V :
  sparse_visit pg v = false -> bearing pg v = true -> processed pg (v :: V) v.1.1.
Proof.
  intros Hs Hb. exists v. simpl. rewrite Hs. split; [|auto]. apply elem_of_cons. auto.
Qed.

Lemma run_visits_touches (S : pid -> Prop) (Q : nat -> hyper -> Prop) ps gi g cs bc :
  (forall h, h_combined_scale h = cs -> Q gi h) ->
  forall V loc (w : world) r w',
  run_visits ps gi g cs bc V loc w = (r, w') ->
  (forall q, processed (p_grad (heap w)) V q -> S q) ->
  refs_in S (tensorlists loc) ->
  touches S Q w w' /\ same_gens w w' /\
  (forall loc', r = Ok loc' -> refs_in S (tensorlists loc')).
Proof.
  intros HQ. induction V as [|v V IH]; intros loc w r w'; simpl.
  - intros [= <- <-] _ Hr. split; [apply touches_refl|].
    split; [split; reflexivity|]. intros loc' [= <-]. exact Hr.
  - intros Hrun HS Hr. unfold bind in Hrun.
    destruct (sparse_visit (p_grad (heap w)) v) eqn:Es.
    { destruct v as [[p gr] o]. rewrite param_body_sparse in Hrun by exact Es.
      injection Hrun as <- <-. split; [apply touches_refl|].
      split; [split; reflexivity|]. discriminate. }
    destruct (bearing (p_grad (heap w)) v) eqn:Eb.
    + assert (Sv : S v.1.1) by (apply HS, processed_head; auto).
      destruct (param_body ps gi g cs bc v.1.1 v.1.2 v.2 loc w) as [[loc1|e] w1] eqn:Ebody.
      * pose proof (param_body_touches S Q _ _ _ _ _ _ _ _ _ _ _ _ Sv HQ Ebody) as [Ht Hg].
        pose proof (param_body_locals S _ _ _ _ _ _ _ _ _ _ _ _ Ebody) as [_ Hrefs].
        pose proof (t_p_grad _ _ _ _ Ht) as Hpg.
        apply IH in Hrun.
        -- destruct Hrun as (Ht2 & Hg2 & Hl). split; [eapply touches_trans; eauto|].
           split; [|exact Hl]. destruct Hg, Hg2. split; congruence.
        -- rewrite Hpg. intros q Hq. apply HS. apply processed_cons; auto.
        -- auto.
      * pose proof (param_body_touches S Q _ _ _ _ _ _ _ _ _ _ _ _ Sv HQ Ebody) as [Ht Hg].
        injection Hrun as <- <-. split; [exact Ht|]. split; [exact Hg|]. discriminate.
    + destruct v as [[p gr] o]. rewrite param_body_skip in Hrun by exact Eb.
      apply IH in Hrun; auto.
      intros q Hq. apply HS. apply processed_cons; auto.
Qed.

Lemma run_visits_ok_dense ps gi g cs bc : forall V loc (w : world) loc' w',
  run_visits ps gi g cs bc V loc w = (Ok loc', w') ->
  Forall (fun v => sparse_visit (p_grad (heap w)) v = false) V.
Proof.
  induction V as [|v V IH]; intros loc w loc' w'; simpl; [constructor|].
  unfold bind. intros Hrun.
  destruct (sparse_visit (p_grad (heap w)) v) eqn:Es.
  { destruct v as [[p gr] o]. rewrite param_body_sparse in Hrun by exact Es. discriminate. }
  destruct (param_body ps gi g cs bc v.1.1 v.1.2 v.2 loc w) as [[loc1|e] w1] eqn:Ebody;
    [|discriminate].
  constructor; auto. apply param_body_p_grad in Ebody. rewrite <- Ebody. eauto.
Qed.

Lemma run_visits_counter ps gi g cs bc : forall V loc (w : world) loc' w' q,
  run_visits ps gi g cs bc V loc w = (Ok loc', w') ->
  step_counter w' q =
  step_counter w q +
  match ps with Forward _ => 1 | Undo => -1 end *
  Z.of_nat (bearing_count (p_grad (heap w)) V q).
Proof.
  induction V as [|v V IH]; intros loc w loc' w' q; simpl.
  - intros [= <- <-]. lia.
  - unfold bind. intros Hrun.
    destruct (param_body ps gi g cs bc v.1.1 v.1.2 v.2 loc w) as [[loc1|e] w1] eqn:Ebody;
      [|discriminate].
    pose proof (param_body_p_grad _ _ _ _ _ _ _ _ _ _ _ _ Ebody) as Hpg.
    apply (param_body_counter _ _ _ _ _ _ _ _ _ _ _ _ q) in Ebody.
    apply (IH _ _ _ _ q) in Hrun. rewrite Hrun, Ebody, Hpg.
    simpl bearing_count.
    destruct v as [[p gr] o]; simpl.
    destruct (decide (p = q)); [destruct (bearing _ _)|]; destruct ps; lia.
Qed.

Lemma run_visits_forward_mono mt gi g cs bc : forall V loc (w : world) r w' q,
  run_visits (Forward mt) gi g cs bc V loc w = (r, w') ->
  step_counter w q <= step_counter w' q.
Proof.
  induction V as [|v V IH]; intros loc w r w' q; simpl.
  - intros [= <- <-]. lia.
  - unfold bind. intros Hrun.
    destruct (param_body (Forward mt) gi g cs bc v.1.1 v.1.2 v.2 loc w)
      as [[loc1|e] w1] eqn:Ebody.
    + apply (param_body_forward_mono _ _ _ _ _ _ _ _ _ _ _ _ q) in Ebody.
      apply (IH _ _ _ _ q) in Hrun. lia.
    + injection Hrun as <- <-.
      apply (param_body_forward_mono _ _ _ _ _ _ _ _ _ _ _ _ q) in Ebody. lia.
Qed.

Lemma run_visits_mt_silent gi g cs bc : forall V loc (w : world) r w',
  run_visits (Forward true) gi g cs bc V loc w = (r, w') ->
  trace w' = trace w /\ _overflow_buf (self w') = _overflow_buf (self w).
Proof.
  induction V as [|v V IH]; intros loc w r w'; simpl.
  - intros [= <- <-]. auto.
  - unfold bind. intros Hrun.
    destruct (param_body (Forward true) gi g cs bc v.1.1 v.1.2 v.2 loc w)
      as [[loc1|e] w1] eqn:Ebody.
    + apply param_body_mt_silent in Ebody. apply IH in Hrun.
      destruct Ebody, Hrun. split; congruence.
    + injection Hrun as <- <-. apply param_body_mt_silent in Ebody. exact Ebody.
Qed.

Lemma last_bearing_init pg init (V : list visit) :
  last_bearing pg init V =
  match last_bearing pg None V with Some p => Some p | None => init end.
Proof.
  unfold last_bearing. revert init. induction V as [|v V IH]; intros init; simpl; auto.
  rewrite IH. rewrite (IH (if bearing pg v then _ else None)).
  destruct (foldl _ None V); auto. destruct (bearing pg v); auto.
Qed.

Lemma run_visits_locals ps gi g cs bc : forall V loc (w : world) loc' w',
  run_visits ps gi g cs bc V loc w = (Ok loc', w') ->
  match last_bearing (p_grad (heap w)) None V with
  | Some p => loc_state loc' = Some p /\ loc_betas loc' = Some (betas g)
  | None => loc_state loc' = loc_state loc /\ loc_betas loc' = loc_betas loc
  end.
Proof.
  induction V as [|v V IH]; intros loc w loc' w'; simpl.
  - intros [= <- <-]. auto.
  - unfold bind. intros Hrun.
    destruct (param_body ps gi g cs bc v.1.1 v.1.2 v.2 loc w) as [[loc1|e] w1] eqn:Ebody;
      [|discriminate].
    pose proof (param_body_p_grad _ _ _ _ _ _ _ _ _ _ _ _ Ebody) as Hpg.
    apply (param_body_locals (fun _ => True)) in Ebody. destruct Ebody as [Hl _].
    apply IH in Hrun. rewrite Hpg in Hrun.
    change (last_bearing (p_grad (heap w)) None (v :: V)) with
      (last_bearing (p_grad (heap w))
         (if bearing (p_grad (heap w)) v then Some v.1.1 else None) V).
    rewrite last_bearing_init.
    destruct (last_bearing (p_grad (heap w)) None V); auto.
    destruct v as [[p gr] o]. simpl in *.
    destruct (bearing (p_grad (heap w)) (p, gr, o)).
    + destruct Hl, Hrun. split; congruence.
    + subst loc1. auto.
Qed.

Lemma quiet_refl S w : quiet S w w.
Proof. split; auto using touches_refl. split; reflexivity. Qed.

Lemma quiet_trans S w1 w2 w3 : quiet S w1 w2 -> quiet S w2 w3 -> quiet S w1 w3.
Proof.
  intros [t1 r1 c1 [g1 o1]] [t2 r2 c2 [g2 o2]]. split.
  - eapply touches_trans; eauto.
  - congruence.
  - intros q. rewrite c2, c1. reflexivity.
  - split; congruence.
Qed.

Lemma write_back_quiet (S : pid -> Prop) e t (w : world) :
  (forall p, entry_refs e p -> S p) -> quiet S w (write_back e t w).
Proof.
  intros He. destruct e as [[p|p|p| |o] t0|]; simpl; try apply quiet_refl.
  - split; [| reflexivity | reflexivity | split; reflexivity].
    split; simpl; auto.
    + exists []. split; auto.
    + intros q Hq. apply fn_lookup_insert_ne. intros ->. apply Hq, He. reflexivity.
  - destruct (state (self w) !! p) as [s|] eqn:Es; [|apply quiet_refl].
    split; [|reflexivity| |split; reflexivity].
    + split; simpl; auto.
      * intros q Hq. rewrite lookup_insert_ne; auto.
      * exists []. split; auto.
    + intros q. counters.
  - destruct (state (self w) !! p) as [s|] eqn:Es; [|apply quiet_refl].
    split; [|reflexivity| |split; reflexivity].
    + split; simpl; auto.
      * intros q Hq. rewrite lookup_insert_ne; auto.
      * exists []. split; auto.
    + intros q. counters.
  - split; [| reflexivity | reflexivity | split; reflexivity].
    split; simpl; auto. exists []. split; auto.
Qed.

Lemma write_list_quiet (S : pid -> Prop) es : forall ts (w : world),
  Forall (fun e => forall p, entry_refs e p -> S p) es ->
  quiet S w (write_list es ts w).
Proof.
  induction es as [|e es IH]; intros ts w He; simpl; [apply quiet_refl|].
  destruct ts as [|t ts]; [apply quiet_refl|].
  inversion He; subst.
  eapply quiet_trans; [apply write_back_quiet; eauto|]. apply IH; auto.
Qed.

Lemma write_lists_quiet (S : pid -> Prop) tls : forall tss (w : world),
  refs_in S tls -> quiet S w (write_lists tls tss w).
Proof.
  induction tls as [|es tls IH]; intros tss w He; simpl; [apply quiet_refl|].
  destruct tss as [|ts tss]; [apply quiet_refl|].
  inversion He; subst.
  eapply quiet_trans; [apply write_list_quiet; eauto|]. apply IH; auto.
Qed.

(** What the batched call of a group does: it raises before the kernel is
    reached, or issues the one kernel call whose step value is the counter
    of the parameter [state] refers to. *)
Ltac unchanged :=
  split; [apply touches_refl |
  split; [split; reflexivity |
  split; [reflexivity |
  split; [left; split; reflexivity | first [discriminate | auto]]]]].

Lemma mt_call_spec (S : pid -> Prop) (Q : nat -> hyper -> Prop)
    gi g cs bc loc (w : world) r w' :
  mt_call gi g cs bc loc w = (r, w') ->
  refs_in S (tensorlists loc) ->
  (forall h, h_combined_scale h = cs -> Q gi h) ->
  touches S Q w w' /\ same_gens w w' /\
  (forall q, step_counter w' q = step_counter w q) /\
  ((trace w' = trace w /\ is_ok r = false) \/
   exists b p0,
     loc_betas loc = Some b /\ loc_state loc = Some p0 /\
     trace w' = EvAdamMt gi (tensorlists loc)
                  (mk_hyper g b cs (step_counter w p0) (eps_mode (self w)) bc)
                :: trace w) /\
  (loc_betas loc = None -> r = Raise (UnboundLocalError "beta1") /\ w' = w).
Proof.
  intros Hm Hr HQ. unfold mt_call in Hm.
  destruct (loc_betas loc) as [b|] eqn:Eb.
  2:{ injection Hm as <- <-. unchanged. }
  destruct (loc_state loc) as [p0|] eqn:Ep.
  2:{ injection Hm as <- <-. unchanged. }
  unfold bind, get in Hm.
  destruct (state (self w) !! p0) as [s|] eqn:Es.
  2:{ injection Hm as <- <-. unchanged. }
  unfold lift at 1 in Hm.
  destruct (all_ok (all_ok entry_tensor) (tensorlists loc)) as [ts|e].
  2:{ injection Hm as <- <-. unchanged. }
  unfold log, modify, lift in Hm. simpl in Hm.
  assert (Hstep : state_step s = step_counter w p0)
    by (unfold step_counter; rewrite Es; reflexivity).
  assert (Ht0 : forall z, touches S Q w
            (set_overflow z (add_event (EvAdamMt gi (tensorlists loc)
               (mk_hyper g b cs (state_step s) (eps_mode (self w)) bc)) w))).
  { intros z. split; simpl; auto. eexists [_]. split; [reflexivity|].
    repeat constructor; simpl; auto. }
  destruct (adam_mt _ _ _) as [[z tss]|e].
  - injection Hm as <- <-. simpl.
    pose proof (write_lists_quiet S (tensorlists loc) tss
      (set_overflow z (add_event (EvAdamMt gi (tensorlists loc)
               (mk_hyper g b cs (state_step s) (eps_mode (self w)) bc)) w)) Hr)
      as [Hq Htr Hc Hg].
    split; [|split; [|split; [|split]]].
    + eapply touches_trans; [apply Ht0|].
      eapply touches_mono; [| |exact Hq]; auto. intros ? ? [].
    + destruct Hg as [Hg1 Hg2].
      split; [etransitivity; [exact Hg1|reflexivity]
             |etransitivity; [exact Hg2|reflexivity]].
    + intros q. etransitivity; [apply Hc|reflexivity].
    + right. exists b, p0. rewrite Htr, <- Hstep. auto.
    + discriminate.
  - injection Hm as <- <-.
    split; [|split; [|split; [|split]]].
    + pose proof (Ht0 0) as [c gq st tr]. split; auto.
    + split; reflexivity.
    + reflexivity.
    + right. exists b, p0. rewrite <- Hstep. auto.
    + discriminate.
Qed.

Lemma touches_strip S Q (w w' : world) :
  touches S Q (strip w) (strip w') -> touches S Q w w'.
Proof. intros [c g s t]. split; assumption. Qed.

(** The shape of a group's iteration: it raises before the loop and changes
    nothing, or runs the visits of the group and then, in batched mode, the
    batched call. *)
Lemma step_group_inv ps scale ot gi g ge oe gn loc (w : world) r w' :
  step_group ps scale ot gi g ge oe gn loc w = (r, w') ->
  (w' = w /\ is_ok r = false) \/
  exists cs r1 w1,
    combined_scale g scale gn = Ok cs /\
    run_visits ps gi g cs (bias_flag g) (group_visits (heap w) g ge oe)
      (group_locals ps ot loc) (strip w) = (r1, strip w1) /\
    match r1 with
    | Raise e => r = Raise e /\ w' = w1
    | Ok loc1 =>
        match ps with
        | Forward true =>
            exists rm, mt_call gi g cs (bias_flag g) loc1 w1 = (rm, w') /\
                       r = match rm with Ok _ => Ok loc1 | Raise e => Raise e end
        | _ => r = Ok loc1 /\ w' = w1
        end
    end.
Proof.
  unfold step_group, bind, lift. intros Hs.
  destruct (combined_scale g scale gn) as [cs|e]; [|left; injection Hs as <- <-; auto].
  unfold group_visits, entry_items_g, entry_items_o.
  destruct (make_iter (fill_none (length (params g)) ge)) as [git|e];
    [|left; injection Hs as <- <-; auto].
  destruct (make_iter (fill_none (length (params g)) oe)) as [oit|e];
    [|left; injection Hs as <- <-; auto].
  fold (bias_flag g) in Hs. fold (group_locals ps ot loc) in Hs.
  destruct (param_loop ps gi g cs (bias_flag g) (params g) git oit
              (group_locals ps ot loc) w) as [r1 w1] eqn:El.
  apply param_loop_run in El.
  right. exists cs, r1, w1. split; [reflexivity|]. split; [exact El|].
  destruct r1 as [loc1|e]; [|injection Hs as <- <-; auto].
  destruct ps as [[|]|].
  - destruct (mt_call gi g cs (bias_flag g) loc1 w1) as [rm wm] eqn:Em.
    exists rm. destruct rm; injection Hs as <- <-; auto.
  - injection Hs as <- <-; auto.
  - injection Hs as <- <-; auto.
Qed.

Lemma group_locals_refs S ps ot (loc : locals) :
  refs_in S (tensorlists loc) -> refs_in S (tensorlists (group_locals ps ot loc)).
Proof.
  intros Hr. destruct ps as [[|]|]; simpl; auto.
  destruct ot; repeat constructor.
Qed.

Lemma step_group_touches (S : pid -> Prop) (Q : nat -> hyper -> Prop)
    ps scale ot gi g ge oe gn loc (w : world) r w' :
  step_group ps scale ot gi g ge oe gn loc w = (r, w') ->
  (forall q, processed (p_grad (heap w)) (group_visits (heap w) g ge oe) q -> S q) ->
  refs_in S (tensorlists loc) ->
  (forall cs h, combined_scale g scale gn = Ok cs -> h_combined_scale h = cs -> Q gi h) ->
  touches S Q w w' /\ (forall loc', r = Ok loc' -> refs_in S (tensorlists loc')).
Proof.
  intros Hs HS Hr HQ. apply step_group_inv in Hs.
  destruct Hs as [[-> Hf]|(cs & r1 & w1 & Ecs & Erun & Hrest)].
  { split; [apply touches_refl|]. intros loc' ->. discriminate. }
  apply (run_visits_touches S Q) in Erun; auto using group_locals_refs.
  2:{ intros h Hh. eapply HQ; eauto. }
  destruct Erun as (Ht & _ & Hl). apply touches_strip in Ht.
  destruct r1 as [loc1|e].
  - specialize (Hl loc1 eq_refl).
    destruct ps as [[|]|].
    + destruct Hrest as (rm & Em & ->).
      apply (mt_call_spec S Q) in Em; auto. 2:{ intros h Hh. eapply HQ; eauto. }
      destruct Em as (Ht2 & _). split; [eapply touches_trans; eauto|].
      intros loc'. destruct rm; intros [= <-]. exact Hl.
    + destruct Hrest as [-> ->]. split; auto. intros loc' [= <-]. exact Hl.
    + destruct Hrest as [-> ->]. split; auto. intros loc' [= <-]. exact Hl.
  - destruct Hrest as [-> ->]. split; [exact Ht|discriminate].
Qed.

Lemma step_group_ok ps scale ot gi g ge oe gn loc (w : world) loc' w' :
  step_group ps scale ot gi g ge oe gn loc w = (Ok loc', w') ->
  Forall (fun v => sparse_visit (p_grad (heap w)) v = false)
    (group_visits (heap w) g ge oe) /\
  (forall q, step_counter w' q =
             step_counter w q +
             sign ps * Z.of_nat (bearing_count (p_grad (heap w))
                                   (group_visits (heap w) g ge oe) q)) /\
  is_ok (combined_scale g scale gn) = true.
Proof.
  intros Hs. apply step_group_inv in Hs.
  destruct Hs as [[_ Hf]|(cs & r1 & w1 & Ecs & Erun & Hrest)]; [discriminate|].
  rewrite Ecs.
  destruct r1 as [loc1|e]; [|destruct Hrest; discriminate].
  pose proof (run_visits_ok_dense _ _ _ _ _ _ _ _ _ _ Erun) as Hd.
  assert (Hc : forall q, step_counter w1 q =
             step_counter w q +
             sign ps * Z.of_nat (bearing_count (p_grad (heap w))
                                   (group_visits (heap w) g ge oe) q)).
  { intros q. apply (run_visits_counter _ _ _ _ _ _ _ _ _ _ q) in Erun. exact Erun. }
  split; [exact Hd|]. split; [|reflexivity].
  destruct ps as [[|]|].
  - destruct Hrest as (rm & Em & Er).
    apply (mt_call_spec (fun _ => True) (fun _ _ => True)) in Em; auto.
    + destruct Em as (_ & _ & Hk & _). intros q. rewrite Hk. apply Hc.
    + apply (run_visits_touches (fun _ => True) (fun _ _ => True)) in Erun; auto.
      * destruct Erun as (_ & _ & Hl). apply Hl. reflexivity.
      * repeat constructor. destruct ot; repeat constructor.
  - destruct Hrest as [_ ->]. exact Hc.
  - destruct Hrest as [_ ->]. exact Hc.
Qed.

Lemma step_group_forward_mono mt scale ot gi g ge oe gn loc (w : world) r w' q :
  step_group (Forward mt) scale ot gi g ge oe gn loc w = (r, w') ->
  step_counter w q <= step_counter w' q.
Proof.
  intros Hs. apply step_group_inv in Hs.
  destruct Hs as [[-> Hf]|(cs & r1 & w1 & Ecs & Erun & Hrest)]; [lia|].
  pose proof (run_visits_forward_mono _ _ _ _ _ _ _ _ _ _ q Erun) as Hm.
  change (step_counter w q <= step_counter w1 q) in Hm.
  destruct r1 as [loc1|e]; [|destruct Hrest as [_ ->]; exact Hm].
  destruct mt.
  - destruct Hrest as (rm & Em & Er).
    apply (mt_call_spec (fun _ => True) (fun _ _ => True)) in Em; auto.
    + destruct Em as (_ & _ & Hk & _). rewrite Hk. exact Hm.
    + apply (run_visits_touches (fun _ => True) (fun _ _ => True)) in Erun; auto.
      * destruct Erun as (_ & _ & Hl). apply Hl. reflexivity.
      * repeat constructor. destruct ot; repeat constructor.
  - destruct Hrest as [_ ->]. exact Hm.
Qed.

Lemma group_visits_gval (h h' : store) (g : group) ge oe :
  is_gval ge -> is_gval oe -> group_visits h' g ge oe = group_visits h g ge oe.
Proof.
  destruct ge as [v|?]; [|contradiction]. destruct oe as [u|?]; [|contradiction].
  intros _ _. unfold group_visits, entry_items_g, entry_items_o.
  destruct v, u; reflexivity.
Qed.

Lemma plan_groups_gval (h h' : store)
    (zs : list (group * gentry gradient * gentry oid * option num)) :
  Forall gval_entry zs -> plan_groups h' zs = plan_groups h zs.
Proof.
  induction 1 as [|z zs [Hg Ho] _ IH]; simpl; [reflexivity|].
  rewrite IH. f_equal. apply group_visits_gval; auto.
Qed.

Lemma until_sparse_app_l pg (V R : list visit) v :
  v ∈ until_sparse pg V -> v ∈ until_sparse pg (V ++ R).
Proof.
  induction V as [|u V IH]; simpl; [intros H; inversion H|].
  destruct (sparse_visit pg u); [intros H; inversion H|].
  rewrite !elem_of_cons. intros [->|H]; auto.
Qed.

Lemma until_sparse_app_r pg (V R : list visit) :
  Forall (fun v => sparse_visit pg v = false) V ->
  until_sparse pg (V ++ R) = V ++ until_sparse pg R.
Proof.
  induction 1 as [|u V Hu _ IH]; simpl; [reflexivity|]. rewrite Hu, IH. reflexivity.
Qed.

Lemma processed_app_l pg (V R : list visit) q :
  processed pg V q -> processed pg (V ++ R) q.
Proof.
  intros (v & Hv & Hq & Hb). exists v. split; auto using until_sparse_app_l.
Qed.

Lemma processed_app_r pg (V R : list visit) q :
  Forall (fun v => sparse_visit pg v = false) V ->
  processed pg R q -> processed pg (V ++ R) q.
Proof.
  intros Hd (v & Hv & Hq & Hb). exists v. rewrite until_sparse_app_r by exact Hd.
  split; auto. apply elem_of_app. auto.
Qed.

Lemma bearing_count_app pg (V R : list visit) q :
  bearing_count pg (V ++ R) q = (bearing_count pg V q + bearing_count pg R q)%nat.
Proof. induction V as [|v V IH]; simpl; [reflexivity|]. rewrite IH. lia. Qed.

Lemma group_loop_touches (S : pid -> Prop) (Q : nat -> hyper -> Prop) ps scale ot :
  forall gs ges oes gns gi loc (w : world) r w',
  group_loop ps scale ot gi gs ges oes gns loc w = (r, w') ->
  Forall gval_entry (tail (zip_groups gs ges oes gns)) ->
  (forall q, processed (p_grad (heap w))
               (concat (plan_groups (heap w) (zip_groups gs ges oes gns))) q -> S q) ->
  refs_in S (tensorlists loc) ->
  (forall i z cs h, zip_groups gs ges oes gns !! i = Some z ->
     combined_scale z.1.1.1 scale z.2 = Ok cs -> h_combined_scale h = cs ->
     Q (gi + i)%nat h) ->
  touches S Q w w'.
Proof.
  induction gs as [|g gs IH]; intros ges oes gns gi loc w r w'.
  { simpl. intros [= <- <-] _ _ _ _. apply touches_refl. }
  destruct ges as [|ge ges]; [simpl; intros [= <- <-] _ _ _ _; apply touches_refl|].
  destruct oes as [|oe oes]; [simpl; intros [= <- <-] _ _ _ _; apply touches_refl|].
  destruct gns as [|gn gns]; [simpl; intros [= <- <-] _ _ _ _; apply touches_refl|].
  simpl. unfold bind. intros Hl Hgv HS Hr HQ.
  destruct (step_group ps scale ot gi g ge oe gn loc w) as [[loc1|e] w1] eqn:Es.
  - pose proof (step_group_ok _ _ _ _ _ _ _ _ _ _ _ _ Es) as (Hd & _ & _).
    apply (step_group_touches S Q) in Es; auto.
    + destruct Es as [Ht Hrefs].
      eapply touches_trans; [exact Ht|].
      apply IH in Hl; auto.
      * destruct gs, ges, oes, gns; simpl in *; try constructor.
        inversion Hgv; subst; auto.
      * rewrite (t_p_grad _ _ _ _ Ht).
        rewrite (plan_groups_gval (heap w) (heap w1)) by exact Hgv.
        intros q Hq. apply HS. apply processed_app_r; auto.
      * intros i z cs h Hz Hc Hh.
        replace (Datatypes.S gi + i)%nat with (gi + Datatypes.S i)%nat by lia.
        eapply HQ; eauto.
    + intros q Hq. apply HS. apply processed_app_l. exact Hq.
    + intros cs h Hc Hh. replace gi with (gi + 0)%nat by lia.
      eapply (HQ 0%nat (g, ge, oe, gn)); eauto.
  - injection Hl as <- <-.
    apply (step_group_touches S Q) in Es; auto.
    + tauto.
    + intros q Hq. apply HS. apply processed_app_l. exact Hq.
    + intros cs h Hc Hh. replace gi with (gi + 0)%nat by lia.
      eapply (HQ 0%nat (g, ge, oe, gn)); eauto.
Qed.

Lemma group_loop_ok ps scale ot :
  forall gs ges oes gns gi loc (w : world) loc' w',
  group_loop ps scale ot gi gs ges oes gns loc w = (Ok loc', w') ->
  Forall gval_entry (tail (zip_groups gs ges oes gns)) ->
  Forall (fun v => sparse_visit (p_grad (heap w)) v = false)
    (concat (plan_groups (heap w) (zip_groups gs ges oes gns))) /\
  (forall q, step_counter w' q =
             step_counter w q +
             sign ps * Z.of_nat (bearing_count (p_grad (heap w))
               (concat (plan_groups (heap w) (zip_groups gs ges oes gns))) q)).
Proof.
  induction gs as [|g gs IH]; intros ges oes gns gi loc w loc' w'.
  { simpl. intros [= <- <-] _. split; [constructor|]. intros; lia. }
  destruct ges as [|ge ges];
    [simpl; intros [= <- <-] _; split; [constructor|intros; lia]|].
  destruct oes as [|oe oes];
    [simpl; intros [= <- <-] _; split; [constructor|intros; lia]|].
  destruct gns as [|gn gns];
    [simpl; intros [= <- <-] _; split; [constructor|intros; lia]|].
  simpl. unfold bind. intros Hl Hgv.
  destruct (step_group ps scale ot gi g ge oe gn loc w) as [[loc1|e] w1] eqn:Es;
    [|discriminate].
  pose proof (step_group_ok _ _ _ _ _ _ _ _ _ _ _ _ Es) as (Hd & Hc & _).
  apply (step_group_touches (fun _ => True) (fun _ _ => True)) in Es; auto.
  2:{ apply refs_in_True. }
  destruct Es as [Ht _].
  apply IH in Hl.
  2:{ destruct gs, ges, oes, gns; simpl in *; try constructor.
      inversion Hgv; subst; auto. }
  rewrite (t_p_grad _ _ _ _ Ht) in Hl.
  rewrite (plan_groups_gval (heap w) (heap w1)) in Hl by exact Hgv.
  destruct Hl as [Hd2 Hc2]. split.
  - apply Forall_app; auto.
  - intros q. rewrite Hc2, Hc, bearing_count_app. lia.
Qed.

Lemma group_loop_forward_mono mt scale ot :
  forall gs ges oes gns gi loc (w : world) r w' q,
  group_loop (Forward mt) scale ot gi gs ges oes gns loc w = (r, w') ->
  step_counter w q <= step_counter w' q.
Proof.
  induction gs as [|g gs IH]; intros ges oes gns gi loc w r w' q.
  { simpl. intros [= <- <-]. lia. }
  destruct ges as [|ge ges]; [simpl; intros [= <- <-]; lia|].
  destruct oes as [|oe oes]; [simpl; intros [= <- <-]; lia|].
  destruct gns as [|gn gns]; [simpl; intros [= <- <-]; lia|].
  simpl. unfold bind. intros Hl.
  destruct (step_group (Forward mt) scale ot gi g ge oe gn loc w) as [[loc1|e] w1] eqn:Es.
  - apply (step_group_forward_mono _ _ _ _ _ _ _ _ _ _ _ _ q) in Es.
    apply (IH _ _ _ _ _ _ _ _ q) in Hl. lia.
  - injection Hl as <- <-.
    apply (step_group_forward_mono _ _ _ _ _ _ _ _ _ _ _ _ q) in Es. lia.
Qed.

Lemma _step_inv (closure : option closure_t) grads outs scale gns undo (w : world) r w' :
  _step closure grads outs scale gns undo w = (r, w') ->
  let a := effective_args (self w) (mk_args grads outs scale gns) in
  let n := length (param_groups (self w)) in
  (is_ok r = false /\ w' = after_prologue closure undo w) \/
  exists ges oes rl,
    normalize n (a_grads a) = Ok ges /\
    normalize n (a_output_params a) = Ok oes /\
    group_loop (pass_of (self w) undo) (a_scale a) (truthy (a_output_params a)) 0
      (param_groups (self w)) ges oes (grad_norms_list n (a_grad_norms a))
      no_locals (after_prologue closure undo w) = (rl, w') /\
    (undo = true -> _allow_undo (self w) = true /\ _use_multi_tensor (self w) = false) /\
    match rl with
    | Raise e => r = Raise e
    | Ok _ => exists v, r = Ok v /\ (undo = true -> v = RNone) /\
                        (closure = None -> v = RNone) /\
                        (forall c, closure = Some c -> undo = false ->
                                   exists l, (c (heap w)).1 = Ok l /\ v = RLoss l)
    end.
Proof.
  unfold _step, prologue, after_prologue, closure_heap, prologue_events, pass_of,
    mk_args.
  unfold bind, log, modify, get, py_assert, ret, raise, lift, run_closure. simpl.
  intros Hs. destruct undo.
  - destruct (_allow_undo (self w)) eqn:Eu; simpl in Hs;
      [|left; injection Hs as <- <-; auto].
    destruct (_use_multi_tensor (self w)) eqn:Em; simpl in Hs;
      [left; injection Hs as <- <-; auto|].
    destruct (normalize _ (a_grads _)) as [ges|e]; simpl in Hs;
      [|left; injection Hs as <- <-; auto].
    destruct (normalize _ (a_output_params _)) as [oes|e]; simpl in Hs;
      [|left; injection Hs as <- <-; auto].
    right. exists ges, oes.
    match type of Hs with
    | match ?x with _ => _ end = _ => destruct x as [[loc'|e] w1] eqn:El
    end; injection Hs as <- <-; eexists; (split; [reflexivity|]);
      (split; [reflexivity|]); (split; [exact El|]); (split; [auto|]); simpl; auto.
    exists RNone. repeat split; auto. intros; discriminate.
  - destruct closure as [c|]; simpl in Hs.
    + destruct (c (heap w)) as [[l|e] h'] eqn:Ec; simpl in Hs;
        [|left; injection Hs as <- <-; auto].
      destruct (normalize _ (a_grads _)) as [ges|e]; simpl in Hs;
        [|left; injection Hs as <- <-; auto].
      destruct (normalize _ (a_output_params _)) as [oes|e]; simpl in Hs;
        [|left; injection Hs as <- <-; auto].
      right. exists ges, oes.
      match type of Hs with
      | match ?x with _ => _ end = _ => destruct x as [[loc'|e] w1] eqn:El
      end; injection Hs as <- <-; eexists; (split; [reflexivity|]);
        (split; [reflexivity|]); (split; [exact El|]);
        (split; [intros; discriminate|]); simpl; auto.
      exists (RLoss l). repeat split; try (intros; discriminate).
      intros c' [= <-] _. rewrite Ec. eauto.
    + destruct (normalize _ (a_grads _)) as [ges|e]; simpl in Hs;
        [|left; injection Hs as <- <-; auto].
      destruct (normalize _ (a_output_params _)) as [oes|e]; simpl in Hs;
        [|left; injection Hs as <- <-; auto].
      right. exists ges, oes.
      match type of Hs with
      | match ?x with _ => _ end = _ => destruct x as [[loc'|e] w1] eqn:El
      end; injection Hs as <- <-; eexists; (split; [reflexivity|]);
        (split; [reflexivity|]); (split; [exact El|]);
        (split; [intros; discriminate|]); simpl; auto.
      exists RNone. repeat split; auto. intros; discriminate.
Qed.

Lemma normalize_tail {A} n (a : pyarg A) ges :
  normalize n a = Ok ges -> Forall is_gval (tail ges).
Proof.
  destruct a as [|g|l]; simpl.
  - intros [= <-]. destruct n; simpl; [constructor|].
    apply List.Forall_forall. intros e He. apply repeat_spec in He. subst. exact I.
  - intros [= <-]. constructor.
  - destruct l as [|x l]; [discriminate|].
    destruct (is_list x); intros [= <-]; simpl; [|constructor].
    apply List.Forall_forall. intros e He. apply in_map_iff in He.
    destruct He as (v & <- & _). exact I.
Qed.

Lemma zip_groups_gval (gs : list group) ges oes (gns : list (option num)) :
  Forall is_gval ges -> Forall is_gval oes ->
  Forall gval_entry (zip_groups gs ges oes gns).
Proof.
  intros Hg. revert gs oes gns. induction Hg as [|ge ges Hge _ IH]; intros gs oes gns Ho.
  - destruct gs; constructor.
  - destruct gs as [|g gs]; [constructor|].
    destruct Ho as [|oe oes Hoe Ho]; [constructor|].
    destruct gns as [|gn gns]; [constructor|]. simpl.
    constructor; [split; assumption|]. apply IH. exact Ho.
Qed.

Lemma zip_groups_tail_gval (gs : list group) ges oes (gns : list (option num)) :
  Forall is_gval (tail ges) -> Forall is_gval (tail oes) ->
  Forall gval_entry (tail (zip_groups gs ges oes gns)).
Proof.
  destruct gs as [|g gs]; [constructor|].
  destruct ges as [|ge ges]; [constructor|].
  destruct oes as [|oe oes]; [constructor|].
  destruct gns as [|gn gns]; [constructor|]. simpl.
  apply zip_groups_gval.
Qed.

Lemma _step_touches (S : pid -> Prop) (Q : nat -> hyper -> Prop)
    (closure : option closure_t) grads outs scale gns undo (w : world) r w' :
  _step closure grads outs scale gns undo w = (r, w') ->
  let wp := after_prologue closure undo w in
  let a := mk_args grads outs scale gns in
  (forall q, processed (p_grad (heap wp)) (step_plan (self w) (heap wp) a) q -> S q) ->
  (forall i z cs h, step_zip (self w) a !! i = Some z ->
     combined_scale z.1.1.1 (a_scale (effective_args (self w) a)) z.2 = Ok cs ->
     h_combined_scale h = cs -> Q i h) ->
  touches S Q wp w'.
Proof.
  intros Hs wp a HS HQ. apply _step_inv in Hs.
  destruct Hs as [[_ ->]|(ges & oes & rl & Eg & Eo & El & _ & _)];
    [apply touches_refl|].
  unfold step_plan, step_zip in HS. unfold step_zip in HQ.
  fold a in Eg, Eo, El. rewrite Eg, Eo in HS, HQ.
  apply (group_loop_touches S Q) in El; auto.
  - apply zip_groups_tail_gval; eauto using normalize_tail.
  - repeat constructor.
Qed.

Lemma _step_ok (closure : option closure_t) grads outs scale gns undo (w : world) v w' :
  _step closure grads outs scale gns undo w = (Ok v, w') ->
  let wp := after_prologue closure undo w in
  let a := mk_args grads outs scale gns in
  Forall (fun u => sparse_visit (p_grad (heap wp)) u = false)
    (step_plan (self w) (heap wp) a) /\
  (forall q, step_counter w' q =
             step_counter w q +
             (if undo then -1 else 1) *
             Z.of_nat (bearing_count (p_grad (heap wp))
                         (step_plan (self w) (heap wp) a) q)) /\
  (undo = true -> _allow_undo (self w) = true /\ _use_multi_tensor (self w) = false).
Proof.
  intros Hs wp a. apply _step_inv in Hs.
  destruct Hs as [[? _]|(ges & oes & rl & Eg & Eo & El & Hu & Hr)]; [discriminate|].
  destruct rl as [loc'|e]; [|discriminate].
  unfold step_plan, step_zip. fold a in Eg, Eo, El. rewrite Eg, Eo.
  apply group_loop_ok in El.
  2:{ apply zip_groups_tail_gval; eauto using normalize_tail. }
  destruct El as [Hd Hc]. split; [exact Hd|]. split; [|exact Hu].
  intros q. rewrite Hc. unfold pass_of, sign. destruct undo; reflexivity.
Qed.

Lemma _step_forward_mono (closure : option closure_t) grads outs scale gns (w : world) r w' q :
  _step closure grads outs scale gns false w = (r, w') ->
  step_counter w q <= step_counter w' q.
Proof.
  intros Hs. apply _step_inv in Hs.
  destruct Hs as [[_ ->]|(ges & oes & rl & Eg & Eo & El & _ & _)].
  - unfold step_counter. simpl. lia.
  - apply (group_loop_forward_mono _ _ _ _ _ _ _ _ _ _ _ _ q) in El. exact El.
Qed.

(** ** Lemmas on passes and on [step] *)

Lemma kev_inside S Q (ev : event) : kev S Q ev -> inside_pass ev.
Proof. destruct ev; simpl; try tauto; intros _; split; intros; discriminate. Qed.

Lemma kev_untouched (S : pid -> Prop) Q (ev : event) q :
  ~ S q -> kev S Q ev -> ~ event_touches q ev.
Proof.
  intros Hq. destruct ev; simpl; try tauto.
  - intros [Hp _] <-. auto.
  - intros [Hp _] <-. auto.
  - intros [Hr _] (row & e & Hrow & He & Href). apply Hq.
    unfold refs_in in Hr. rewrite List.Forall_forall in Hr.
    apply list_elem_of_In in Hrow. specialize (Hr row Hrow).
    rewrite List.Forall_forall in Hr. apply list_elem_of_In in He.
    exact (Hr e He q Href).
Qed.

Lemma prologue_events_inside (closure : option closure_t) undo :
  Forall inside_pass (prologue_events closure undo).
Proof.
  unfold prologue_events. destruct undo; [constructor|].
  destruct closure; repeat constructor; intros; discriminate.
Qed.

Lemma prologue_events_untouched (closure : option closure_t) undo q :
  Forall (fun ev => ~ event_touches q ev) (prologue_events closure undo).
Proof.
  unfold prologue_events. destruct undo; [constructor|].
  destruct closure; repeat constructor; simpl; tauto.
Qed.

(** The events of a pass: the entry, what the prologue issues, then kernel
    calls only; the configuration of the instance is not changed. *)
Lemma _step_trace (closure : option closure_t) grads outs scale gns undo
    (w : world) r w' :
  _step closure grads outs scale gns undo w = (r, w') ->
  config (self w') = config (self w) /\
  exists evs, trace w' = evs ++ EvEnter undo :: trace w /\ Forall inside_pass evs.
Proof.
  intros Hs.
  apply (_step_touches (fun _ => True) (fun _ _ => True)) in Hs; auto.
  destruct Hs as [Hc _ _ (evs & Ht & Hk)]. split; [exact Hc|].
  exists (evs ++ prologue_events closure undo). split.
  - rewrite Ht. simpl. rewrite app_assoc. reflexivity.
  - apply Forall_app. split; [|apply prologue_events_inside].
    eapply List.Forall_impl; [|exact Hk]. intros ev. apply kev_inside.
Qed.

Lemma _step_p_grad (closure : option closure_t) grads outs scale gns undo
    (w : world) r w' :
  _step closure grads outs scale gns undo w = (r, w') ->
  p_grad (heap w') = p_grad (closure_heap closure undo (heap w)).
Proof.
  intros Hs.
  apply (_step_touches (fun _ => True) (fun _ _ => True)) in Hs; auto.
  destruct Hs as [_ Hg _ _]. exact Hg.
Qed.

Lemma until_sparse_subset pg (V : list visit) v :
  v ∈ until_sparse pg V -> v ∈ V.
Proof.
  induction V as [|u V IH]; simpl; [auto|].
  destruct (sparse_visit pg u); [intros H; inversion H|].
  rewrite !elem_of_cons. intros [->|H]; auto.
Qed.

(** What a pass leaves alone: a parameter that is not visited with a
    gradient before the first sparse gradient keeps its state, and no kernel
    call is issued on its tensors. *)
Lemma _step_frame (closure : option closure_t) grads outs scale gns undo
    (w : world) r w' q :
  let a := mk_args grads outs scale gns in
  let h := closure_heap closure undo (heap w) in
  _step closure grads outs scale gns undo w = (r, w') ->
  ~ processed (p_grad h) (step_plan (self w) h a) q ->
  state (self w') !! q = state (self w) !! q /\
  exists evs, trace w' = evs ++ trace w /\
              Forall (fun ev => ~ event_touches q ev) evs.
Proof.
  intros a h Hs Hq.
  apply (_step_touches (processed (p_grad h) (step_plan (self w) h a))
           (fun _ _ => True)) in Hs; auto.
  destruct Hs as [_ _ Hst (evs & Ht & Hk)]. split.
  - apply Hst. exact Hq.
  - exists (evs ++ prologue_events closure undo ++ [EvEnter undo]). split.
    + rewrite Ht. simpl. rewrite <- !app_assoc. reflexivity.
    + apply Forall_app. split.
      * eapply List.Forall_impl; [|exact Hk]. intros ev. apply kev_untouched. exact Hq.
      * apply Forall_app. split; [apply prologue_events_untouched|].
        repeat constructor. simpl. tauto.
Qed.

Lemma config_step_zip (o o' : optimizer) a :
  config o' = config o ->
  step_zip o' a = step_zip o a /\ effective_args o' a = effective_args o a.
Proof.
  unfold config. intros [= Hmt Hu Hadj Hem Hg Hst].
  unfold step_zip, effective_args. rewrite Hg, Hst, Hadj. auto.
Qed.

Lemma zip3_grad ps gs os (v : visit) : v ∈ zip3 ps gs os -> v.1.2 ∈ gs.
Proof.
  revert gs os. induction ps as [|p ps IH]; intros gs os; simpl.
  - intros H; inversion H.
  - destruct gs as [|g gs]; [intros H; inversion H|].
    destruct os as [|o os]; [intros H; inversion H|].
    rewrite !elem_of_cons. intros [->|H]; [left; reflexivity|right; eauto].
Qed.

Lemma plan_absent_entries (h : store) (gs : list group) ges oes
    (gns : list (option num)) (v : visit) :
  Forall (fun ge => ge = GVal VNone) ges ->
  v ∈ concat (plan_groups h (zip_groups gs ges oes gns)) -> v.1.2 = VNone.
Proof.
  intros Hg. revert gs oes gns.
  induction Hg as [|ge ges -> _ IH]; intros gs oes gns.
  - destruct gs; simpl; intros H; inversion H.
  - destruct gs as [|g gs]; [intros H; inversion H|].
    destruct oes as [|oe oes]; [intros H; inversion H|].
    destruct gns as [|gn gns]; [intros H; inversion H|].
    simpl. rewrite elem_of_app. intros [Hv|Hv]; [|eauto].
    apply zip3_grad in Hv. unfold entry_items_g in Hv. simpl in Hv.
    apply list_elem_of_In, repeat_spec in Hv. exact Hv.
Qed.

Lemma plan_absent (o : optimizer) (h : store) a (v : visit) :
  a_grads (effective_args o a) = ArgNone ->
  v ∈ step_plan o h a -> v.1.2 = VNone.
Proof.
  unfold step_plan, step_zip. intros ->. simpl.
  destruct (normalize _ _) as [oes|e]; [|intros H; inversion H].
  apply plan_absent_entries.
  apply List.Forall_forall. intros ge Hge. apply repeat_spec in Hge. exact Hge.
Qed.

Lemma absent_not_processed pg (V : list visit) q :
  pg !! q = None ->
  (forall v, v ∈ V -> v.1.1 = q -> v.1.2 = VNone) ->
  ~ processed pg V q.
Proof.
  intros Hpg Habs (v & Hv & Hq & Hb).
  apply until_sparse_subset in Hv. specialize (Habs v Hv Hq).
  unfold bearing in Hb. rewrite Habs, Hq, Hpg in Hb. discriminate.
Qed.

(** The two passes of [step]. *)
Lemma step_inv (closure : option closure_t) grads outs scale gns (w : world) r w' :
  step closure grads outs scale gns w = (r, w') ->
  let w0 := set_overflow 0 (add_event EvZero w) in
  exists r1 w1,
    _step closure grads outs scale gns false w0 = (r1, w1) /\
    ((w' = w1 /\ r = match r1 with Ok _ => Ok RNone | Raise e => Raise e end) \/
     (is_ok r1 = true /\ exists r2,
        _step closure grads outs scale gns true w1 = (r2, w') /\
        r = match r2 with Ok _ => Ok RNone | Raise e => Raise e end)).
Proof.
  unfold step, bind, log, modify, get, peek_overflow, ret. simpl.
  intros Hs.
  destruct (_step closure grads outs scale gns false _) as [r1 w1] eqn:E1.
  exists r1, w1. split; [reflexivity|].
  destruct r1 as [v1|e]; [|injection Hs as <- <-; left; auto].
  destruct (_allow_undo (self w1)); [|injection Hs as <- <-; left; auto].
  simpl in Hs.
  destruct (negb (_overflow_buf (self w1) =? 0));
    [|injection Hs as <- <-; left; auto].
  destruct (_step closure grads outs scale gns true w1) as [r2 w2] eqn:E2.
  right. split; [reflexivity|]. exists r2.
  destruct r2; injection Hs as <- <-; auto.
Qed.

Lemma untouched_zero (q : pid) :
  Forall (fun ev : event => ~ event_touches q ev) [EvZero].
Proof. repeat constructor. simpl. tauto. Qed.

(** What [step] leaves alone, from what its passes leave alone. *)
Lemma step_frame (closure : option closure_t) grads outs scale gns (w : world)
    r w' q :
  let a := mk_args grads outs scale gns in
  let h := closure_heap closure false (heap w) in
  step closure grads outs scale gns w = (r, w') ->
  ~ processed (p_grad h) (step_plan (self w) h a) q ->
  (forall w1 : world, config (self w1) = config (self w) ->
     p_grad (heap w1) = p_grad h ->
     ~ processed (p_grad (heap w1)) (step_plan (self w1) (heap w1) a) q) ->
  state (self w') !! q = state (self w) !! q /\
  exists evs, trace w' = evs ++ trace w /\
              Forall (fun ev => ~ event_touches q ev) evs.
Proof.
  intros a h Hs Hq Hq2. apply step_inv in Hs.
  destruct Hs as (r1 & w1 & E1 & Hrest).
  pose proof (_step_frame _ _ _ _ _ _ _ _ _ q E1 Hq) as (Hst1 & evs1 & Ht1 & Hu1).
  destruct Hrest as [[-> _]|(_ & r2 & E2 & _)].
  - split; [exact Hst1|]. exists (evs1 ++ [EvZero]). split.
    + rewrite Ht1. simpl. rewrite <- app_assoc. reflexivity.
    + apply Forall_app. split; [exact Hu1|apply untouched_zero].
  - pose proof (_step_trace _ _ _ _ _ _ _ _ _ E1) as (Hc1 & _).
    pose proof (_step_p_grad _ _ _ _ _ _ _ _ _ E1) as Hpg1.
    specialize (Hq2 w1 Hc1 Hpg1).
    pose proof (_step_frame _ _ _ _ _ _ _ _ _ q E2 Hq2) as (Hst2 & evs2 & Ht2 & Hu2).
    split; [rewrite Hst2; exact Hst1|].
    exists (evs2 ++ evs1 ++ [EvZero]). split.
    + rewrite Ht2, Ht1. simpl. rewrite <- !app_assoc. reflexivity.
    + apply Forall_app. split; [exact Hu2|].
      apply Forall_app. split; [exact Hu1|apply untouched_zero].
Qed.

Lemma last_bearing_none pg (V : list visit) :
  last_bearing pg None V = None -> Forall (fun v => bearing pg v = false) V.
Proof.
  induction V as [|v V IH]; [constructor|].
  change (last_bearing pg None (v :: V)) with
    (last_bearing pg (if bearing pg v then Some v.1.1 else None) V).
  rewrite last_bearing_init.
  destruct (last_bearing pg None V); [discriminate|].
  destruct (bearing pg v) eqn:Eb; [discriminate|]. auto.
Qed.

Lemma bearing_count_none pg (V : list visit) q :
  Forall (fun v => bearing pg v = false) V -> bearing_count pg V q = 0%nat.
Proof.
  induction 1 as [|v V Hv _ IH]; simpl; [reflexivity|].
  rewrite Hv, IH. destruct (decide (v.1.1 = q)); reflexivity.
Qed.

Lemma run_visits_all_skip ps gi g cs bc (V : list visit) loc (w : world) :
  Forall (fun v => bearing (p_grad (heap w)) v = false) V ->
  run_visits ps gi g cs bc V loc w = (Ok loc, w).
Proof.
  induction 1 as [|v V Hv _ IH]; simpl; [reflexivity|].
  unfold bind. destruct v as [[p gr] o]. rewrite param_body_skip by exact Hv.
  exact IH.
Qed.

Lemma zip_with_absent (h : store) (gs : list group) (n : nat) :
  (length gs <= n)%nat ->
  zip_with (fun g e => entry_items_g h (length (params g)) e) gs
    (repeat (GVal VNone) n)
  = map (fun g => repeat VNone (length (params g))) gs.
Proof.
  revert n. induction gs as [|g gs IH]; intros n Hn; simpl.
  - destruct n; reflexivity.
  - destruct n as [|n]; simpl in *; [lia|]. rewrite IH by lia. reflexivity.
Qed.

Lemma zip_with_nested (h : store) (gs : list group) (A : list (list (option gradient))) :
  length gs = length A ->
  zip_with (fun g e => entry_items_g h (length (params g)) e) gs
    (map GVal (map (fun l => VList (map opt_val l)) A))
  = map (map opt_val) A.
Proof.
  revert A. induction gs as [|g gs IH]; intros [|l A] Hlen; simpl in *;
    try discriminate; [reflexivity|].
  rewrite IH by lia. reflexivity.
Qed.

Lemma all_none_repeat (l : list (option gradient)) :
  Forall (fun x => x = None) l -> map opt_val l = repeat VNone (length l).
Proof. induction 1 as [|x l -> _ IH]; simpl; [reflexivity|]. rewrite IH. reflexivity. Qed.

Lemma normalize_gval {A} n (a : pyarg A) ges :
  is_generator a = false -> normalize n a = Ok ges -> Forall is_gval ges.
Proof.
  destruct a as [|g|l]; simpl; [|discriminate|]; intros _.
  - intros [= <-]. apply List.Forall_forall. intros e He.
    apply repeat_spec in He. subst. exact I.
  - destruct l as [|x l]; [discriminate|].
    destruct (is_list x); intros [= <-]; [|repeat constructor].
    apply List.Forall_forall. intros e [<-|He]; [exact I|].
    apply in_map_iff in He. destruct He as (v & <- & _). exact I.
Qed.

(** Without generators the structure a pass iterates over does not depend
    on the store. *)
Lemma step_plan_stable (o : optimizer) (h h' : store) a :
  is_generator (a_grads (effective_args o a)) = false ->
  is_generator (a_output_params (effective_args o a)) = false ->
  step_plan o h' a = step_plan o h a.
Proof.
  intros Hg Ho. unfold step_plan, step_zip.
  destruct (normalize _ (a_grads _)) as [ges|e] eqn:Eg; [|reflexivity].
  destruct (normalize _ (a_output_params _)) as [oes|e] eqn:Eo; [|reflexivity].
  f_equal. apply plan_groups_gval. apply zip_groups_gval.
  - eapply normalize_gval; eauto.
  - eapply normalize_gval; eauto.
Qed.

Lemma group_loop_zip ps scale ot : forall gs ges oes gns gi loc (w : world),
  group_loop ps scale ot gi gs ges oes gns loc w
  = run_groups ps scale ot gi (zip_groups gs ges oes gns) loc w.
Proof.
  induction gs as [|g gs IH]; intros ges oes gns gi loc w; [reflexivity|].
  destruct ges as [|ge ges]; [reflexivity|].
  destruct oes as [|oe oes]; [reflexivity|].
  destruct gns as [|gn gns]; [reflexivity|].
  simpl. unfold bind.
  destruct (step_group ps scale ot gi g ge oe gn loc w) as [[loc'|e] w1];
    [apply IH|reflexivity].
Qed.

Lemma zip_groups_absent (gs : list group) (n : nat) :
  (length gs <= n)%nat ->
  zip_groups (tensor := tensor) gs (repeat (GVal VNone) n) (repeat (GVal VNone) n)
    (repeat None n)
  = map (fun g => (g, GVal VNone, GVal VNone, None)) gs.
Proof.
  revert n. induction gs as [|g gs IH]; intros n Hn; [reflexivity|].
  destruct n as [|n]; simpl in *; [lia|]. rewrite IH by lia. reflexivity.
Qed.

(** With nothing supplied and no stash, a pass is paired with every group. *)
Lemma step_zip_default (o : optimizer) scale :
  _amp_stash o = None ->
  step_zip o (mk_args ArgNone ArgNone scale None)
  = map (fun g => (g, GVal VNone, GVal VNone, None)) (param_groups o).
Proof.
  intros Hs. unfold step_zip, effective_args. rewrite Hs. simpl.
  apply zip_groups_absent. lia.
Qed.

(** A pass that gets past its prologue and the normalisation of its inputs
    is the loop over the groups as they are paired with the inputs. *)
Lemma _step_groups (closure : option closure_t) grads outs scale gns undo
    (w : world) r w' :
  _step closure grads outs scale gns undo w = (r, w') ->
  let a := mk_args grads outs scale gns in
  (is_ok r = false /\ w' = after_prologue closure undo w) \/
  exists rl,
    run_groups (pass_of (self w) undo) (a_scale (effective_args (self w) a))
      (truthy (a_output_params (effective_args (self w) a))) 0
      (step_zip (self w) a) no_locals (after_prologue closure undo w)
    = (rl, w').
Proof.
  intros Hs a. apply _step_inv in Hs.
  destruct Hs as [Hl|(ges & oes & rl & Eg & Eo & El & _ & _)]; [left; exact Hl|].
  right. exists rl. rewrite group_loop_zip in El.
  unfold step_zip. fold a in Eg, Eo, El. rewrite Eg, Eo. exact El.
Qed.

(** ** Lemmas for the further properties *)

(** *** The stash *)

Lemma _step_stash (closure : option closure_t) grads outs scale gns
    grads' outs' scale' gns' undo (w : world) st :
  _amp_stash (self w) = Some st ->
  _step closure grads outs scale gns undo w
  = _step closure grads' outs' scale' gns' undo w.
Proof.
  intros Hst.
  unfold _step, prologue, bind, log, modify, get, py_assert, ret, raise, run_closure.
  simpl. destruct undo.
  - destruct (_allow_undo (self w)); simpl; [|reflexivity].
    destruct (_use_multi_tensor (self w)); simpl; [reflexivity|].
    unfold effective_args. simpl. rewrite Hst. reflexivity.
  - destruct closure as [c|]; simpl.
    + destruct (c (heap w)) as [[l|e] h']; simpl; [|reflexivity].
      unfold effective_args. simpl. rewrite Hst. reflexivity.
    + unfold effective_args. simpl. rewrite Hst. reflexivity.
Qed.

(** *** Invariants of a pass

    A relation between worlds that is reflexive and transitive, that the
    consumption of a generator item keeps, and that every iteration of a
    group and every batched call keep, is kept by the loop over the groups
    and so by a pass. *)
Section PassInvariant.

Variable ps : pass.
Variable J : world -> world -> Prop.
Variable G : nat -> group -> num -> Prop.

Hypothesis J_refl : forall w, J w w.
Hypothesis J_trans : forall w1 w2 w3, J w1 w2 -> J w2 w3 -> J w1 w3.
Hypothesis J_gen_grads : forall (w : world) m, J w (set_gen_grads m w).
Hypothesis J_gen_outs : forall (w : world) m, J w (set_gen_outs m w).
Hypothesis J_body : forall gi g cs p grad o loc (w : world) r w',
  G gi g cs -> p ∈ params g ->
  param_body ps gi g cs (bias_flag g) p grad o loc w = (r, w') -> J w w'.
Hypothesis J_mt : forall gi g cs loc (w : world) r w',
  G gi g cs -> ps = Forward true ->
  mt_call gi g cs (bias_flag g) loc w = (r, w') -> J w w'.

Lemma next_grad_J (it : iter gradient) (w : world) r w' :
  next_grad it w = (r, w') -> J w w'.
Proof.
  unfold next_grad. destruct it as [[|x l]|g]; try (intros [= <- <-]; apply J_refl).
  destruct (gen_grads (heap w) !! g) as [[|x l]|]; intros [= <- <-];
    auto using J_refl.
Qed.

Lemma next_out_J (it : iter oid) (w : world) r w' :
  next_out it w = (r, w') -> J w w'.
Proof.
  unfold next_out. destruct it as [[|x l]|g]; try (intros [= <- <-]; apply J_refl).
  destruct (gen_outs (heap w) !! g) as [[|x l]|]; intros [= <- <-];
    auto using J_refl.
Qed.

Lemma param_loop_J gi g cs : G gi g cs ->
  forall prms, (forall p, p ∈ prms -> p ∈ params g) ->
  forall git oit loc (w : world) r w',
  param_loop ps gi g cs (bias_flag g) prms git oit loc w = (r, w') -> J w w'.
Proof.
  intros HG. induction prms as [|p rest IH]; intros Hin git oit loc w r w'; simpl.
  - intros [= <- <-]. apply J_refl.
  - unfold bind at 1.
    destruct (next_grad git w) as [[[[grad git']|]|e] w1] eqn:Eg;
      apply next_grad_J in Eg; try (intros [= <- <-]; exact Eg).
    unfold bind at 1.
    destruct (next_out oit w1) as [[[[o oit']|]|e] w2] eqn:Eo;
      apply next_out_J in Eo; try (intros [= <- <-]; eauto).
    unfold bind.
    destruct (param_body ps gi g cs (bias_flag g) p grad o loc w2) as [[loc'|e] w3] eqn:Eb;
      apply J_body in Eb; auto; try (apply Hin; left).
    + intros Hl. apply IH in Hl; eauto. intros q Hq. apply Hin. right. exact Hq.
    + intros [= <- <-]. eauto.
Qed.

Lemma step_group_J scale ot gi g ge oe gn loc (w : world) r w' :
  (forall cs, combined_scale g scale gn = Ok cs -> G gi g cs) ->
  step_group ps scale ot gi g ge oe gn loc w = (r, w') -> J w w'.
Proof.
  intros HG. unfold step_group, bind, lift.
  destruct (combined_scale g scale gn) as [cs|e]; [|intros [= <- <-]; apply J_refl].
  destruct (make_iter (fill_none (length (params g)) ge)) as [git|e];
    [|intros [= <- <-]; apply J_refl].
  destruct (make_iter (fill_none (length (params g)) oe)) as [oit|e];
    [|intros [= <- <-]; apply J_refl].
  fold (bias_flag g).
  match goal with
  | |- context [param_loop ps gi g cs (bias_flag g) (params g) git oit ?l w] =>
      destruct (param_loop ps gi g cs (bias_flag g) (params g) git oit l w)
        as [[loc1|e] w1] eqn:El
  end; apply param_loop_J in El; auto; [|intros [= <- <-]; exact El].
  destruct ps as [[|]|]; try (intros [= <- <-]; exact El).
  destruct (mt_call gi g cs (bias_flag g) loc1 w1) as [[u|e] w2] eqn:Em;
    apply J_mt in Em; auto; intros [= <- <-]; eauto.
Qed.

Lemma run_groups_J scale ot : forall zs gi loc (w : world) r w',
  (forall i z cs, zs !! i = Some z ->
     combined_scale z.1.1.1 scale z.2 = Ok cs -> G (gi + i)%nat z.1.1.1 cs) ->
  run_groups ps scale ot gi zs loc w = (r, w') -> J w w'.
Proof.
  induction zs as [|z zs IH]; intros gi loc w r w' HG; simpl.
  - intros [= <- <-]. apply J_refl.
  - unfold bind.
    destruct (step_group ps scale ot gi z.1.1.1 z.1.1.2 z.1.2 z.2 loc w)
      as [[loc1|e] w1] eqn:Es; apply step_group_J in Es.
    + intros Hl. apply IH in Hl; eauto.
      intros i z' cs Hz Hc.
      replace (S gi + i)%nat with (gi + S i)%nat by lia. apply HG; auto.
    + intros cs Hc. replace gi with (gi + 0)%nat by lia. apply HG; auto.
    + intros [= <- <-]. exact Es.
    + intros cs Hc. replace gi with (gi + 0)%nat by lia. apply HG; auto.
Qed.

End PassInvariant.

Lemma _step_J (J : world -> world -> Prop) (G : nat -> group -> num -> Prop)
    (closure : option closure_t) grads outs scale gns undo (w : world) r w' :
  let a := mk_args grads outs scale gns in
  let ps := pass_of (self w) undo in
  (forall w, J w w) ->
  (forall w1 w2 w3, J w1 w2 -> J w2 w3 -> J w1 w3) ->
  (forall (w : world) m, J w (set_gen_grads m w)) ->
  (forall (w : world) m, J w (set_gen_outs m w)) ->
  (forall gi g cs p grad o loc (w : world) r w',
     G gi g cs -> p ∈ params g ->
     param_body ps gi g cs (bias_flag g) p grad o loc w = (r, w') -> J w w') ->
  (forall gi g cs loc (w : world) r w',
     G gi g cs -> ps = Forward true ->
     mt_call gi g cs (bias_flag g) loc w = (r, w') -> J w w') ->
  (forall i z cs, step_zip (self w) a !! i = Some z ->
     combined_scale z.1.1.1 (a_scale (effective_args (self w) a)) z.2 = Ok cs ->
     G i z.1.1.1 cs) ->
  _step closure grads outs scale gns undo w = (r, w') ->
  J (after_prologue closure undo w) w'.
Proof.
  intros a ps Hr Ht Hgg Hgo Hb Hm HG Hs.
  apply _step_groups in Hs. destruct Hs as [[_ ->]|(rl & Hl)]; [apply Hr|].
  eapply (run_groups_J ps J G); [..|exact Hl]; auto.
Qed.

(** *** The undo pass *)

Lemma _step_undo_keeps (closure : option closure_t) grads outs scale gns (w : world) r w' :
  _step closure grads outs scale gns true w = (r, w') ->
  keeps_register_and_outputs w w'.
Proof.
  intros Hs.
  apply (_step_J keeps_register_and_outputs (fun _ _ _ => True)) in Hs; auto.
  - intros u. split; reflexivity.
  - intros w1 w2 w3 [H1 H2] [H3 H4]. split; congruence.
  - intros u m. split; reflexivity.
  - intros u m. split; reflexivity.
  - intros gi g cs p grad o loc u r0 u' _ _. simpl. unfold param_body. mstep.
    all: intros [= <- <-]; split; reflexivity.
  - intros gi g cs loc u r0 u' _. simpl. discriminate.
Qed.

(** *** The kernel calls of an unbatched pass *)

Lemma call_of_mono ps zs scale em (lo hi lo' hi' : pid -> Z) ev :
  (forall q, lo' q <= lo q) -> (forall q, hi q <= hi' q) ->
  call_of ps zs scale em lo hi ev -> call_of ps zs scale em lo' hi' ev.
Proof.
  intros Hlo Hhi (gi & z & cs & p & stepv & Hz & Hc & Hp & He & Hb).
  exists gi, z, cs, p, stepv. repeat split; auto.
  - specialize (Hlo p). lia.
  - specialize (Hhi p). lia.
Qed.

Lemma issues_refl ps zs scale (w : world) : issues ps zs scale w w.
Proof.
  split; [reflexivity|]. split; [intros q; destruct ps; simpl; lia|].
  exists []. split; [reflexivity|constructor].
Qed.

Lemma issues_trans ps zs scale (w1 w2 w3 : world) :
  issues ps zs scale w1 w2 -> issues ps zs scale w2 w3 -> issues ps zs scale w1 w3.
Proof.
  intros (He1 & Hm1 & evs1 & Ht1 & Hf1) (He2 & Hm2 & evs2 & Ht2 & Hf2).
  split; [congruence|]. split.
  - intros q. specialize (Hm1 q). specialize (Hm2 q). destruct ps; simpl in *; lia.
  - exists (evs2 ++ evs1). split; [rewrite Ht2, Ht1, app_assoc; reflexivity|].
    apply Forall_app. split.
    + rewrite He1 in Hf2. eapply List.Forall_impl; [|exact Hf2].
      intros ev. apply call_of_mono; intros q; specialize (Hm1 q);
        destruct ps; simpl in *; lia.
    + eapply List.Forall_impl; [|exact Hf1].
      intros ev. apply call_of_mono; intros q; specialize (Hm2 q);
        destruct ps; simpl in *; lia.
Qed.

Lemma issues_same ps zs scale (w w' : world) :
  self w' = self w -> trace w' = trace w -> issues ps zs scale w w'.
Proof.
  intros Hs Ht. split; [rewrite Hs; reflexivity|]. split.
  - intros q. unfold lower, upper, step_counter. rewrite Hs. destruct ps; lia.
  - exists []. split; [exact Ht|constructor].
Qed.

Ltac one_call z p :=
  eexists [_]; split; [reflexivity|]; constructor; [|constructor];
  eexists _, z, _, p, _;
  repeat (split; [first [eassumption|reflexivity]|]).

Lemma param_body_issues ps zs scale gi g cs p grad o loc (w : world) r w' :
  ps <> Forward true ->
  (exists z, zs !! gi = Some z /\ z.1.1.1 = g /\ combined_scale g scale z.2 = Ok cs) ->
  p ∈ params g ->
  param_body ps gi g cs (bias_flag g) p grad o loc w = (r, w') ->
  issues ps zs scale w w'.
Proof.
  intros Hps (z & Hz & <- & Hc) Hp. unfold param_body.
  destruct ps as [[|]|]; [congruence| |].
  - mstep.
    all: intros [= <- <-]; try apply issues_refl.
    all: split; [reflexivity|]; split; [intros q; simpl; counters|]; simpl.
    all: try (exists []; split; [reflexivity|constructor]).
    all: one_call z p; simpl; counters.
  - mstep.
    all: intros [= <- <-]; try apply issues_refl.
    all: split; [reflexivity|]; split; [intros q; simpl; counters|]; simpl.
    all: try (exists []; split; [reflexivity|constructor]).
    all: one_call z p; simpl; counters.
Qed.

(** *** What a pass leaves as it is *)

Lemma _step_data (closure : option closure_t) grads outs scale gns undo
    (w : world) r w' q :
  let a := mk_args grads outs scale gns in
  let h := closure_heap closure undo (heap w) in
  _step closure grads outs scale gns undo w = (r, w') ->
  ~ processed (p_grad h) (step_plan (self w) h a) q ->
  p_data (heap w') q = p_data h q.
Proof.
  intros a h Hs Hq.
  apply (_step_touches (processed (p_grad h) (step_plan (self w) h a))
           (fun _ _ => True)) in Hs; auto.
  destruct Hs as [_ _ _ _ Hd]. apply Hd. exact Hq.
Qed.

(** *** Groups that the pairing of line 143 leaves out *)

Lemma zip3_pid ps gs os (v : visit) : v ∈ zip3 ps gs os -> v.1.1 ∈ ps.
Proof.
  revert gs os. induction ps as [|p ps IH]; intros gs os; simpl.
  - intros H; inversion H.
  - destruct gs as [|g gs]; [intros H; inversion H|].
    destruct os as [|o os]; [intros H; inversion H|].
    rewrite !elem_of_cons. intros [->|H]; [left; reflexivity|right; eauto].
Qed.

Lemma plan_groups_pid (h : store)
    (zs : list (group * gentry gradient * gentry oid * option num)) (v : visit) :
  v ∈ concat (plan_groups h zs) -> exists z, z ∈ zs /\ v.1.1 ∈ params z.1.1.1.
Proof.
  induction zs as [|z zs IH]; simpl; [intros H; inversion H|].
  rewrite elem_of_app. intros [Hv|Hv].
  - exists z. split; [left|]. apply zip3_pid in Hv. exact Hv.
  - destruct (IH Hv) as (z' & Hz & Hp). exists z'. split; [right; exact Hz|exact Hp].
Qed.

Lemma zip_groups_prefix (gs : list group) : forall ges oes (gns : list (option num)),
  map (fun z => z.1.1.1) (zip_groups (tensor := tensor) gs ges oes gns)
  = take (length (zip_groups (tensor := tensor) gs ges oes gns)) gs /\
  length (zip_groups (tensor := tensor) gs ges oes gns)
  = Nat.min (Nat.min (length gs) (length ges)) (Nat.min (length oes) (length gns)).
Proof.
  induction gs as [|g gs IH]; intros ges oes gns; [split; reflexivity|].
  destruct ges as [|ge ges]; [split; reflexivity|].
  destruct oes as [|oe oes]; [split; simpl; [reflexivity|lia]|].
  destruct gns as [|gn gns]; [split; simpl; [reflexivity|lia]|].
  simpl. destruct (IH ges oes gns) as [-> ->]. split; [reflexivity|lia].
Qed.

Lemma normalize_nonempty {A} n (a : pyarg A) ges :
  normalize (S n) a = Ok ges -> ges <> [].
Proof.
  destruct a as [|g|[|x l]]; simpl; try discriminate.
  - intros [= <-]. discriminate.
  - intros [= <-]. discriminate.
  - destruct (is_list x); intros [= <-]; discriminate.
Qed.

(** *** The state entries *)

Lemma keeps_entries_trans (w1 w2 w3 : world) :
  keeps_entries w1 w2 -> keeps_entries w2 w3 -> keeps_entries w1 w3.
Proof. unfold keeps_entries. auto. Qed.

Lemma write_back_entries e t (w : world) : keeps_entries w (write_back e t w).
Proof.
  intros q Hq. destruct e as [[p|p|p| |o] t0|]; simpl; auto.
  - destruct (state (self w) !! p) eqn:Es; auto. simpl.
    rewrite lookup_insert_is_Some. destruct (decide (p = q)); auto.
  - destruct (state (self w) !! p) eqn:Es; auto. simpl.
    rewrite lookup_insert_is_Some. destruct (decide (p = q)); auto.
Qed.

Lemma write_list_entries es : forall ts (w : world), keeps_entries w (write_list es ts w).
Proof.
  induction es as [|e es IH]; intros ts w; simpl; [intros q; auto|].
  destruct ts as [|t ts]; [intros q; auto|].
  eapply keeps_entries_trans; [apply write_back_entries|apply IH].
Qed.

Lemma write_lists_entries tls : forall tss (w : world),
  keeps_entries w (write_lists tls tss w).
Proof.
  induction tls as [|es tls IH]; intros tss w; simpl; [intros q; auto|].
  destruct tss as [|ts tss]; [intros q; auto|].
  eapply keeps_entries_trans; [apply write_list_entries|apply IH].
Qed.

Lemma mt_call_entries gi g cs bc loc (w : world) r w' :
  mt_call gi g cs bc loc w = (r, w') -> keeps_entries w w'.
Proof.
  unfold mt_call.
  destruct (loc_betas loc) as [b|]; [|intros [= <- <-] q; auto].
  destruct (loc_state loc) as [p0|]; [|intros [= <- <-] q; auto].
  unfold bind, get. destruct (state (self w) !! p0); [|intros [= <- <-] q; auto].
  unfold lift at 1. destruct (all_ok _ _); [|intros [= <- <-] q; auto].
  unfold log, modify, lift. simpl.
  destruct (adam_mt _ _ _) as [[z tss]|e]; intros [= <- <-]; [|intros q; auto].
  simpl. eapply keeps_entries_trans; [|apply write_lists_entries]. intros q; auto.
Qed.

Lemma is_Some_insert_keep (m : gmap pid pstate) p s q :
  is_Some (m !! q) -> is_Some (<[p := s]> m !! q).
Proof. rewrite lookup_insert_is_Some. destruct (decide (p = q)); auto. Qed.

Lemma param_body_entries ps gi g cs bc p grad o loc (w : world) r w' :
  param_body ps gi g cs bc p grad o loc w = (r, w') ->
  keeps_entries w w' /\
  (is_ok r = true -> bearing (p_grad (heap w)) (p, grad, o) = true ->
   is_Some (state (self w') !! p)).
Proof.
  unfold param_body, bearing, keeps_entries. mstep.
  all: intros [= <- <-]; simpl; split; try discriminate; auto.
  all: try (intros q Hq; repeat apply is_Some_insert_keep; auto; fail).
  all: intros _ _; rewrite lookup_insert_is_Some; auto.
Qed.

Lemma run_visits_entries ps gi g cs bc : forall (V : list visit) loc (w : world) r w',
  run_visits ps gi g cs bc V loc w = (r, w') ->
  keeps_entries w w' /\
  (is_ok r = true ->
   forall q, (0 < bearing_count (p_grad (heap w)) V q)%nat ->
             is_Some (state (self w') !! q)).
Proof.
  induction V as [|v V IH]; intros loc w r w'; simpl.
  - intros [= <- <-]. split; [intros q; auto|]. intros _ q Hq. lia.
  - unfold bind. intros Hrun.
    destruct (param_body ps gi g cs bc v.1.1 v.1.2 v.2 loc w) as [[loc1|e] w1] eqn:Eb.
    + apply param_body_p_grad in Eb as Hpg.
      apply param_body_entries in Eb. destruct Eb as [Hk Hc].
      apply IH in Hrun. destruct Hrun as [Hk2 Hc2].
      split; [eapply keeps_entries_trans; eauto|].
      intros Hr q Hq. rewrite Hpg in Hc2.
      destruct (bearing_count (p_grad (heap w)) V q) eqn:En.
      * apply Hk2. destruct v as [[p gr] o]. simpl in *.
        destruct (decide (p = q)); [|lia]. subst q.
        destruct (bearing (p_grad (heap w)) (p, gr, o)); [|lia]. auto.
      * apply Hc2; [exact Hr|]. rewrite En. lia.
    + injection Hrun as <- <-. apply param_body_entries in Eb.
      destruct Eb as [Hk _]. split; [exact Hk|discriminate].
Qed.

Lemma step_group_entries ps scale ot gi g ge oe gn loc (w : world) r w' :
  step_group ps scale ot gi g ge oe gn loc w = (r, w') ->
  keeps_entries w w' /\
  (is_ok r = true ->
   forall q, (0 < bearing_count (p_grad (heap w)) (group_visits (heap w) g ge oe) q)%nat ->
             is_Some (state (self w') !! q)).
Proof.
  intros Hs. apply step_group_inv in Hs.
  destruct Hs as [[-> Hf]|(cs & r1 & w1 & Ecs & Erun & Hrest)].
  { split; [intros q; auto|]. congruence. }
  apply run_visits_entries in Erun. destruct Erun as [Hk Hc].
  change (keeps_entries w w1) in Hk.
  destruct r1 as [loc1|e].
  - specialize (Hc eq_refl).
    change (forall q, (0 < bearing_count (p_grad (heap w))
                           (group_visits (heap w) g ge oe) q)%nat ->
                      is_Some (state (self w1) !! q)) in Hc.
    destruct ps as [[|]|].
    + destruct Hrest as (rm & Em & ->). apply mt_call_entries in Em.
      split; [eapply keeps_entries_trans; eauto|]. intros _ q Hq. apply Em, Hc, Hq.
    + destruct Hrest as [-> ->]. split; auto.
    + destruct Hrest as [-> ->]. split; auto.
  - destruct Hrest as [-> ->]. split; [exact Hk|discriminate].
Qed.

Lemma group_loop_entries ps scale ot :
  forall gs ges oes gns gi loc (w : world) r w',
  group_loop ps scale ot gi gs ges oes gns loc w = (r, w') ->
  Forall gval_entry (tail (zip_groups gs ges oes gns)) ->
  keeps_entries w w' /\
  (is_ok r = true ->
   forall q, (0 < bearing_count (p_grad (heap w))
                    (concat (plan_groups (heap w) (zip_groups gs ges oes gns))) q)%nat ->
             is_Some (state (self w') !! q)).
Proof.
  induction gs as [|g gs IH]; intros ges oes gns gi loc w r w'.
  { simpl. intros [= <- <-] _. split; [intros q; auto|]. intros _ q Hq. lia. }
  destruct ges as [|ge ges];
    [simpl; intros [= <- <-] _; split; [intros q; auto|intros _ q Hq; lia]|].
  destruct oes as [|oe oes];
    [simpl; intros [= <- <-] _; split; [intros q; auto|intros _ q Hq; lia]|].
  destruct gns as [|gn gns];
    [simpl; intros [= <- <-] _; split; [intros q; auto|intros _ q Hq; lia]|].
  simpl. unfold bind. intros Hl Hgv.
  destruct (step_group ps scale ot gi g ge oe gn loc w) as [[loc1|e] w1] eqn:Es.
  - apply step_group_entries in Es as He. destruct He as [Hk Hc].
    apply (step_group_touches (fun _ => True) (fun _ _ => True)) in Es; auto.
    2:{ apply refs_in_True. }
    destruct Es as [Ht _].
    apply IH in Hl.
    2:{ destruct gs, ges, oes, gns; simpl in *; try constructor.
        inversion Hgv; subst; auto. }
    rewrite (t_p_grad _ _ _ _ Ht) in Hl.
    rewrite (plan_groups_gval (heap w) (heap w1)) in Hl by exact Hgv.
    destruct Hl as [Hk2 Hc2]. split; [eapply keeps_entries_trans; eauto|].
    intros Hr q. rewrite bearing_count_app. intros Hq.
    destruct (bearing_count (p_grad (heap w)) (group_visits (heap w) g ge oe) q) eqn:En.
    + apply Hc2; [exact Hr|]. simpl in Hq. exact Hq.
    + apply Hk2, Hc; [reflexivity|]. rewrite En. lia.
  - injection Hl as <- <-. apply step_group_entries in Es. destruct Es as [Hk _].
    split; [exact Hk|discriminate].
Qed.

Lemma bearing_count_processed pg (V : list visit) q :
  processed pg V q -> (0 < bearing_count pg V q)%nat.
Proof.
  intros (v & Hv & <- & Hb). apply until_sparse_subset in Hv.
  induction V as [|u V IH]; [inversion Hv|].
  apply elem_of_cons in Hv. simpl. destruct Hv as [<-|Hv].
  - rewrite decide_True by reflexivity. rewrite Hb. lia.
  - specialize (IH Hv). lia.
Qed.

Lemma _step_entries (closure : option closure_t) grads outs scale gns undo
    (w : world) r w' :
  let a := mk_args grads outs scale gns in
  let h := closure_heap closure undo (heap w) in
  _step closure grads outs scale gns undo w = (r, w') ->
  keeps_entries w w' /\
  (is_ok r = true ->
   forall q, is_Some (state (self w') !! q) <->
             is_Some (state (self w) !! q) \/
             (0 < bearing_count (p_grad h) (step_plan (self w) h a) q)%nat).
Proof.
  intros a h Hs. apply _step_inv in Hs as Hinv.
  destruct Hinv as [[Hf ->]|(ges & oes & rl & Eg & Eo & El & _ & Hr)].
  { split; [intros q; auto|]. congruence. }
  apply group_loop_entries in El.
  2:{ apply zip_groups_tail_gval; eauto using normalize_tail. }
  destruct El as [Hk Hc]. change (keeps_entries w w') in Hk.
  split; [exact Hk|]. intros Hok q.
  assert (Hrl : is_ok rl = true).
  { destruct rl; [reflexivity|]. subst r. discriminate. }
  specialize (Hc Hrl q). simpl in Hc.
  unfold step_plan, step_zip. fold a in Eg, Eo. rewrite Eg, Eo.
  fold a. fold h. split.
  - intros Hq.
    destruct (bearing_count (p_grad h)
                (concat (plan_groups h (zip_groups (param_groups (self w)) ges oes
                   (grad_norms_list (length (param_groups (self w)))
                      (a_grad_norms (effective_args (self w) a)))))) q) eqn:En;
      [|right; lia].
    left.
    assert (Hnp : ~ processed (p_grad h) (step_plan (self w) h a) q).
    { intros Hp. apply bearing_count_processed in Hp.
      unfold step_plan, step_zip in Hp. rewrite Eg, Eo in Hp. lia. }
    pose proof (_step_frame _ _ _ _ _ _ _ _ _ q Hs Hnp) as (Hst & _).
    rewrite <- Hst. exact Hq.
  - intros [Hq|Hq]; [apply Hk, Hq|apply Hc, Hq].
Qed.

(** *** Attached gradients *)

Lemma param_body_attached ps gi g cs bc p o loc (w : world) :
  param_body ps gi g cs bc p (opt_val (p_grad (heap w) !! p)) o loc w
  = param_body ps gi g cs bc p VNone o loc w.
Proof.
  unfold param_body, bind, get. simpl.
  destruct (p_grad (heap w) !! p); reflexivity.
Qed.

Lemma next_out_p_grad (it : iter oid) (w : world) r w' :
  next_out it w = (r, w') -> p_grad (heap w') = p_grad (heap w).
Proof.
  unfold next_out. destruct it as [[|x l]|g]; try (intros [= <- <-]; reflexivity).
  destruct (gen_outs (heap w) !! g) as [[|x l]|]; intros [= <- <-]; reflexivity.
Qed.

Lemma param_loop_attached ps gi g cs bc pg : forall prms oit loc (w : world),
  p_grad (heap w) = pg ->
  param_loop ps gi g cs bc prms (ItList (map (fun p => opt_val (pg !! p)) prms)) oit loc w
  = param_loop ps gi g cs bc prms (ItList (repeat VNone (length prms))) oit loc w.
Proof.
  induction prms as [|p rest IH]; intros oit loc w Hpg; [reflexivity|].
  simpl. unfold bind. simpl.
  destruct (next_out oit w) as [[[[o oit']|]|e] w2] eqn:Eo; try reflexivity.
  apply next_out_p_grad in Eo. subst pg.
  replace (opt_val (p_grad (heap w) !! p)) with (opt_val (p_grad (heap w2) !! p))
    by (rewrite Eo; reflexivity).
  rewrite param_body_attached.
  destruct (param_body ps gi g cs bc p VNone o loc w2) as [[loc'|e] w3] eqn:Eb;
    [|reflexivity].
  apply param_body_p_grad in Eb. apply IH. congruence.
Qed.

Lemma step_group_attached ps scale ot gi (g : group) oe gn loc (w : world) :
  step_group ps scale ot gi g
    (GVal (VList (map (fun p => opt_val (p_grad (heap w) !! p)) (params g)))) oe gn loc w
  = step_group ps scale ot gi g (GVal VNone) oe gn loc w.
Proof.
  unfold step_group, bind, lift. simpl.
  destruct (combined_scale g scale gn) as [cs|e]; [|reflexivity].
  destruct (make_iter (fill_none (length (params g)) oe)) as [oit|e]; [|reflexivity].
  rewrite param_loop_attached by reflexivity. reflexivity.
Qed.

Lemma group_loop_attached ps scale ot pg : forall (gs : list group) k oes gns gi loc
    (w : world),
  p_grad (heap w) = pg ->
  (length gs <= k)%nat ->
  group_loop ps scale ot gi gs
    (map GVal (map (fun g : group =>
                      VList (map (fun p => opt_val (pg !! p)) (params g))) gs))
    oes gns loc w
  = group_loop ps scale ot gi gs (repeat (GVal VNone) k) oes gns loc w.
Proof.
  induction gs as [|g gs IH]; intros k oes gns gi loc w Hpg Hk; [reflexivity|].
  destruct k as [|k]; [simpl in Hk; lia|].
  destruct oes as [|oe oes]; [reflexivity|].
  destruct gns as [|gn gns]; [reflexivity|].
  simpl. unfold bind. rewrite <- Hpg, step_group_attached.
  destruct (step_group ps scale ot gi g (GVal VNone) oe gn loc w) as [[loc'|e] w1] eqn:Es;
    [|reflexivity].
  apply (step_group_touches (fun _ => True) (fun _ _ => True)) in Es;
    auto using refs_in_True.
  destruct Es as [Ht _]. rewrite Hpg.
  apply IH; [|simpl in Hk; lia]. rewrite (t_p_grad _ _ _ _ Ht). exact Hpg.
Qed.

(** [_step], unfolded: the prologue, the normalisation of both arguments,
    the loop over the groups. *)

Lemma _step_eq (closure : option closure_t) grads outs scale gns undo (w : world) :
  _step closure grads outs scale gns undo w =
  match prologue closure undo (add_event (EvEnter undo) w) with
  | (Raise e, wp) => (Raise e, wp)
  | (Ok pl, wp) =>
      let a := effective_args (self wp) (mk_args grads outs scale gns) in
      let n := length (param_groups (self wp)) in
      match normalize n (a_grads a) with
      | Raise e => (Raise e, wp)
      | Ok ges =>
          match normalize n (a_output_params a) with
          | Raise e => (Raise e, wp)
          | Ok oes =>
              match group_loop (fst pl) (a_scale a) (truthy (a_output_params a)) 0
                      (param_groups (self wp)) ges oes
                      (grad_norms_list n (a_grad_norms a)) no_locals wp with
              | (Ok _, w') => (Ok (snd pl), w')
              | (Raise e, w') => (Raise e, w')
              end
          end
      end
  end.
Proof.
  unfold _step, bind, log, modify, get, lift, ret. simpl.
  destruct (prologue closure undo (add_event (EvEnter undo) w)) as [[pl|e] wp];
    [|reflexivity].
  simpl. unfold mk_args.
  destruct (normalize _ (a_grads _)); [|reflexivity].
  destruct (normalize _ (a_output_params _)); reflexivity.
Qed.

Lemma prologue_ok (closure : option closure_t) undo (w : world) pl wp :
  prologue closure undo (add_event (EvEnter undo) w) = (Ok pl, wp) ->
  wp = after_prologue closure undo w /\ fst pl = pass_of (self w) undo.
Proof.
  unfold prologue, after_prologue, closure_heap, prologue_events, pass_of,
    bind, get, py_assert, ret, raise, log, modify, run_closure. simpl.
  destruct undo.
  - destruct (_allow_undo (self w)); simpl; [|discriminate].
    destruct (_use_multi_tensor (self w)); simpl; [discriminate|].
    intros [= <- <-]. split; reflexivity.
  - destruct closure as [c|]; simpl.
    + destruct (c (heap w)) as [[l|e] h']; simpl; [|discriminate].
      intros [= <- <-]. split; reflexivity.
    + intros [= <- <-]. split; reflexivity.
Qed.

Lemma _step_attached (closure : option closure_t) outs scale gns undo (w : world) :
  _amp_stash (self w) = None ->
  param_groups (self w) <> [] ->
  _step closure
    (attached_grads (closure_heap closure undo (heap w)) (param_groups (self w)))
    outs scale gns undo w
  = _step closure ArgNone outs scale gns undo w.
Proof.
  intros Hst Hgs. rewrite !_step_eq.
  destruct (prologue closure undo (add_event (EvEnter undo) w)) as [[pl|e] wp] eqn:Ep;
    [|reflexivity].
  apply prologue_ok in Ep. destruct Ep as [-> Hpl].
  cbv zeta. unfold effective_args, mk_args. simpl. rewrite Hst. simpl.
  destruct (param_groups (self w)) as [|g gs] eqn:Eg; [congruence|].
  unfold attached_grads. cbn [normalize map is_list].
  destruct (normalize (length (g :: gs)) outs) as [oes|e]; [|reflexivity].
  change (GVal (VList (map (fun p => opt_val
            (p_grad (closure_heap closure undo (heap w)) !! p)) (params g)))
          :: map GVal (map (fun g0 : group => VList (map (fun p => opt_val
            (p_grad (closure_heap closure undo (heap w)) !! p)) (params g0))) gs))
    with (map GVal (map (fun g0 : group => VList (map (fun p => opt_val
            (p_grad (closure_heap closure undo (heap w)) !! p)) (params g0))) (g :: gs))).
  rewrite (group_loop_attached _ _ _ (p_grad (closure_heap closure undo (heap w)))
             (g :: gs) (length (g :: gs))); [reflexivity|reflexivity|lia].
Qed.

(** *** Gradients supplied by a generator *)

Lemma param_loop_gen ps gi g cs bc gid : forall prms k its loc (w : world) loc' w',
  (length prms <= k)%nat ->
  gen_grads (heap w) !! gid = Some its ->
  param_loop ps gi g cs bc prms (ItGen gid) (ItList (repeat VNone k)) loc w
  = (Ok loc', w') ->
  gen_grads (heap w') !! gid = Some (drop (length prms) its).
Proof.
  induction prms as [|p rest IH]; intros k its loc w loc' w' Hk Hgen; simpl.
  - intros [= <- <-]. exact Hgen.
  - unfold bind at 1. unfold next_grad. rewrite Hgen.
    destruct its as [|x l]; [intros [= <- <-]; exact Hgen|].
    destruct k as [|k]; [simpl in Hk; lia|]. simpl. unfold bind, next_out. simpl.
    match goal with
    | |- context [param_body ps gi g cs bc p x VNone loc ?u] =>
        destruct (param_body ps gi g cs bc p x VNone loc u) as [[loc1|e] w3] eqn:Eb
    end; [|discriminate].
    apply param_body_gens in Eb. destruct Eb as [Eg _]. simpl in Eg.
    intros Hl. eapply (IH k l); [simpl in Hk; lia| |exact Hl].
    rewrite Eg. apply lookup_insert_eq.
Qed.

Lemma param_loop_exhausted ps gi g cs bc gid prms oit loc (w : world) :
  gen_grads (heap w) !! gid = Some [] ->
  param_loop ps gi g cs bc prms (ItGen gid) oit loc w = (Ok loc, w).
Proof.
  intros Hgen. destruct prms as [|p rest]; [reflexivity|].
  simpl. unfold bind, next_grad. rewrite Hgen. reflexivity.
Qed.

Lemma step_group_gen ps scale ot gi (g : group) gid gn loc (w : world) loc' w' its :
  gen_grads (heap w) !! gid = Some its ->
  step_group ps scale ot gi g (GGen gid) (GVal VNone) gn loc w = (Ok loc', w') ->
  gen_grads (heap w') !! gid = Some (drop (length (params g)) its).
Proof.
  intros Hgen. unfold step_group, bind, lift. simpl.
  destruct (combined_scale g scale gn) as [cs|e]; [|discriminate].
  match goal with
  | |- context [param_loop ps gi g cs ?bc (params g) (ItGen gid) ?oit ?l w] =>
      destruct (param_loop ps gi g cs bc (params g) (ItGen gid) oit l w)
        as [[loc1|e] w1] eqn:El
  end; [|discriminate].
  apply (param_loop_gen _ _ _ _ _ _ _ _ its) in El; [|lia|exact Hgen].
  destruct ps as [[|]|]; try (intros [= <- <-]; exact El).
  destruct (mt_call gi g cs _ loc1 w1) as [[u|e] w2] eqn:Em; [|discriminate].
  apply (mt_call_spec (fun _ => True) (fun _ _ => True)) in Em;
    auto using refs_in_True.
  destruct Em as (_ & [Hg _] & _). intros [= <- <-]. rewrite Hg. exact El.
Qed.

Lemma step_group_exhausted scale ot gi (g : group) gid oe gn loc (w : world) r w' :
  gen_grads (heap w) !! gid = Some [] ->
  step_group Undo scale ot gi g (GGen gid) oe gn loc w = (r, w') -> w' = w.
Proof.
  intros Hgen. unfold step_group, bind, lift. simpl.
  destruct (combined_scale g scale gn) as [cs|e]; [|intros [= <- <-]; reflexivity].
  destruct (make_iter (fill_none (length (params g)) oe)) as [oit|e];
    [|intros [= <- <-]; reflexivity].
  rewrite param_loop_exhausted by exact Hgen. intros [= <- <-]. reflexivity.
Qed.

Lemma zip_groups_nil_grads (gs : list group) oes (gns : list (option num)) :
  zip_groups (tensor := tensor) gs [] oes gns = [].
Proof. destruct gs; reflexivity. Qed.

Lemma step_zip_generator (o : optimizer) gid scale gns g0 gs :
  _amp_stash o = None -> param_groups o = g0 :: gs ->
  step_zip o (mk_args (ArgGenerator gid) ArgNone scale gns)
  = match grad_norms_list (S (length gs)) gns with
    | [] => []
    | gn :: _ => [(g0, GGen gid, GVal VNone, gn)]
    end.
Proof.
  intros Hst Hg. unfold step_zip, effective_args. rewrite Hst. simpl. rewrite Hg.
  simpl. destruct (grad_norms_list (S (length gs)) gns); [reflexivity|].
  destruct gs; reflexivity.
Qed.

(** *** The tensor lists of a batched call *)

Lemma cols_agree_refl (w : world) : cols_agree w w.
Proof. intros v. repeat split. Qed.

Lemma cols_agree_trans (w0 w1 w2 : world) :
  cols_agree w0 w1 -> cols_agree w1 w2 -> cols_agree w0 w2.
Proof.
  intros H1 H2 v. destruct (H1 v) as (a1 & b1 & c1 & d1 & e1).
  destruct (H2 v) as (a2 & b2 & c2 & d2 & e2). repeat split; congruence.
Qed.

Lemma param_body_batch gi g cs bc (v : visit) loc (w : world) loc' w' :
  param_body (Forward true) gi g cs bc v.1.1 v.1.2 v.2 loc w = (Ok loc', w') ->
  cols_agree w w' /\
  if bearing (p_grad (heap w)) v
  then exists e, col_grad w v = Some e /\
         tensorlists loc'
         = zip_append (tensorlists loc)
             ([col_data w v; col_avg w v; col_sq w v; e]
              ++ match col_out w v with Some o => [o] | None => [] end)
  else loc' = loc.
Proof.
  destruct v as [[p grad] o]. unfold bearing, param_body. simpl.
  unfold col_grad, visit_grad, col_out, col_data, col_avg, col_sq, entry_of. simpl.
  mstep.
  all: intros [= <- <-]; try discriminate.
  all: split; [try apply cols_agree_refl|simpl; try reflexivity].
  all: try (eexists; split; [reflexivity|]; try reflexivity).
  all: try (intros [[q gq] oq]; unfold col_data, col_avg, col_sq, col_grad, col_out,
              entry_of; simpl; repeat split;
            destruct (decide (p = q)) as [->|Hne];
            rewrite ?lookup_insert_eq, ?lookup_insert_ne by congruence;
            try reflexivity;
            repeat match goal with H : _ !! _ = _ |- _ => rewrite H end;
            reflexivity).
  all: unfold effective_grad in *; simpl in *; congruence.
Qed.

Lemma batch_snoc ot (w0 : world) L v e :
  col_grad w0 v = Some e ->
  zip_append (batch ot w0 L)
    ([col_data w0 v; col_avg w0 v; col_sq w0 v; e]
     ++ match col_out w0 v with Some o => [o] | None => [] end)
  = batch ot w0 (L ++ [v]).
Proof.
  intros He. unfold batch. rewrite !map_app, !omap_app. simpl. rewrite He.
  destruct ot, (col_out w0 v); simpl; rewrite ?app_nil_r; reflexivity.
Qed.

Lemma run_visits_batch ot gi g cs bc (w0 : world) :
  forall (V L : list visit) loc (w : world) loc' w',
  cols_agree w0 w -> p_grad (heap w) = p_grad (heap w0) ->
  tensorlists loc = batch ot w0 L ->
  run_visits (Forward true) gi g cs bc V loc w = (Ok loc', w') ->
  tensorlists loc' = batch ot w0 (L ++ List.filter (bearing (p_grad (heap w0))) V) /\
  Forall (fun v => is_Some (visit_grad (p_grad (heap w0)) v))
    (List.filter (bearing (p_grad (heap w0))) V).
Proof.
  induction V as [|v V IH]; intros L loc w loc' w' Hc Hpg Hl; simpl.
  - intros [= <- <-]. rewrite app_nil_r. split; [exact Hl|constructor].
  - unfold bind.
    destruct (param_body (Forward true) gi g cs bc v.1.1 v.1.2 v.2 loc w)
      as [[loc1|e] w1] eqn:Eb; [|discriminate].
    apply param_body_p_grad in Eb as Hpg1.
    apply param_body_batch in Eb. destruct Eb as [Hc1 Hb].
    rewrite Hpg in Hb. intros Hrun.
    destruct (bearing (p_grad (heap w0)) v) eqn:Ebear.
    + destruct Hb as (e & He & Ht).
      destruct (Hc v) as (Ha & Hb2 & Hc2 & Hd & Ho).
      rewrite Ha, Hb2, Hc2, Ho, Hl in Ht. rewrite Hd in He.
      rewrite (batch_snoc ot w0 L v e He) in Ht.
      apply (IH (L ++ [v])) in Hrun; [|eapply cols_agree_trans; eauto|congruence|exact Ht].
      destruct Hrun as [Hr Hf]. rewrite <- app_assoc in Hr. split; [exact Hr|].
      constructor; [|exact Hf]. unfold col_grad in He.
      destruct (visit_grad (p_grad (heap w0)) v); [eauto|discriminate].
    + subst loc1.
      apply (IH L) in Hrun; [exact Hrun|eapply cols_agree_trans; eauto|congruence|exact Hl].
Qed.

Lemma cons_not_self {A} (x : A) (l : list A) : l <> x :: l.
Proof. intros H. apply (f_equal length) in H. simpl in H. lia. Qed.

(** *** A call without gradients *)

Lemma param_loop_absent ps gi g cs bc : forall prms n m loc (w : world),
  (forall p, p ∈ prms -> p_grad (heap w) !! p = None) ->
  param_loop ps gi g cs bc prms (ItList (repeat VNone n)) (ItList (repeat VNone m)) loc w
  = (Ok loc, w).
Proof.
  induction prms as [|p rest IH]; intros n m loc w Hp; [reflexivity|].
  destruct n as [|n]; [reflexivity|]. destruct m as [|m]; [reflexivity|].
  simpl. unfold bind, next_grad, next_out. simpl.
  rewrite param_body_skip.
  - apply IH. intros q Hq. apply Hp. right. exact Hq.
  - unfold bearing. simpl. rewrite Hp; [reflexivity|left].
Qed.

Lemma step_group_absent ps scale ot gi (g : group) gn loc (w : world) :
  num_gt (max_grad_norm g) (num_of_int 0) = false ->
  (forall p, p ∈ params g -> p_grad (heap w) !! p = None) ->
  step_group ps scale ot gi g (GVal VNone) (GVal VNone) gn loc w
  = match ps with
    | Forward true =>
        match loc_betas loc with
        | None => (Raise (UnboundLocalError "beta1"), w)
        | Some _ =>
            match mt_call gi g scale (bias_flag g) (group_locals ps ot loc) w with
            | (Ok _, w') => (Ok (group_locals ps ot loc), w')
            | (Raise e, w') => (Raise e, w')
            end
        end
    | _ => (Ok loc, w)
    end.
Proof.
  intros Hm Hp. unfold step_group, bind, lift, combined_scale. rewrite Hm. simpl.
  rewrite param_loop_absent by exact Hp.
  destruct ps as [[|]|]; try reflexivity.
  unfold ret, group_locals, bias_flag, mt_call. simpl.
  destruct (loc_betas loc); reflexivity.
Qed.

Lemma group_loop_absent ps scale ot : forall (gs : list group) k1 k2 gnl gi loc (w : world),
  ps <> Forward true ->
  Forall (fun g : group => num_gt (max_grad_norm g) (num_of_int 0) = false) gs ->
  (forall g p, g ∈ gs -> p ∈ params g -> p_grad (heap w) !! p = None) ->
  group_loop ps scale ot gi gs (repeat (GVal VNone) k1) (repeat (GVal VNone) k2) gnl loc w
  = (Ok loc, w).
Proof.
  induction gs as [|g gs IH]; intros k1 k2 gnl gi loc w Hps Hm Hp; [reflexivity|].
  destruct k1 as [|k1]; [reflexivity|]. destruct k2 as [|k2]; [reflexivity|].
  destruct gnl as [|gn gnl]; [reflexivity|].
  inversion Hm; subst. simpl. unfold bind.
  rewrite step_group_absent; auto.
  2:{ intros p Hq. apply (Hp g); [left|exact Hq]. }
  destruct ps as [[|]|]; [congruence| |].
  - apply IH; auto. intros g' p Hg'. apply Hp. right. exact Hg'.
  - apply IH; auto. intros g' p Hg'. apply Hp. right. exact Hg'.
Qed.

Lemma prologue_forward (closure : option closure_t) (w : world) :
  (forall c, closure = Some c -> is_ok (c (heap w)).1 = true) ->
  exists rv,
    prologue closure false (add_event (EvEnter false) w)
    = (Ok (Forward (_use_multi_tensor (self w)), rv), after_prologue closure false w).
Proof.
  intros Hc.
  unfold prologue, after_prologue, closure_heap, prologue_events,
    bind, get, ret, log, modify, run_closure. simpl.
  destruct closure as [c|]; [|eexists; reflexivity]. simpl.
  specialize (Hc c eq_refl). destruct (c (heap w)) as [[l|e] h']; [|discriminate].
  eexists. reflexivity.
Qed.

(** *** Empty lists as arguments *)

Lemma _step_empty (closure : option closure_t) grads outs scale gns undo (w : world) :
  let a := effective_args (self w) (mk_args grads outs scale gns) in
  a_grads a = ArgList [] \/ a_output_params a = ArgList [] ->
  (forall r w',
     _step closure grads outs scale gns undo w = (r, w') ->
     is_ok r = false /\ w' = after_prologue closure undo w) /\
  (forall pl wp,
     prologue closure undo (add_event (EvEnter undo) w) = (Ok pl, wp) ->
     _step closure grads outs scale gns undo w
     = (Raise IndexError, after_prologue closure undo w)).
Proof.
  intros a Hempty. split.
  - intros r w' Hs. apply _step_inv in Hs.
    destruct Hs as [Hl|(ges & oes & rl & Eg & Eo & _)]; [exact Hl|].
    fold a in Eg, Eo. destruct Hempty as [H|H]; rewrite H in *; discriminate.
  - intros pl wp Hpro. rewrite _step_eq, Hpro.
    apply prologue_ok in Hpro. destruct Hpro as [-> _]. cbv zeta.
    change (effective_args (self (after_prologue closure undo w))
              (mk_args grads outs scale gns)) with a.
    destruct Hempty as [-> | ->]; [reflexivity|].
    destruct (a_grads a) as [|gid|[|x l]]; simpl; try reflexivity.
    destruct (is_list x); reflexivity.
Qed.

(** *** The order of the kernel calls *)

Lemma param_body_target ps gi g cs bc p grad o loc (w : world) loc' w' :
  ps <> Forward true ->
  param_body ps gi g cs bc p grad o loc w = (Ok loc', w') ->
  exists evs, trace w' = evs ++ trace w /\
    map event_target evs
    = if bearing (p_grad (heap w)) (p, grad, o) then [Some (gi, p)] else [].
Proof.
  intros Hps. unfold param_body, bearing. simpl.
  destruct ps as [[|]|]; [congruence| |].
  - mstep. all: intros [= <- <-]; try discriminate.
    all: first [ exists []; split; reflexivity
               | eexists [_]; split; reflexivity ].
  - mstep. all: intros [= <- <-]; try discriminate.
    all: first [ exists []; split; reflexivity
               | eexists [_]; split; reflexivity ].
Qed.

Lemma run_visits_target ps gi g cs bc : forall (V : list visit) loc (w : world) loc' w',
  ps <> Forward true ->
  run_visits ps gi g cs bc V loc w = (Ok loc', w') ->
  exists evs, trace w' = evs ++ trace w /\
    map event_target evs
    = map Some (rev (map (fun v : visit => (gi, v.1.1))
                       (List.filter (bearing (p_grad (heap w))) V))).
Proof.
  induction V as [|v V IH]; intros loc w loc' w' Hps; simpl.
  - intros [= <- <-]. exists []. split; reflexivity.
  - unfold bind. intros Hrun.
    destruct (param_body ps gi g cs bc v.1.1 v.1.2 v.2 loc w) as [[loc1|e] w1] eqn:Eb;
      [|discriminate].
    apply param_body_p_grad in Eb as Hpg.
    apply param_body_target in Eb; [|exact Hps].
    destruct Eb as (evs1 & Ht1 & Hm1).
    apply IH in Hrun; [|exact Hps]. destruct Hrun as (evs2 & Ht2 & Hm2).
    exists (evs2 ++ evs1). split; [rewrite Ht2, Ht1, app_assoc; reflexivity|].
    rewrite map_app, Hm2, Hm1, Hpg. destruct v as [[p gr] o]. simpl.
    destruct (bearing (p_grad (heap w)) (p, gr, o)); simpl.
    + rewrite map_app. reflexivity.
    + rewrite app_nil_r. reflexivity.
Qed.

Lemma group_loop_target ps scale ot :
  forall gs ges oes gns gi loc (w : world) loc' w',
  ps <> Forward true ->
  group_loop ps scale ot gi gs ges oes gns loc w = (Ok loc', w') ->
  Forall gval_entry (tail (zip_groups gs ges oes gns)) ->
  exists evs, trace w' = evs ++ trace w /\
    map event_target evs
    = map Some (rev (targets (p_grad (heap w)) gi
                       (plan_groups (heap w) (zip_groups gs ges oes gns)))).
Proof.
  induction gs as [|g gs IH]; intros ges oes gns gi loc w loc' w' Hps.
  { simpl. intros [= <- <-] _. exists []. split; reflexivity. }
  destruct ges as [|ge ges];
    [simpl; intros [= <- <-] _; exists []; split; reflexivity|].
  destruct oes as [|oe oes];
    [simpl; intros [= <- <-] _; exists []; split; reflexivity|].
  destruct gns as [|gn gns];
    [simpl; intros [= <- <-] _; exists []; split; reflexivity|].
  simpl. unfold bind. intros Hl Hgv.
  destruct (step_group ps scale ot gi g ge oe gn loc w) as [[loc1|e] w1] eqn:Es;
    [|discriminate].
  apply (step_group_touches (fun _ => True) (fun _ _ => True)) in Es as Ht;
    auto using refs_in_True.
  destruct Ht as [Ht _].
  apply step_group_inv in Es.
  destruct Es as [[_ ?]|(cs & r1 & u1 & Ecs & Erun & Hrest)]; [discriminate|].
  destruct r1 as [locr|e]; [|destruct Hrest; discriminate].
  assert (Hu : u1 = w1).
  { destruct ps as [[|]|]; [congruence| |]; destruct Hrest as [_ ->]; reflexivity. }
  subst u1.
  apply run_visits_target in Erun; [|exact Hps].
  destruct Erun as (evs1 & Ht1 & Hm1).
  change (trace w1 = evs1 ++ trace w) in Ht1.
  change (p_grad (heap (strip w))) with (p_grad (heap w)) in Hm1.
  apply IH in Hl; [|exact Hps|].
  2:{ destruct gs, ges, oes, gns; simpl in *; try constructor.
      inversion Hgv; subst; auto. }
  destruct Hl as (evs2 & Ht2 & Hm2).
  rewrite (t_p_grad _ _ _ _ Ht) in Hm2.
  rewrite (plan_groups_gval (heap w) (heap w1)) in Hm2 by exact Hgv.
  exists (evs2 ++ evs1). split; [rewrite Ht2, Ht1, app_assoc; reflexivity|].
  rewrite map_app, Hm2, Hm1, rev_app_distr, map_app. reflexivity.
Qed.

(** *** The update of a parameter *)

Lemma touches_same_at (S : pid -> Prop) Q (w w' : world) q :
  touches S Q w w' -> ~ S q -> same_at q w w'.
Proof.
  intros [Hc _ Hs _ Hd] Hq. split; [auto|]. split; [auto|].
  unfold config in Hc. congruence.
Qed.

Lemma same_at_entry q (w w' : world) : same_at q w w' -> entry_of w' q = entry_of w q.
Proof. intros (Hs & Hd & _). unfold entry_of. rewrite Hs, Hd. reflexivity. Qed.

Lemma stepped_by_before g cs (w w1 w' : world) q gr :
  same_at q w w1 -> stepped_by g cs w1 w' q gr -> stepped_by g cs w w' q gr.
Proof.
  intros Hsame (ovf & out_t & r & Ha & Hp & Hs).
  pose proof (same_at_entry _ _ _ Hsame) as He. destruct Hsame as (_ & Hd & Hm).
  rewrite He, Hd, Hm in Ha. rewrite He in Hs. exists ovf, out_t, r. auto.
Qed.

Lemma stepped_by_after g cs (w w1 w' : world) q gr :
  stepped_by g cs w w1 q gr -> same_at q w1 w' -> stepped_by g cs w w' q gr.
Proof.
  intros (ovf & out_t & r & Ha & Hp & Hs) (Hs' & Hd & _).
  exists ovf, out_t, r. split; [exact Ha|]. split; congruence.
Qed.

Lemma param_body_stepped gi g cs (v : visit) loc (w : world) loc' w' :
  param_body (Forward false) gi g cs (bias_flag g) v.1.1 v.1.2 v.2 loc w = (Ok loc', w') ->
  bearing (p_grad (heap w)) v = true ->
  exists gr, visit_grad (p_grad (heap w)) v = Some gr /\
             stepped_by g cs w w' v.1.1 gr.
Proof.
  destruct v as [[p grad] o]. unfold bearing, param_body, visit_grad, stepped_by, entry_of.
  simpl. mstep.
  all: intros [= <- <-]; try discriminate; intros _.
  all: unfold effective_grad in *; simpl in *.
  all: repeat match goal with
       | H : EffTensor _ = EffTensor _ |- _ => injection H as ->
       | H : EffSkip = EffTensor _ |- _ => discriminate H
       | H : EffNotTensor = EffTensor _ |- _ => discriminate H
       end.
  all: eexists; (split; [reflexivity|]).
  all: eexists _, _, _; (split; [eassumption|]).
  all: rewrite ?fn_lookup_insert, ?lookup_insert_eq; split; reflexivity.
Qed.

Lemma same_at_refl q (w : world) : same_at q w w.
Proof. repeat split. Qed.

Lemma same_at_trans q (w1 w2 w3 : world) :
  same_at q w1 w2 -> same_at q w2 w3 -> same_at q w1 w3.
Proof. intros (a1 & b1 & c1) (a2 & b2 & c2). repeat split; congruence. Qed.

Lemma updated_by_before ps g cs (w w1 w' : world) q gr :
  same_at q w w1 -> updated_by ps g cs w1 w' q gr -> updated_by ps g cs w w' q gr.
Proof.
  destruct ps; simpl; [apply stepped_by_before|].
  intros Hsame (r & Ha & Hp & Hs).
  pose proof (same_at_entry _ _ _ Hsame) as He. destruct Hsame as (_ & Hd & Hm).
  rewrite He, Hd, Hm in Ha. rewrite He in Hs. exists r. auto.
Qed.

Lemma updated_by_after ps g cs (w w1 w' : world) q gr :
  updated_by ps g cs w w1 q gr -> same_at q w1 w' -> updated_by ps g cs w w' q gr.
Proof.
  destruct ps; simpl; [apply stepped_by_after|].
  intros (r & Ha & Hp & Hs) (Hs' & Hd & _).
  exists r. split; [exact Ha|]. split; congruence.
Qed.

Lemma param_body_reverted gi g cs (v : visit) loc (w : world) loc' w' :
  param_body Undo gi g cs (bias_flag g) v.1.1 v.1.2 v.2 loc w = (Ok loc', w') ->
  bearing (p_grad (heap w)) v = true ->
  exists gr, visit_grad (p_grad (heap w)) v = Some gr /\
             reverted_by g cs w w' v.1.1 gr.
Proof.
  destruct v as [[p grad] o]. unfold bearing, param_body, visit_grad, reverted_by, entry_of.
  simpl. mstep.
  all: intros [= <- <-]; try discriminate; intros _.
  all: unfold effective_grad in *; simpl in *.
  all: repeat match goal with
       | H : EffTensor _ = EffTensor _ |- _ => injection H as ->
       | H : EffSkip = EffTensor _ |- _ => discriminate H
       | H : EffNotTensor = EffTensor _ |- _ => discriminate H
       end.
  all: eexists; (split; [reflexivity|]).
  all: eexists; (split; [eassumption|]).
  all: rewrite ?fn_lookup_insert, ?lookup_insert_eq; split; reflexivity.
Qed.

Lemma param_body_updated ps gi g cs (v : visit) loc (w : world) loc' w' :
  ps <> Forward true ->
  param_body ps gi g cs (bias_flag g) v.1.1 v.1.2 v.2 loc w = (Ok loc', w') ->
  bearing (p_grad (heap w)) v = true ->
  exists gr, visit_grad (p_grad (heap w)) v = Some gr /\
             updated_by ps g cs w w' v.1.1 gr.
Proof.
  destruct ps as [[|]|]; [congruence| |]; intros _.
  - apply param_body_stepped.
  - apply param_body_reverted.
Qed.

Lemma param_body_same_at ps gi g cs bc (v : visit) loc (w : world) r w' q :
  param_body ps gi g cs bc v.1.1 v.1.2 v.2 loc w = (r, w') ->
  v.1.1 <> q \/ bearing (p_grad (heap w)) v = false ->
  same_at q w w'.
Proof.
  intros Hb [Hne|Hskip].
  - apply (param_body_touches (fun x => x = v.1.1) (fun _ _ => True)) in Hb; auto.
    destruct Hb as [Ht _]. eapply touches_same_at; [exact Ht|]. congruence.
  - destruct v as [[p gr] o]. rewrite param_body_skip in Hb by exact Hskip.
    injection Hb as _ <-. apply same_at_refl.
Qed.

Lemma run_visits_same_at ps gi g cs bc : forall (V : list visit) loc (w : world) r w' q,
  run_visits ps gi g cs bc V loc w = (r, w') ->
  bearing_count (p_grad (heap w)) V q = 0%nat ->
  same_at q w w'.
Proof.
  induction V as [|v V IH]; intros loc w r w' q; simpl.
  - intros [= <- <-] _. apply same_at_refl.
  - unfold bind. intros Hrun Hc.
    destruct (param_body ps gi g cs bc v.1.1 v.1.2 v.2 loc w) as [[loc1|e] w1] eqn:Eb.
    + apply param_body_p_grad in Eb as Hpg.
      apply (param_body_same_at _ _ _ _ _ _ _ _ _ _ q) in Eb.
      * eapply same_at_trans; [exact Eb|]. eapply IH; [exact Hrun|].
        rewrite Hpg. lia.
      * destruct (decide (v.1.1 = q)); [|left; assumption].
        right. destruct (bearing (p_grad (heap w)) v); [lia|reflexivity].
    + injection Hrun as _ <-.
      apply (param_body_same_at _ _ _ _ _ _ _ _ _ _ q) in Eb; [exact Eb|].
      destruct (decide (v.1.1 = q)); [|left; assumption].
      right. destruct (bearing (p_grad (heap w)) v); [lia|reflexivity].
Qed.

Lemma run_visits_updated ps gi g cs :
  ps <> Forward true ->
  forall (V : list visit) loc (w : world) loc' w' q,
  run_visits ps gi g cs (bias_flag g) V loc w = (Ok loc', w') ->
  bearing_count (p_grad (heap w)) V q = 1%nat ->
  exists u gr, u ∈ V /\ u.1.1 = q /\ visit_grad (p_grad (heap w)) u = Some gr /\
               updated_by ps g cs w w' q gr.
Proof.
  intros Hps. induction V as [|v V IH]; intros loc w loc' w' q; simpl.
  - intros _ Hc. discriminate.
  - unfold bind. intros Hrun Hc.
    destruct (param_body ps gi g cs (bias_flag g) v.1.1 v.1.2 v.2 loc w)
      as [[loc1|e] w1] eqn:Eb; [|discriminate].
    apply param_body_p_grad in Eb as Hpg.
    destruct (decide (v.1.1 = q)) as [Hq|Hq];
      [destruct (bearing (p_grad (heap w)) v) eqn:Ebear|].
    + apply param_body_updated in Eb; [|exact Hps|exact Ebear].
      destruct Eb as (gr & Hgr & Hup). rewrite Hq in Hup.
      apply run_visits_same_at with (q := q) in Hrun; [|rewrite Hpg; lia].
      exists v, gr. split; [left|]. split; [exact Hq|]. split; [exact Hgr|].
      eapply updated_by_after; eauto.
    + apply (param_body_same_at _ _ _ _ _ _ _ _ _ _ q) in Eb; [|right; exact Ebear].
      apply IH with (q := q) in Hrun; [|rewrite Hpg; lia].
      destruct Hrun as (u & gr & Hu & Huq & Hgr & Hup). rewrite Hpg in Hgr.
      exists u, gr. split; [right; exact Hu|]. split; [exact Huq|]. split; [exact Hgr|].
      eapply updated_by_before; eauto.
    + apply (param_body_same_at _ _ _ _ _ _ _ _ _ _ q) in Eb; [|left; exact Hq].
      apply IH with (q := q) in Hrun; [|rewrite Hpg; lia].
      destruct Hrun as (u & gr & Hu & Huq & Hgr & Hup). rewrite Hpg in Hgr.
      exists u, gr. split; [right; exact Hu|]. split; [exact Huq|]. split; [exact Hgr|].
      eapply updated_by_before; eauto.
Qed.

Lemma step_group_updated ps scale ot gi (g : group) ge oe gn loc (w : world) loc' w' q :
  ps <> Forward true ->
  step_group ps scale ot gi g ge oe gn loc w = (Ok loc', w') ->
  (bearing_count (p_grad (heap w)) (group_visits (heap w) g ge oe) q = 0%nat ->
   same_at q w w') /\
  (bearing_count (p_grad (heap w)) (group_visits (heap w) g ge oe) q = 1%nat ->
   exists cs u gr,
     combined_scale g scale gn = Ok cs /\
     u ∈ group_visits (heap w) g ge oe /\ u.1.1 = q /\
     visit_grad (p_grad (heap w)) u = Some gr /\
     updated_by ps g cs w w' q gr).
Proof.
  intros Hps Hs. apply step_group_inv in Hs.
  destruct Hs as [[_ ?]|(cs & r1 & w1 & Ecs & Erun & Hrest)]; [discriminate|].
  destruct r1 as [loc1|e]; [|destruct Hrest; discriminate].
  assert (Hw : w' = w1).
  { destruct ps as [[|]|]; [congruence| |]; destruct Hrest as [_ ->]; reflexivity. }
  subst w1. split.
  - intros Hc. apply run_visits_same_at with (q := q) in Erun; [exact Erun|exact Hc].
  - intros Hc. apply run_visits_updated with (q := q) in Erun; [|exact Hps|exact Hc].
    destruct Erun as (u & gr & Hu & Hq & Hgr & Hup).
    exists cs, u, gr. repeat (split; [assumption|]).
    destruct ps as [[|]|]; [congruence| |]; exact Hup.
Qed.

Lemma group_loop_updated ps scale ot :
  ps <> Forward true ->
  forall gs ges oes gns gi loc (w : world) loc' w' q,
  group_loop ps scale ot gi gs ges oes gns loc w = (Ok loc', w') ->
  Forall gval_entry (tail (zip_groups gs ges oes gns)) ->
  let V := concat (plan_groups (heap w) (zip_groups gs ges oes gns)) in
  (bearing_count (p_grad (heap w)) V q = 0%nat -> same_at q w w') /\
  (bearing_count (p_grad (heap w)) V q = 1%nat ->
   exists i z cs u gr,
     zip_groups gs ges oes gns !! i = Some z /\
     combined_scale z.1.1.1 scale z.2 = Ok cs /\
     u ∈ V /\ u.1.1 = q /\ visit_grad (p_grad (heap w)) u = Some gr /\
     updated_by ps z.1.1.1 cs w w' q gr).
Proof.
  intros Hps. induction gs as [|g gs IH]; intros ges oes gns gi loc w loc' w' q.
  { simpl. intros [= <- <-] _. split; [intros _; apply same_at_refl|discriminate]. }
  destruct ges as [|ge ges];
    [simpl; intros [= <- <-] _; split; [intros _; apply same_at_refl|discriminate]|].
  destruct oes as [|oe oes];
    [simpl; intros [= <- <-] _; split; [intros _; apply same_at_refl|discriminate]|].
  destruct gns as [|gn gns];
    [simpl; intros [= <- <-] _; split; [intros _; apply same_at_refl|discriminate]|].
  simpl. unfold bind. intros Hl Hgv.
  destruct (step_group ps scale ot gi g ge oe gn loc w) as [[loc1|e] w1] eqn:Es;
    [|discriminate].
  apply (step_group_touches (fun _ => True) (fun _ _ => True)) in Es as Ht;
    auto using refs_in_True.
  destruct Ht as [Ht _].
  apply step_group_updated with (q := q) in Es; [|exact Hps].
  destruct Es as [Hs0 Hs1].
  apply IH with (q := q) in Hl.
  2:{ destruct gs, ges, oes, gns; simpl in *; try constructor.
      inversion Hgv; subst; auto. }
  rewrite (t_p_grad _ _ _ _ Ht) in Hl.
  rewrite (plan_groups_gval (heap w) (heap w1)) in Hl by exact Hgv.
  destruct Hl as [Hl0 Hl1]. rewrite bearing_count_app. split.
  - intros Hc. eapply same_at_trans; [apply Hs0|apply Hl0]; lia.
  - intros Hc.
    destruct (bearing_count (p_grad (heap w)) (group_visits (heap w) g ge oe) q)
      as [|[|n]] eqn:En.
    + destruct Hl1 as (i & z & cs & u & gr & Hz & Hcs & Hu & Hq & Hgr & Hup); [lia|].
      exists (S i), z, cs, u, gr. split; [exact Hz|]. split; [exact Hcs|].
      split; [apply elem_of_app; right; exact Hu|]. split; [exact Hq|].
      split; [exact Hgr|]. eapply updated_by_before; [apply Hs0; reflexivity|exact Hup].
    + destruct Hs1 as (cs & u & gr & Hcs & Hu & Hq & Hgr & Hup); [reflexivity|].
      exists 0%nat, (g, ge, oe, gn), cs, u, gr. split; [reflexivity|].
      split; [exact Hcs|]. split; [apply elem_of_app; left; exact Hu|].
      split; [exact Hq|]. split; [exact Hgr|].
      eapply updated_by_after; [exact Hup|apply Hl0; lia].
    + lia.
Qed.

(** *** Output buffers *)

Lemma param_body_outs ps gi g cs bc (v : visit) loc (w : world) r w' o :
  param_body ps gi g cs bc v.1.1 v.1.2 v.2 loc w = (r, w') ->
  (bearing (p_grad (heap w)) v = true -> v.2 <> VLeaf o) ->
  out_bufs (heap w') o = out_bufs (heap w) o.
Proof.
  destruct v as [[p grad] op]. unfold bearing, param_body. simpl. mstep.
  all: intros [= <- <-]; simpl; try reflexivity.
  all: unfold effective_grad in *; simpl in *; try discriminate.
  all: intros Hne; apply fn_lookup_insert_ne; intros ->; apply Hne; reflexivity.
Qed.

Lemma run_visits_outs ps gi g cs bc o : forall (V : list visit) loc (w : world) r w',
  run_visits ps gi g cs bc V loc w = (r, w') ->
  not_written (p_grad (heap w)) V o ->
  out_bufs (heap w') o = out_bufs (heap w) o.
Proof.
  induction V as [|v V IH]; intros loc w r w'; simpl.
  - intros [= <- <-] _. reflexivity.
  - unfold bind. intros Hrun Hn.
    destruct (param_body ps gi g cs bc v.1.1 v.1.2 v.2 loc w) as [[loc1|e] w1] eqn:Eb.
    + apply param_body_p_grad in Eb as Hpg.
      apply (param_body_outs _ _ _ _ _ _ _ _ _ _ o) in Eb; [|apply Hn; left].
      apply IH in Hrun; [congruence|].
      rewrite Hpg. intros u Hu. apply Hn. right. exact Hu.
    + injection Hrun as _ <-.
      apply (param_body_outs _ _ _ _ _ _ _ _ _ _ o) in Eb; [exact Eb|apply Hn; left].
Qed.

Lemma write_back_outs o e t (w : world) :
  no_out_ref o e -> out_bufs (heap (write_back e t w)) o = out_bufs (heap w) o.
Proof.
  intros He. destruct e as [[p|p|p| |o'] t0|]; simpl; try reflexivity.
  - destruct (state (self w) !! p); reflexivity.
  - destruct (state (self w) !! p); reflexivity.
  - apply fn_lookup_insert_ne. intros ->. apply (He t0). reflexivity.
Qed.

Lemma write_list_outs o es : forall ts (w : world),
  Forall (no_out_ref o) es ->
  out_bufs (heap (write_list es ts w)) o = out_bufs (heap w) o.
Proof.
  induction es as [|e es IH]; intros ts w He; simpl; [reflexivity|].
  destruct ts as [|t ts]; [reflexivity|]. inversion He; subst.
  rewrite IH by assumption. apply write_back_outs. assumption.
Qed.

Lemma write_lists_outs o tls : forall tss (w : world),
  Forall (Forall (no_out_ref o)) tls ->
  out_bufs (heap (write_lists tls tss w)) o = out_bufs (heap w) o.
Proof.
  induction tls as [|es tls IH]; intros tss w He; simpl; [reflexivity|].
  destruct tss as [|ts tss]; [reflexivity|]. inversion He; subst.
  rewrite IH by assumption. apply write_list_outs. assumption.
Qed.

Lemma mt_call_outs o gi g cs bc loc (w : world) r w' :
  mt_call gi g cs bc loc w = (r, w') ->
  Forall (Forall (no_out_ref o)) (tensorlists loc) ->
  out_bufs (heap w') o = out_bufs (heap w) o.
Proof.
  unfold mt_call. intros Hm Hr.
  destruct (loc_betas loc) as [b|]; [|injection Hm as _ <-; reflexivity].
  destruct (loc_state loc) as [p0|]; [|injection Hm as _ <-; reflexivity].
  unfold bind, get in Hm.
  destruct (state (self w) !! p0); [|injection Hm as _ <-; reflexivity].
  unfold lift at 1 in Hm.
  destruct (all_ok _ _); [|injection Hm as _ <-; reflexivity].
  unfold log, modify, lift in Hm. simpl in Hm.
  destruct (adam_mt _ _ _) as [[z tss]|e]; injection Hm as _ <-; [|reflexivity].
  simpl. rewrite write_lists_outs by exact Hr. reflexivity.
Qed.

Lemma batch_no_out_ref ot (w : world) (L : list visit) o :
  (forall v, v ∈ L -> v.2 <> VLeaf o) ->
  Forall (Forall (no_out_ref o)) (batch ot w L).
Proof.
  intros Hn. unfold batch.
  assert (H4 : Forall (Forall (no_out_ref o))
                 [map (col_data w) L; map (col_avg w) L; map (col_sq w) L;
                  omap (col_grad w) L]).
  { repeat constructor.
    - apply List.Forall_forall. intros e He. apply in_map_iff in He.
      destruct He as (v & <- & _). intros t. discriminate.
    - apply List.Forall_forall. intros e He. apply in_map_iff in He.
      destruct He as (v & <- & _). intros t. discriminate.
    - apply List.Forall_forall. intros e He. apply in_map_iff in He.
      destruct He as (v & <- & _). intros t. discriminate.
    - apply List.Forall_forall. intros e He. apply list_elem_of_In in He.
      apply list_elem_of_omap in He. destruct He as (v & _ & Hv).
      unfold col_grad in Hv. destruct (visit_grad _ v); [|discriminate].
      injection Hv as <-. intros t. discriminate. }
  apply Forall_app. split; [exact H4|].
  destruct ot; [|constructor]. constructor; [|constructor].
  apply List.Forall_forall. intros e He. apply list_elem_of_In in He.
  apply list_elem_of_omap in He. destruct He as (v & Hv & Hc).
  unfold col_out in Hc. specialize (Hn v Hv).
  destruct (v.2) as [|o'|l]; [discriminate| |].
  - injection Hc as <-. intros t [= ->]. apply Hn. reflexivity.
  - injection Hc as <-. intros t. discriminate.
Qed.

Lemma step_group_outs ps scale ot gi (g : group) ge oe gn loc (w : world) r w' o :
  step_group ps scale ot gi g ge oe gn loc w = (r, w') ->
  not_written (p_grad (heap w)) (group_visits (heap w) g ge oe) o ->
  out_bufs (heap w') o = out_bufs (heap w) o.
Proof.
  intros Hs Hn. apply step_group_inv in Hs.
  destruct Hs as [[-> _]|(cs & r1 & w1 & Ecs & Erun & Hrest)]; [reflexivity|].
  apply (run_visits_outs _ _ _ _ _ o) in Erun as Ho; [|exact Hn].
  change (out_bufs (heap w1) o = out_bufs (heap w) o) in Ho.
  destruct r1 as [loc1|e]; [|destruct Hrest as [_ ->]; exact Ho].
  destruct ps as [[|]|]; try (destruct Hrest as [_ ->]; exact Ho).
  destruct Hrest as (rm & Em & _).
  apply (run_visits_batch ot _ _ _ _ (strip w) _ []) in Erun;
    [|apply cols_agree_refl|reflexivity|destruct ot; reflexivity].
  destruct Erun as [Htl _]. simpl in Htl.
  apply (mt_call_outs o) in Em; [congruence|].
  rewrite Htl. apply batch_no_out_ref.
  intros v Hv. apply list_elem_of_In, filter_In in Hv. destruct Hv as [Hv Hb].
  apply Hn; [apply list_elem_of_In; exact Hv|exact Hb].
Qed.

Lemma not_written_app pg (V R : list visit) o :
  not_written pg (V ++ R) o -> not_written pg V o /\ not_written pg R o.
Proof.
  intros Hn. split; intros v Hv; apply Hn; apply elem_of_app; auto.
Qed.

Lemma group_loop_outs ps scale ot o :
  forall gs ges oes gns gi loc (w : world) r w',
  group_loop ps scale ot gi gs ges oes gns loc w = (r, w') ->
  Forall gval_entry (tail (zip_groups gs ges oes gns)) ->
  not_written (p_grad (heap w))
    (concat (plan_groups (heap w) (zip_groups gs ges oes gns))) o ->
  out_bufs (heap w') o = out_bufs (heap w) o.
Proof.
  induction gs as [|g gs IH]; intros ges oes gns gi loc w r w'.
  { simpl. intros [= <- <-] _ _. reflexivity. }
  destruct ges as [|ge ges]; [simpl; intros [= <- <-] _ _; reflexivity|].
  destruct oes as [|oe oes]; [simpl; intros [= <- <-] _ _; reflexivity|].
  destruct gns as [|gn gns]; [simpl; intros [= <- <-] _ _; reflexivity|].
  simpl. unfold bind. intros Hl Hgv Hn. apply not_written_app in Hn.
  destruct Hn as [Hn1 Hn2].
  destruct (step_group ps scale ot gi g ge oe gn loc w) as [[loc1|e] w1] eqn:Es.
  - apply (step_group_touches (fun _ => True) (fun _ _ => True)) in Es as Ht;
      auto using refs_in_True.
    destruct Ht as [Ht _].
    apply (step_group_outs _ _ _ _ _ _ _ _ _ _ _ _ o) in Es; [|exact Hn1].
    apply IH in Hl.
    + congruence.
    + destruct gs, ges, oes, gns; simpl in *; try constructor.
      inversion Hgv; subst; auto.
    + rewrite (t_p_grad _ _ _ _ Ht).
      rewrite (plan_groups_gval (heap w) (heap w1)) by exact Hgv. exact Hn2.
  - injection Hl as _ <-.
    apply (step_group_outs _ _ _ _ _ _ _ _ _ _ _ _ o) in Es; [exact Es|exact Hn1].
Qed.

Lemma zip3_out ps gs os (v : visit) : v ∈ zip3 ps gs os -> v.2 ∈ os.
Proof.
  revert gs os. induction ps as [|p ps IH]; intros gs os; simpl.
  - intros H; inversion H.
  - destruct gs as [|g gs]; [intros H; inversion H|].
    destruct os as [|o os]; [intros H; inversion H|].
    rewrite !elem_of_cons. intros [->|H]; [left; reflexivity|right; eauto].
Qed.

Lemma plan_absent_outs (o : optimizer) (h : store) a (v : visit) :
  a_output_params (effective_args o a) = ArgNone ->
  v ∈ step_plan o h a -> v.2 = VNone.
Proof.
  unfold step_plan, step_zip. intros ->. simpl.
  destruct (normalize _ _) as [ges|e]; [|intros H; inversion H].
  generalize (grad_norms_list (length (param_groups o))
                (a_grad_norms (effective_args o a))).
  generalize (length (param_groups o)) at 1.
  generalize (param_groups o). intros gs. revert ges.
  induction gs as [|g gs IH]; intros ges n gnl; [intros H; inversion H|].
  destruct ges as [|ge ges]; [intros H; inversion H|].
  destruct n as [|n]; [intros H; inversion H|].
  destruct gnl as [|gn gnl]; [intros H; inversion H|].
  simpl. rewrite elem_of_app. intros [Hv|Hv]; [|eauto].
  apply zip3_out in Hv. unfold entry_items_o in Hv. simpl in Hv.
  apply list_elem_of_In, repeat_spec in Hv. exact Hv.
Qed.

(** *** A pass that meets a sparse gradient *)













(** *** A batched pass that meets a sparse gradient *)



Lemma sparse_visit_bearing pg (v : visit) :
  sparse_visit pg v = true -> bearing pg v = true.
Proof.
  destruct v as [[p grad] o]. unfold sparse_visit, bearing. simpl.
  destruct grad; [destruct (pg !! p)|..]; auto.
Qed.











(** ** The properties *)

(** C1 (as amended). [step] zeroes the overflow register first, then runs
    the forward pass, which, unless it raises before, is the loop over the
    groups as line 143 pairs them with the inputs: a prefix of the parameter
    groups, as long as the shortest of the groups, the normalised gradients,
    the normalised output buffers and the gradient norms, and every group
    when nothing is supplied; neither pass zeroes the register or enters
    another pass; the undo pass is run exactly when the forward pass
    returned, undo was enabled at construction and the register the forward
    pass left is set; reading the register for that decision does not clear
    it. *)
Theorem step_orchestration (closure : option closure_t) grads outs scale gns
    (w : world) :
  let w0 := set_overflow 0 (add_event EvZero w) in
  let a := mk_args grads outs scale gns in
  let ea := effective_args (self w) a in
  let n := length (param_groups (self w)) in
  exists r1 w1 fwd,
    _overflow_buf (self w0) = 0 /\
    _step closure grads outs scale gns false w0 = (r1, w1) /\
    trace w1 = fwd ++ EvEnter false :: EvZero :: trace w /\
    Forall inside_pass fwd /\
    _allow_undo (self w1) = _allow_undo (self w) /\
    ((is_ok r1 = false /\ w1 = after_prologue closure false w0) \/
     exists rl,
       run_groups (pass_of (self w) false) (a_scale (effective_args (self w) a))
         (truthy (a_output_params (effective_args (self w) a))) 0
         (step_zip (self w) a) no_locals (after_prologue closure false w0)
       = (rl, w1)) /\
    map (fun z => z.1.1.1) (step_zip (self w) a)
    = take (length (step_zip (self w) a)) (param_groups (self w)) /\
    (forall ges oes,
       normalize n (a_grads ea) = Ok ges -> normalize n (a_output_params ea) = Ok oes ->
       length (step_zip (self w) a)
       = Nat.min (Nat.min n (length ges))
           (Nat.min (length oes) (length (grad_norms_list n (a_grad_norms ea))))) /\
    (grads = ArgNone -> outs = ArgNone -> gns = None -> _amp_stash (self w) = None ->
     step_zip (self w) a
     = map (fun g => (g, GVal VNone, GVal VNone, None)) (param_groups (self w))) /\
    if is_ok r1 && _allow_undo (self w) && negb (_overflow_buf (self w1) =? 0)
    then exists r2 w2 und,
           _step closure grads outs scale gns true w1 = (r2, w2) /\
           trace w2 = und ++ EvEnter true :: trace w1 /\
           Forall inside_pass und /\
           step closure grads outs scale gns w =
             (match r2 with Ok _ => Ok RNone | Raise e => Raise e end, w2)
    else step closure grads outs scale gns w =
           (match r1 with Ok _ => Ok RNone | Raise e => Raise e end, w1).
Proof.
  intros w0 a ea n.
  destruct (_step closure grads outs scale gns false w0) as [r1 w1] eqn:E1.
  pose proof (_step_trace _ _ _ _ _ _ _ _ _ E1) as (Hc & fwd & Ht & Hf).
  assert (Hu : _allow_undo (self w1) = _allow_undo (self w)).
  { unfold config in Hc. simpl in Hc. congruence. }
  exists r1, w1, fwd. repeat (split; [first [reflexivity|assumption]|]).
  split; [exact (_step_groups _ _ _ _ _ _ _ _ _ E1)|].
  split.
  { unfold step_zip. fold ea. fold n.
    destruct (normalize n (a_grads ea)) as [ges|e]; [|reflexivity].
    destruct (normalize n (a_output_params ea)) as [oes|e]; [|reflexivity].
    apply zip_groups_prefix. }
  split.
  { intros ges oes Hg Ho. unfold step_zip. fold ea. fold n. rewrite Hg, Ho.
    apply zip_groups_prefix. }
  split.
  { intros -> -> -> Hst. apply step_zip_default. exact Hst. }
  unfold step, bind, log, modify, get, peek_overflow, ret. simpl.
  fold w0. rewrite E1. destruct r1 as [v1|e]; simpl; [|reflexivity].
  rewrite Hu. destruct (_allow_undo (self w)); simpl; [|reflexivity].
  destruct (negb (_overflow_buf (self w1) =? 0)); [|reflexivity].
  destruct (_step closure grads outs scale gns true w1) as [r2 w2] eqn:E2.
  pose proof (_step_trace _ _ _ _ _ _ _ _ _ E2) as (_ & und & Ht2 & Hf2).
  exists r2, w2, und. repeat (split; [first [reflexivity|assumption]|]).
  destruct r2; reflexivity.
Qed.

(** C2. The combined scale of a group is the base scale when
    [max_grad_norm] is not positive; otherwise, with
    [clip = ((grad_norm / scale) + 1e-6) / max_grad_norm], it is
    [clip * scale] when [clip > 1] and the base scale when [clip <= 1]; and
    every kernel call a pass issues for a group carries the combined scale
    of that group. *)
Theorem combined_scale_spec (g : group) (scale : num) (grad_norm : option num) :
  (num_gt (max_grad_norm g) (num_of_int 0) = false ->
   combined_scale g scale grad_norm = Ok scale) /\
  (forall gn q clip,
     num_gt (max_grad_norm g) (num_of_int 0) = true ->
     grad_norm = Some gn ->
     num_truediv gn scale = Ok q ->
     num_truediv (num_add q num_1e_6) (max_grad_norm g) = Ok clip ->
     (num_gt clip (num_of_int 1) = true ->
      combined_scale g scale grad_norm = Ok (num_mul clip scale)) /\
     (num_le clip (num_of_int 1) = true ->
      combined_scale g scale grad_norm = Ok scale)) /\
  (forall (closure : option closure_t) grads outs gns undo (w : world) r w',
     _step closure grads outs scale gns undo w = (r, w') ->
     let a := mk_args grads outs scale gns in
     exists evs,
       trace w' = evs ++ trace (after_prologue closure undo w) /\
       Forall (fun ev => forall gi h, event_hyper ev = Some (gi, h) ->
                 exists z, step_zip (self w) a !! gi = Some z /\
                   combined_scale z.1.1.1 (a_scale (effective_args (self w) a)) z.2
                   = Ok (h_combined_scale h)) evs).
Proof.
  split; [|split].
  - unfold combined_scale. intros ->. reflexivity.
  - intros gn q clip Hpos -> Hq Hclip. unfold combined_scale.
    rewrite Hpos, Hq, Hclip. split.
    + intros ->. reflexivity.
    + intros Hle. rewrite (num_le_not_gt _ _ Hle). reflexivity.
  - intros closure grads outs gns undo w r w' Hs a.
    apply (_step_touches (fun _ => True)
             (fun gi h => exists z, step_zip (self w) a !! gi = Some z /\
                 combined_scale z.1.1.1 (a_scale (effective_args (self w) a)) z.2
                 = Ok (h_combined_scale h))) in Hs; auto.
    + destruct Hs as [_ _ _ (evs & Ht & Hk)]. exists evs. split; [exact Ht|].
      eapply List.Forall_impl; [|exact Hk].
      intros ev Hev gi h. destruct ev; simpl in *; try discriminate;
        intros [= <- <-]; tauto.
    + intros i z cs h Hz Hc <-. exists z. auto.
Qed.

(** C3 (as amended). When a forward pass returns, every step counter has
    grown by the number of times the parameter was visited with a gradient:
    by exactly one for a parameter visited once; an undo pass over the same structure
    that returns takes every counter back to its value before the forward
    pass (the structure is the same whenever no generator is among the
    arguments); and a forward pass, however it ends, lowers no counter. *)
Theorem step_counter_forward_undo (closure : option closure_t) grads outs scale gns
    (w w1 : world) v1 :
  let a := mk_args grads outs scale gns in
  let h := closure_heap closure false (heap w) in
  _step closure grads outs scale gns false w = (Ok v1, w1) ->
  (forall q, step_counter w1 q =
             step_counter w q +
             Z.of_nat (bearing_count (p_grad h) (step_plan (self w) h a) q)) /\
  (forall p, bearing_count (p_grad h) (step_plan (self w) h a) p = 1%nat ->
             step_counter w1 p = step_counter w p + 1) /\
  (forall v2 w2,
     _step closure grads outs scale gns true w1 = (Ok v2, w2) ->
     step_plan (self w1) (heap w1) a = step_plan (self w) h a ->
     forall q, step_counter w2 q = step_counter w q) /\
  (forall (c' : option closure_t) grads' outs' scale' gns' (u : world) r' u' q,
     _step c' grads' outs' scale' gns' false u = (r', u') ->
     step_counter u q <= step_counter u' q) /\
  (forall v2 w2,
     _step closure grads outs scale gns true w1 = (Ok v2, w2) ->
     is_generator (a_grads (effective_args (self w) a)) = false ->
     is_generator (a_output_params (effective_args (self w) a)) = false ->
     forall q, step_counter w2 q = step_counter w q).
Proof.
  intros a h Hf.
  pose proof (_step_ok _ _ _ _ _ _ _ _ _ Hf) as (_ & Hc & _).
  pose proof (_step_p_grad _ _ _ _ _ _ _ _ _ Hf) as Hpg.
  assert (Hc1 : forall q, step_counter w1 q =
             step_counter w q +
             Z.of_nat (bearing_count (p_grad h) (step_plan (self w) h a) q)).
  { intros q. pose proof (Hc q) as Hq. cbv beta iota zeta in Hq.
    rewrite Z.mul_1_l in Hq. exact Hq. }
  assert (Hundo : forall v2 w2,
     _step closure grads outs scale gns true w1 = (Ok v2, w2) ->
     step_plan (self w1) (heap w1) a = step_plan (self w) h a ->
     forall q, step_counter w2 q = step_counter w q).
  { intros v2 w2 Hu Hplan q.
    pose proof (_step_ok _ _ _ _ _ _ _ _ _ Hu) as (_ & Hc2 & _).
    pose proof (Hc2 q) as Hq. cbv beta iota zeta in Hq.
    change (heap (after_prologue closure true w1)) with (heap w1) in Hq.
    change (mk_args grads outs scale gns) with a in Hq.
    rewrite Hplan, Hpg in Hq. fold h in Hq. rewrite Hq, Hc1. lia. }
  split; [exact Hc1|]. split; [|split; [exact Hundo|split]].
  - intros p Hp. rewrite Hc1, Hp. reflexivity.
  - intros c' grads' outs' scale' gns' u r' u' q Hs.
    eapply _step_forward_mono; eauto.
  - intros v2 w2 Hu Hg Ho. apply (Hundo v2 w2 Hu).
    pose proof (_step_trace _ _ _ _ _ _ _ _ _ Hf) as (Hcfg & _).
    destruct (config_step_zip (self w) (self w1) a Hcfg) as [Hz He].
    unfold step_plan. rewrite Hz. fold (step_plan (self w) (heap w1) a).
    fold (step_plan (self w) h a). apply step_plan_stable; assumption.
Qed.

(** C4. A freshly constructed optimizer reports no overflow through both
    accessors; [peek_overflow] returns the register and leaves the world as it
    is, so repeated calls agree; [has_overflow] returns the register and
    leaves it at zero, so a second [has_overflow] right after returns zero
    (false), whatever the first returned. *)
Theorem overflow_accessors :
  (forall env prms lr_ bc betas_ eps_ eis wd mgn ams mt adj undo printed o h tr,
     __init__ env prms lr_ bc betas_ eps_ eis wd mgn ams mt adj undo
       = (printed, Ok o) ->
     let w : world := {| self := o; heap := h; trace := tr |} in
     peek_overflow w = (Ok 0, w) /\ (has_overflow w).1 = Ok 0) /\
  (forall w : world, peek_overflow w = (Ok (_overflow_buf (self w)), w)) /\
  (forall w : world,
     has_overflow w
       = (Ok (_overflow_buf (self w)), set_overflow 0 (add_event EvZero w)) /\
     _overflow_buf (self (has_overflow w).2) = 0 /\
     (has_overflow (has_overflow w).2).1 = Ok 0).
Proof.
  split; [|split].
  - intros env prms lr_ bc betas_ eps_ eis wd mgn ams mt adj undo printed o h tr.
    unfold __init__.
    destruct (cuda_ext_importable env); simpl; [|discriminate].
    destruct mt, (multi_tensor_applier_available env); simpl;
      destruct ams; try discriminate;
      destruct (optimizer_init prms _); try discriminate;
      destruct undo; simpl; try discriminate;
      intros [= _ <-]; split; reflexivity.
  - intros w. reflexivity.
  - intros w. repeat split.
Qed.



(** The input normaliser on the three shapes.  For a gradient assignment
    [A] with one list per group, each of the group's size, the nested list,
    the flat list (one group, not empty) and, when every gradient is absent,
    the absent argument are normalised to the same per-group, per-parameter
    structure; an absent argument gives one list of [None] per group, of the
    size of the group. *)
Theorem normalizer_shapes (h : store) (gs : list group)
    (A : list (list (option gradient))) :
  Forall2 (fun (g : group) l => length l = length (params g)) gs A ->
  gs <> [] ->
  let canon := map (map opt_val) A in
  normalized h gs (ArgList (map (fun l => VList (map opt_val l)) A)) = Ok canon /\
  (forall l, A = [l] -> l <> [] ->
     normalized h gs (ArgList (map opt_val l)) = Ok canon) /\
  (Forall (Forall (fun x => x = None)) A -> normalized h gs ArgNone = Ok canon) /\
  normalized h gs ArgNone
    = Ok (map (fun g => repeat VNone (length (params g))) gs).
Proof.
  intros HA Hgs canon.
  assert (Hlen : length gs = length A) by (eapply Forall2_length; eauto).
  assert (Habs : normalized h gs ArgNone
                 = Ok (map (fun g => repeat VNone (length (params g))) gs)).
  { unfold normalized. simpl. rewrite zip_with_absent by lia. reflexivity. }
  split; [|split; [|split]].
  - unfold normalized. destruct A as [|l A]; [destruct gs; [congruence|discriminate]|].
    simpl normalize. cbv iota beta.
    change (GVal (VList (map opt_val l)) ::
            map GVal (map (fun l0 => VList (map opt_val l0)) A))
      with (map GVal (map (fun l0 => VList (map opt_val l0)) (l :: A))).
    rewrite zip_with_nested by exact Hlen. reflexivity.
  - intros l -> Hl. unfold normalized, canon.
    destruct gs as [|g [|g' gs]]; simpl in Hlen; try discriminate.
    destruct l as [|x l]; [congruence|]. simpl.
    destruct x; reflexivity.
  - intros Hnone. rewrite Habs. unfold canon. f_equal.
    clear Habs Hlen Hgs canon.
    induction HA as [|g l gs A Hl _ IH]; [reflexivity|].
    inversion Hnone; subst. simpl. rewrite IH by assumption.
    rewrite all_none_repeat by assumption. rewrite Hl. reflexivity.
  - exact Habs.
Qed.

(** C8. Whenever [step] returns, it returns [None]; with a closure, the
    forward pass inside did compute the loss and [_step] returned it. *)
Theorem step_returns_none (closure : option closure_t) grads outs scale gns
    (w : world) v w' :
  step closure grads outs scale gns w = (Ok v, w') ->
  v = RNone /\
  forall c, closure = Some c ->
    exists l w1,
      (c (heap w)).1 = Ok l /\
      _step closure grads outs scale gns false
        (set_overflow 0 (add_event EvZero w)) = (Ok (RLoss l), w1).
Proof.
  unfold step, bind, log, modify, get, peek_overflow, ret. simpl.
  destruct (_step closure grads outs scale gns false _) as [[v1|e] w1] eqn:E1;
    [|discriminate].
  intros Hs. split.
  - destruct (_allow_undo (self w1)); [|injection Hs as <- _; reflexivity].
    simpl in Hs. destruct (negb (_overflow_buf (self w1) =? 0));
      [|injection Hs as <- _; reflexivity].
    destruct (_step closure grads outs scale gns true w1) as [[v2|e] w2];
      [injection Hs as <- _; reflexivity|discriminate].
  - intros c ->. apply _step_inv in E1 as E.
    destruct E as [[? _]|(ges & oes & rl & _ & _ & _ & _ & Hr)]; [discriminate|].
    destruct rl as [loc'|e]; [|discriminate].
    destruct Hr as (v0 & [= <-] & _ & _ & Hc).
    destruct (Hc c eq_refl eq_refl) as (l & Hl & ->).
    exists l, w1. split; [exact Hl|reflexivity].
Qed.

(** C9. In batched mode a group issues at most one kernel call, the batched
    one, with one step value for the whole group.  When a parameter of the
    group was visited with a gradient, it is the step counter of the last
    such parameter; when none was, it is the counter of the parameter the
    local [state] referred to before the group's iteration, which the
    iteration did not set, and when nothing was bound yet the call raises
    UnboundLocalError before any kernel is reached. *)
Theorem batched_step_value scale ot gi (g : group) ge oe gn loc (w : world) r w' :
  let V := group_visits (heap w) g ge oe in
  let pg := p_grad (heap w) in
  step_group (Forward true) scale ot gi g ge oe gn loc w = (r, w') ->
  ((trace w' = trace w /\ is_ok r = false) \/
   exists tls h,
     trace w' = EvAdamMt gi tls h :: trace w /\
     match last_bearing pg None V with
     | Some p =>
         h_step h = step_counter w' p /\
         step_counter w' p = step_counter w p + Z.of_nat (bearing_count pg V p)
     | None =>
         exists p0, loc_state loc = Some p0 /\ h_step h = step_counter w p0
     end) /\
  (last_bearing pg None V = None -> loc_betas loc = None ->
   trace w' = trace w /\
   (r = Raise (UnboundLocalError "beta1") \/ (w' = w /\ is_ok r = false))).
Proof.
  intros V pg Hs. apply step_group_inv in Hs.
  destruct Hs as [[-> Hf]|(cs & r1 & w1 & Ecs & Erun & Hrest)].
  { split; [left; auto|]. intros _ _. auto. }
  fold V in Erun.
  pose proof (run_visits_mt_silent _ _ _ _ _ _ _ _ _ Erun) as [Htr1 _].
  change (trace w1 = trace w) in Htr1.
  destruct r1 as [loc1|e].
  2:{ destruct Hrest as [-> ->]. split; [left; auto|].
      intros Hnone _. apply last_bearing_none in Hnone.
      rewrite (run_visits_all_skip _ _ _ _ _ V _ (strip w)) in Erun by exact Hnone.
      discriminate. }
  destruct Hrest as (rm & Em & ->).
  pose proof (run_visits_locals _ _ _ _ _ _ _ _ _ _ Erun) as Hloc.
  change (p_grad (heap (strip w))) with pg in Hloc.
  assert (Hcnt : forall q, step_counter w1 q =
                   step_counter w q + Z.of_nat (bearing_count pg V q)).
  { intros q. pose proof (run_visits_counter _ _ _ _ _ _ _ _ _ _ q Erun) as Hq.
    rewrite Z.mul_1_l in Hq. exact Hq. }
  apply (mt_call_spec (fun _ => True) (fun _ _ => True)) in Em;
    auto using refs_in_True.
  destruct Em as (_ & _ & Hk & Hev & Hb). split.
  - destruct Hev as [[Htr Hrm]|(b & p0 & Eb & Ep & Htr)].
    + left. split; [congruence|]. destruct rm; [discriminate|reflexivity].
    + right. exists (tensorlists loc1). eexists. split; [rewrite Htr, Htr1; reflexivity|].
      simpl. destruct (last_bearing pg None V) as [p|] eqn:El.
      * destruct Hloc as [Hp _]. assert (p0 = p) by congruence. subst p0.
        rewrite Hk. split; [reflexivity|apply Hcnt].
      * destruct Hloc as [Hp _]. exists p0. split; [simpl in Hp; congruence|].
        rewrite Hcnt. apply last_bearing_none in El.
        rewrite (bearing_count_none _ _ _ El). simpl. lia.
  - intros Hnone Hbn. rewrite Hnone in Hloc. destruct Hloc as [_ Hb1].
    simpl in Hb1. rewrite Hbn in Hb1. destruct (Hb Hb1) as [-> ->].
    split; [exact Htr1|left; reflexivity].
Qed.

(** C10. A parameter with no attached gradient whose supplied gradient is
    absent wherever a pass visits it is skipped by that pass: its state
    entry (absent, or step counter and both moment buffers) is as before and
    no kernel call is issued on its tensors; the same holds for a whole
    [step] call to which no gradients are supplied. *)
Theorem absent_gradient_skipped (closure : option closure_t) grads outs scale gns
    (w : world) (q : pid) :
  let a := mk_args grads outs scale gns in
  (forall undo r w',
     let h := closure_heap closure undo (heap w) in
     _step closure grads outs scale gns undo w = (r, w') ->
     p_grad h !! q = None ->
     (forall v, v ∈ step_plan (self w) h a -> v.1.1 = q -> v.1.2 = VNone) ->
     state (self w') !! q = state (self w) !! q /\
     exists evs, trace w' = evs ++ trace w /\
                 Forall (fun ev => ~ event_touches q ev) evs) /\
  (forall r w',
     let h := closure_heap closure false (heap w) in
     step closure grads outs scale gns w = (r, w') ->
     a_grads (effective_args (self w) a) = ArgNone ->
     p_grad h !! q = None ->
     state (self w') !! q = state (self w) !! q /\
     exists evs, trace w' = evs ++ trace w /\
                 Forall (fun ev => ~ event_touches q ev) evs).
Proof.
  intros a. split.
  - intros undo r w' h Hs Hpg Habs.
    eapply _step_frame; [exact Hs|]. apply absent_not_processed; assumption.
  - intros r w' h Hs Ha Hpg.
    eapply step_frame; [exact Hs| |].
    + apply absent_not_processed; [exact Hpg|].
      intros v Hv _. eapply plan_absent; eauto.
    + intros w1 Hc1 Hpg1. apply absent_not_processed; [rewrite Hpg1; exact Hpg|].
      intros v Hv _. apply (plan_absent (self w1) (heap w1) a v); [|exact Hv].
      destruct (config_step_zip (self w) (self w1) a Hc1) as [_ ->]. exact Ha.
Qed.

(** ** Further properties of the methods *)

(** *** Construction *)

(** The order in which the constructor fails.  A failed import of the
    extension module comes first: the exception of [importlib] is passed on
    as it is and nothing is printed; then [amsgrad] is refused, before the
    base class has seen the parameters; then the base class's own error is
    passed on; the assertion on batched mode with undo comes last.  The
    warning about an unavailable applier has been printed by then. *)
Theorem init_failure_order env prms lr_ bc betas_ eps_ eis wd mgn ams use_mt adj undo :
  let out := __init__ env prms lr_ bc betas_ eps_ eis wd mgn ams use_mt adj undo in
  let dflt := ctor_defaults lr_ bc betas_ eps_ wd mgn in
  (cuda_ext_importable env = false ->
   out = ([], Raise (import_error env))) /\
  (cuda_ext_importable env = true -> ams = true ->
   out = (ctor_printed env use_mt, Raise (RuntimeError amsgrad_msg))) /\
  (cuda_ext_importable env = true -> ams = false ->
   forall e, optimizer_init prms dflt = Raise e ->
   out = (ctor_printed env use_mt, Raise e)) /\
  (cuda_ext_importable env = true -> ams = false ->
   forall gs, optimizer_init prms dflt = Ok gs ->
   use_mt && multi_tensor_applier_available env && undo = true ->
   out = ([], Raise (AssertionError undo_mt_msg))).
Proof.
  unfold __init__, ctor_printed, ctor_defaults. repeat split.
  - intros ->. reflexivity.
  - intros -> ->. simpl.
    destruct use_mt, (multi_tensor_applier_available env); reflexivity.
  - intros -> -> e He. simpl.
    destruct use_mt, (multi_tensor_applier_available env); simpl; rewrite He; reflexivity.
  - intros -> -> gs Hg. simpl.
    destruct use_mt, (multi_tensor_applier_available env), undo; simpl;
      try discriminate; rewrite Hg; reflexivity.
Qed.

(** Construction succeeds exactly when the extension module is there,
    [amsgrad] is off, the base class accepts the parameters with the six
    defaults [lr], [bias_correction], [betas], [eps], [weight_decay] and
    [max_grad_norm], and batched mode and undo are not both in force.  The
    instance then holds the groups of the base class, no state, a zero
    overflow register, [eps_mode] 0 when [eps_inside_sqrt] is set and 1
    otherwise; the warning is printed exactly when batched mode was asked for
    and is unavailable. *)
Theorem init_success env prms lr_ bc betas_ eps_ eis wd mgn ams use_mt adj undo printed
    (o : optimizer) :
  __init__ env prms lr_ bc betas_ eps_ eis wd mgn ams use_mt adj undo = (printed, Ok o) <->
  cuda_ext_importable env = true /\ ams = false /\
  use_mt && multi_tensor_applier_available env && undo = false /\
  printed = ctor_printed env use_mt /\
  exists gs,
    optimizer_init prms (ctor_defaults lr_ bc betas_ eps_ wd mgn) = Ok gs /\
    o = {| _use_multi_tensor := use_mt && multi_tensor_applier_available env;
           _allow_undo := undo; _overflow_buf := 0;
           _amp_scale_adjustment := adj;
           eps_mode := if eis then 0 else 1;
           param_groups := gs; state := ∅; _amp_stash := None |}.
Proof.
  unfold __init__, ctor_printed, ctor_defaults. split.
  - destruct (cuda_ext_importable env); simpl; [|discriminate].
    destruct use_mt, (multi_tensor_applier_available env); simpl;
      destruct ams; try discriminate;
      destruct (optimizer_init prms _) as [gs|e]; try discriminate;
      destruct undo; simpl; try discriminate;
      intros [= <- <-]; repeat split; eauto.
  - intros (-> & -> & Hb & -> & gs & Hg & ->). simpl.
    destruct use_mt, (multi_tensor_applier_available env); simpl in *;
      rewrite Hg; try rewrite Hb; reflexivity.
Qed.

(** *** strided_check_finite *)

(** The buffers that are checked are those of the slice [start:end] when
    [0 <= start < end], bounds beyond the list included, and all of them
    otherwise (so with the default bounds); the kernel gets the register,
    these buffers, the stride and 1 or 0 for [clear], and what it returns
    becomes the register.  Nothing else changes; when the kernel raises, the
    register stays as it was. *)
Theorem strided_check_finite_selection (ops : list oid) stride start end_ (clear : bool)
    (w : world) :
  let c := if clear then 1 else 0 in
  let w1 := add_event (EvStridedCheck c) w in
  exists sel : list oid,
    (forall i : nat,
       sel !! i =
       if (0 <=? start) && (start <? end_)
       then (if Z.of_nat i <? end_ - start
             then ops !! (Z.to_nat start + i)%nat else None)
       else ops !! i) /\
    ((start < 0 \/ end_ <= start) -> sel = ops) /\
    strided_check_finite ops stride start end_ clear w =
      match strided_check_finite_kernel (_overflow_buf (self w))
              (map (out_bufs (heap w)) sel) stride c with
      | Ok z => (Ok tt, set_overflow z w1)
      | Raise e => (Raise e, w1)
      end.
Proof.
  intros c w1.
  exists (if (0 <=? start) && (start <? end_)
          then take (Z.to_nat (end_ - start)) (drop (Z.to_nat start) ops)
          else ops).
  split; [|split].
  - intros i. destruct ((0 <=? start) && (start <? end_)) eqn:E; [|reflexivity].
    apply andb_true_iff in E. destruct E as [E1 E2].
    apply Z.leb_le in E1. apply Z.ltb_lt in E2.
    destruct (Z.of_nat i <? end_ - start) eqn:Ei.
    + apply Z.ltb_lt in Ei. rewrite lookup_take_lt by lia. apply lookup_drop.
    + apply Z.ltb_ge in Ei. apply lookup_take_ge. lia.
  - intros Hr. destruct ((0 <=? start) && (start <? end_)) eqn:E; [|reflexivity].
    apply andb_true_iff in E. destruct E as [E1 E2].
    apply Z.leb_le in E1. apply Z.ltb_lt in E2. lia.
  - unfold strided_check_finite, bind, get, log, modify, lift. simpl.
    fold c. destruct (strided_check_finite_kernel _ _ _ _); reflexivity.
Qed.

(** After a check that returned, the register holds what the kernel
    reported, state, configuration and heap are as before, [peek_overflow]
    and [has_overflow] return the report, and a second [has_overflow]
    returns zero. *)
Theorem strided_check_reported_once (ops : list oid) stride start end_ (clear : bool)
    (w w1 : world) :
  strided_check_finite ops stride start end_ clear w = (Ok tt, w1) ->
  exists ts,
    strided_check_finite_kernel (_overflow_buf (self w)) ts stride
      (if clear then 1 else 0) = Ok (_overflow_buf (self w1)) /\
    state (self w1) = state (self w) /\ config (self w1) = config (self w) /\
    heap w1 = heap w /\
    peek_overflow w1 = (Ok (_overflow_buf (self w1)), w1) /\
    (has_overflow w1).1 = Ok (_overflow_buf (self w1)) /\
    (has_overflow (has_overflow w1).2).1 = Ok 0.
Proof.
  unfold strided_check_finite, bind, get, log, modify, lift. simpl.
  destruct (strided_check_finite_kernel _ _ _ _) as [z|e] eqn:E; [|discriminate].
  intros [= <-]. eexists. split; [exact E|]. repeat split.
Qed.

(** *** The arguments of a call *)

(** On an instance that carries a stash, [_step] and [step] ignore their
    [grads], [output_params], [scale] and [grad_norms] arguments: they work
    on those of the stash, with the stash's scale multiplied by the scale
    adjustment. *)
Theorem amp_stash_overrides_arguments (closure : option closure_t) grads outs scale gns
    grads' outs' scale' gns' (w : world) st :
  _amp_stash (self w) = Some st ->
  (forall undo, _step closure grads outs scale gns undo w
                = _step closure grads' outs' scale' gns' undo w) /\
  step closure grads outs scale gns w = step closure grads' outs' scale' gns' w /\
  effective_args (self w) (mk_args grads outs scale gns)
  = mk_args (stash_grads st) (stash_output_params st)
      (num_mul (stash_scale st) (_amp_scale_adjustment (self w))) (stash_grad_norms st).
Proof.
  intros Hst. split; [|split].
  - intros undo. apply _step_stash with st. exact Hst.
  - unfold step, bind, log, modify, get, peek_overflow, ret. simpl.
    rewrite (_step_stash closure grads outs scale gns grads' outs' scale' gns' false _ st)
      by exact Hst.
    destruct (_step closure grads' outs' scale' gns' false _) as [[v1|e] w1] eqn:E1;
      [|reflexivity].
    apply _step_trace in E1. destruct E1 as [Hc _].
    assert (Hst1 : _amp_stash (self w1) = Some st).
    { unfold config in Hc. simpl in Hc. congruence. }
    simpl. destruct (_allow_undo (self w1)); simpl; [|reflexivity].
    destruct (negb (_overflow_buf (self w1) =? 0)); [|reflexivity].
    rewrite (_step_stash closure grads outs scale gns grads' outs' scale' gns' true _ st)
      by exact Hst1.
    reflexivity.
  - unfold effective_args, mk_args. rewrite Hst. reflexivity.
Qed.

(** An empty list for [grads] or for [output_params] makes every pass fail
    without any change beyond its prologue: with IndexError, unless the
    prologue itself raises.  [step] raises IndexError. *)
Theorem empty_list_arguments_raise (closure : option closure_t) grads outs scale gns
    (w : world) :
  let a := effective_args (self w) (mk_args grads outs scale gns) in
  a_grads a = ArgList [] \/ a_output_params a = ArgList [] ->
  (forall undo r w',
     _step closure grads outs scale gns undo w = (r, w') ->
     is_ok r = false /\ w' = after_prologue closure undo w) /\
  (forall undo pl wp,
     prologue closure undo (add_event (EvEnter undo) w) = (Ok pl, wp) ->
     _step closure grads outs scale gns undo w
     = (Raise IndexError, after_prologue closure undo w)) /\
  ((forall c, closure = Some c -> is_ok (c (heap w)).1 = true) ->
   step closure grads outs scale gns w
   = (Raise IndexError,
      after_prologue closure false (set_overflow 0 (add_event EvZero w)))).
Proof.
  intros a Hempty. split; [|split].
  - intros undo. apply _step_empty. exact Hempty.
  - intros undo. apply _step_empty. exact Hempty.
  - intros Hc. unfold step, bind, log, modify. simpl.
    destruct (prologue_forward closure (set_overflow 0 (add_event EvZero w)) Hc)
      as (rv & Hpro).
    destruct (_step_empty closure grads outs scale gns false
                (set_overflow 0 (add_event EvZero w)) Hempty) as [_ Hp].
    rewrite (Hp _ _ Hpro). reflexivity.
Qed.

(** With no stash and at least one group, passing for [grads] the nested
    list of every parameter's attached gradient is the same as passing
    nothing, for each pass and for [step]. *)
Theorem explicit_attached_gradients (closure : option closure_t) outs scale gns
    (w : world) :
  _amp_stash (self w) = None ->
  param_groups (self w) <> [] ->
  (forall undo,
     _step closure
       (attached_grads (closure_heap closure undo (heap w)) (param_groups (self w)))
       outs scale gns undo w
     = _step closure ArgNone outs scale gns undo w) /\
  step closure
    (attached_grads (closure_heap closure false (heap w)) (param_groups (self w)))
    outs scale gns w
  = step closure ArgNone outs scale gns w.
Proof.
  intros Hst Hgs. split; [intros undo; apply _step_attached; assumption|].
  pose proof (_step_attached closure outs scale gns false
                (set_overflow 0 (add_event EvZero w)) Hst Hgs) as Hf.
  change (_step closure
            (attached_grads (closure_heap closure false (heap w)) (param_groups (self w)))
            outs scale gns false (set_overflow 0 (add_event EvZero w))
          = _step closure ArgNone outs scale gns false
              (set_overflow 0 (add_event EvZero w))) in Hf.
  remember (attached_grads (closure_heap closure false (heap w)) (param_groups (self w)))
    as L eqn:EL.
  unfold step, bind, log, modify, get, peek_overflow, ret. simpl.
  rewrite Hf.
  destruct (_step closure ArgNone outs scale gns false _) as [[v1|e] w1] eqn:E1;
    [|reflexivity].
  simpl. destruct (_allow_undo (self w1)); simpl; [|reflexivity].
  destruct (negb (_overflow_buf (self w1) =? 0)); [|reflexivity].
  apply _step_trace in E1 as Hc. destruct Hc as [Hc _].
  apply _step_p_grad in E1 as Hg.
  change (p_grad (heap w1) = p_grad (closure_heap closure false (heap w))) in Hg.
  assert (Hst1 : _amp_stash (self w1) = None /\
                 param_groups (self w1) = param_groups (self w)).
  { unfold config in Hc. simpl in Hc. split; congruence. }
  destruct Hst1 as [Hst1 Hgs1].
  assert (Hgs1' : param_groups (self w1) <> []) by (rewrite Hgs1; exact Hgs).
  pose proof (_step_attached closure outs scale gns true w1 Hst1 Hgs1') as Hu.
  assert (HL : attached_grads (closure_heap closure true (heap w1)) (param_groups (self w1))
               = L).
  { subst L. unfold attached_grads. rewrite Hgs1. simpl. rewrite Hg. reflexivity. }
  rewrite HL in Hu. rewrite Hu. reflexivity.
Qed.

(** The groups a pass works on are a prefix of the parameter groups, as
    long as the shortest of the groups, the normalised gradients, the
    normalised output buffers and the gradient norms; a flat list or a
    generator for [grads] pairs one group at most.  A parameter that belongs
    to none of the paired groups keeps its state and its contents and gets no
    kernel call, and no error is raised for the groups left out. *)
Theorem unpaired_groups_untouched (closure : option closure_t) grads outs scale gns
    (w : world) :
  let a := mk_args grads outs scale gns in
  let ea := effective_args (self w) a in
  let n := length (param_groups (self w)) in
  let zs := step_zip (self w) a in
  map (fun z => z.1.1.1) zs = take (length zs) (param_groups (self w)) /\
  (forall ges oes,
     normalize n (a_grads ea) = Ok ges -> normalize n (a_output_params ea) = Ok oes ->
     length zs = Nat.min (Nat.min n (length ges))
                   (Nat.min (length oes) (length (grad_norms_list n (a_grad_norms ea))))) /\
  ((is_generator (a_grads ea) = true \/
    exists x l, a_grads ea = ArgList (x :: l) /\ is_list x = false) ->
   (length zs <= 1)%nat) /\
  (forall undo r w' q,
     _step closure grads outs scale gns undo w = (r, w') ->
     (forall g, g ∈ take (length zs) (param_groups (self w)) -> q ∉ params g) ->
     state (self w') !! q = state (self w) !! q /\
     p_data (heap w') q = p_data (closure_heap closure undo (heap w)) q /\
     exists evs, trace w' = evs ++ trace w /\
                 Forall (fun ev => ~ event_touches q ev) evs).
Proof.
  intros a ea n zs.
  assert (Hpre : map (fun z => z.1.1.1) zs = take (length zs) (param_groups (self w))).
  { unfold zs, step_zip. fold ea. fold n.
    destruct (normalize n (a_grads ea)) as [ges|e]; [|reflexivity].
    destruct (normalize n (a_output_params ea)) as [oes|e]; [|reflexivity].
    apply zip_groups_prefix. }
  assert (Hlen : forall ges oes,
     normalize n (a_grads ea) = Ok ges -> normalize n (a_output_params ea) = Ok oes ->
     length zs = Nat.min (Nat.min n (length ges))
                   (Nat.min (length oes) (length (grad_norms_list n (a_grad_norms ea))))).
  { intros ges oes Hg Ho. unfold zs, step_zip. fold ea. fold n. rewrite Hg, Ho.
    apply zip_groups_prefix. }
  split; [exact Hpre|]. split; [exact Hlen|]. split.
  - intros Hflat.
    destruct (normalize n (a_grads ea)) as [ges|e] eqn:Eg.
    2:{ unfold zs, step_zip. fold ea. fold n. rewrite Eg. simpl. lia. }
    destruct (normalize n (a_output_params ea)) as [oes|e] eqn:Eo.
    2:{ unfold zs, step_zip. fold ea. fold n. rewrite Eg, Eo. simpl. lia. }
    rewrite (Hlen ges oes eq_refl eq_refl).
    assert (length ges = 1%nat); [|lia].
    destruct Hflat as [Hgen|(x & l & Hl & Hx)].
    + destruct (a_grads ea); try discriminate. injection Eg as <-. reflexivity.
    + rewrite Hl in Eg. simpl in Eg. rewrite Hx in Eg. injection Eg as <-. reflexivity.
  - intros undo r w' q Hs Hq.
    assert (Hnp : ~ processed (p_grad (closure_heap closure undo (heap w)))
                    (step_plan (self w) (closure_heap closure undo (heap w)) a) q).
    { intros (v & Hv & <- & _). apply until_sparse_subset in Hv.
      apply plan_groups_pid in Hv. destruct Hv as (z & Hz & Hp).
      apply (Hq z.1.1.1); [|exact Hp]. rewrite <- Hpre.
      apply list_elem_of_fmap. exists z. auto. }
    pose proof (_step_frame _ _ _ _ _ _ _ _ _ q Hs Hnp) as (Hst & Hev).
    split; [exact Hst|]. split; [|exact Hev].
    apply (_step_data _ _ _ _ _ _ _ _ _ q Hs Hnp).
Qed.

(** A group with [max_grad_norm > 0] whose gradient norm is absent raises
    TypeError before its iteration starts.  When it is the first group and no
    norms are passed, a pass fails without any change beyond its prologue,
    and a plain [step()] raises TypeError. *)
Theorem clipping_requires_grad_norms (closure : option closure_t) grads outs scale
    (w : world) g gs :
  param_groups (self w) = g :: gs ->
  num_gt (max_grad_norm g) (num_of_int 0) = true ->
  _amp_stash (self w) = None ->
  (forall ps ot gi ge oe loc (u : world),
     step_group ps scale ot gi g ge oe None loc u = (Raise TypeError, u)) /\
  (forall undo r w',
     _step closure grads outs scale None undo w = (r, w') ->
     is_ok r = false /\ w' = after_prologue closure undo w) /\
  step (loss := loss) None ArgNone ArgNone scale None w
  = (Raise TypeError,
     after_prologue None false (set_overflow 0 (add_event EvZero w))).
Proof.
  intros Hg Hpos Hst.
  assert (Hgrp : forall ps ot gi ge oe loc (u : world),
     step_group ps scale ot gi g ge oe None loc u = (Raise TypeError, u)).
  { intros. unfold step_group, bind, lift, combined_scale. rewrite Hpos. reflexivity. }
  split; [exact Hgrp|]. split.
  - intros undo r w' Hs. apply _step_inv in Hs.
    destruct Hs as [Hl|(ges & oes & rl & Eg & Eo & El & _ & Hr)]; [exact Hl|].
    unfold effective_args, mk_args in *. rewrite Hst in *. simpl in *.
    rewrite Hg in *. simpl length in *.
    apply normalize_nonempty in Eg as Hge. apply normalize_nonempty in Eo as Hoe.
    destruct ges as [|ge ges]; [congruence|]. destruct oes as [|oe oes]; [congruence|].
    simpl in El. unfold bind in El. rewrite Hgrp in El. injection El as <- <-.
    subst r. split; reflexivity.
  - unfold step, _step, prologue, bind, log, modify, get, ret, lift. simpl.
    unfold effective_args. simpl. rewrite Hst. simpl. rewrite Hg. simpl.
    unfold bind. rewrite Hgrp. reflexivity.
Qed.

(** *** The closure *)

(** [step] evaluates the closure once, when it enters the forward pass and
    before any kernel call, and not again in the undo pass; when the closure
    raises, [step] raises the same exception and nothing else has
    happened. *)
Theorem closure_evaluated_once (closure : option closure_t) grads outs scale gns
    (w : world) r w' :
  step closure grads outs scale gns w = (r, w') ->
  (exists later,
     trace w' = later ++ prologue_events closure false
                  ++ EvEnter false :: EvZero :: trace w /\
     Forall (fun ev => ev <> EvClosure) later) /\
  (forall c e, closure = Some c -> (c (heap w)).1 = Raise e ->
     r = Raise e /\
     w' = after_prologue closure false (set_overflow 0 (add_event EvZero w))).
Proof.
  intros Hs. split.
  - apply step_inv in Hs. destruct Hs as (r1 & w1 & E1 & Hrest).
    apply (_step_touches (fun _ => True) (fun _ _ => True)) in E1; auto.
    destruct E1 as [_ _ _ (evs1 & Ht1 & Hk1)]. simpl in Ht1.
    assert (Hne : forall evs : list event,
               Forall (kev (fun _ => True) (fun _ _ => True)) evs ->
               Forall (fun ev => ev <> EvClosure) evs).
    { intros evs Hk. eapply List.Forall_impl; [|exact Hk].
      intros ev Hev ->. exact Hev. }
    destruct Hrest as [[-> _]|(_ & r2 & E2 & _)].
    + exists evs1. split; [exact Ht1|auto].
    + apply (_step_touches (fun _ => True) (fun _ _ => True)) in E2; auto.
      destruct E2 as [_ _ _ (evs2 & Ht2 & Hk2)]. simpl in Ht2.
      exists (evs2 ++ EvEnter true :: evs1). split.
      * rewrite Ht2, Ht1. rewrite <- app_assoc. reflexivity.
      * apply Forall_app. split; [auto|]. constructor; [discriminate|auto].
  - intros c e -> Hc. revert Hs.
    unfold step, _step, prologue, bind, log, modify, get, ret, run_closure. simpl.
    destruct (c (heap w)) as [rc h'] eqn:Ec. simpl in Hc. subst rc. simpl.
    intros [= <- <-]. split; [reflexivity|].
    unfold after_prologue, closure_heap. simpl. rewrite Ec. reflexivity.
Qed.

(** *** The kernel calls *)

(** Every kernel call of an unbatched pass is [adam] in the forward pass and
    [adam_undo] in the undo pass, for a parameter of one of the paired
    groups, with that group's [lr], [betas], [eps] and [weight_decay], its
    combined scale, 1 or 0 for its [bias_correction], the instance's
    [eps_mode], and a step value between the parameter's counter before the
    pass (exclusive) and after it (inclusive) in the forward pass, and the
    other way round in the undo pass: for a parameter visited once, the
    incremented counter in both. *)
Theorem kernel_call_arguments (closure : option closure_t) grads outs scale gns undo
    (w : world) r w' :
  let a := mk_args grads outs scale gns in
  let ps := pass_of (self w) undo in
  _use_multi_tensor (self w) = false ->
  _step closure grads outs scale gns undo w = (r, w') ->
  exists evs,
    trace w' = evs ++ trace (after_prologue closure undo w) /\
    Forall (call_of ps (step_zip (self w) a) (a_scale (effective_args (self w) a))
              (eps_mode (self w)) (lower ps w w') (upper ps w w')) evs.
Proof.
  intros a ps Hmt Hs.
  assert (Hps : ps <> Forward true).
  { unfold ps, pass_of. rewrite Hmt. destruct undo; discriminate. }
  apply (_step_J (issues ps (step_zip (self w) a) (a_scale (effective_args (self w) a)))
           (fun gi g cs => exists z, step_zip (self w) a !! gi = Some z /\ z.1.1.1 = g /\
              combined_scale g (a_scale (effective_args (self w) a)) z.2 = Ok cs)) in Hs.
  - destruct Hs as (_ & _ & evs & Ht & Hf). exists evs. split; [exact Ht|exact Hf].
  - apply issues_refl.
  - apply issues_trans.
  - intros u m. apply issues_same; reflexivity.
  - intros u m. apply issues_same; reflexivity.
  - intros gi g cs p grad o loc u r0 u' HG Hp Hb.
    eapply param_body_issues; eauto.
  - intros gi g cs loc u r0 u' _ Hf. contradiction.
  - intros i z cs Hz Hc. exists z. auto.
Qed.

(** An unbatched pass that returns has issued exactly one kernel call per
    visit with a gradient, group by group and parameter by parameter in the
    order of the iteration, and no other call. *)
Theorem kernel_calls_follow_visits (closure : option closure_t) grads outs scale gns undo
    (w : world) v w' :
  let a := mk_args grads outs scale gns in
  let h := closure_heap closure undo (heap w) in
  _use_multi_tensor (self w) = false ->
  _step closure grads outs scale gns undo w = (Ok v, w') ->
  exists evs,
    trace w' = evs ++ trace (after_prologue closure undo w) /\
    map event_target (rev evs)
    = map Some (targets (p_grad h) 0 (plan_groups h (step_zip (self w) a))).
Proof.
  intros a h Hmt Hs. apply _step_inv in Hs.
  destruct Hs as [[? _]|(ges & oes & rl & Eg & Eo & El & _ & Hr)]; [discriminate|].
  destruct rl as [loc'|e]; [|discriminate].
  apply group_loop_target in El.
  - destruct El as (evs & Ht & Hm). exists evs. split; [exact Ht|].
    unfold step_zip. fold a in Eg, Eo. rewrite Eg, Eo.
    rewrite map_rev, Hm, <- map_rev, rev_involutive. reflexivity.
  - unfold pass_of. rewrite Hmt. destruct undo; discriminate.
  - apply zip_groups_tail_gval; eauto using normalize_tail.
Qed.

(** For a parameter that an unbatched pass visits with a gradient exactly
    once, a pass that returns has run the kernel once: on the contents and
    the moment buffers the parameter had when the iteration began (zero
    moments when it had no state), with the gradient of that visit, the
    scalars of its group, and the counter plus one as step value in the
    forward pass, the counter itself in the undo pass.  The parameter's
    contents and moment buffers are then what the kernel returned, and its
    counter is one higher in the forward pass, one lower in the undo pass. *)
Theorem update_is_kernel_result (closure : option closure_t) grads outs scale gns undo
    (w : world) v w' q :
  let a := mk_args grads outs scale gns in
  let h := closure_heap closure undo (heap w) in
  let ps := pass_of (self w) undo in
  _use_multi_tensor (self w) = false ->
  _step closure grads outs scale gns undo w = (Ok v, w') ->
  bearing_count (p_grad h) (step_plan (self w) h a) q = 1%nat ->
  exists i z cs u gr,
    step_zip (self w) a !! i = Some z /\
    combined_scale z.1.1.1 (a_scale (effective_args (self w) a)) z.2 = Ok cs /\
    u ∈ step_plan (self w) h a /\ u.1.1 = q /\ visit_grad (p_grad h) u = Some gr /\
    updated_by ps z.1.1.1 cs (after_prologue closure undo w) w' q gr.
Proof.
  intros a h ps Hmt Hs Hc. apply _step_inv in Hs.
  destruct Hs as [[? _]|(ges & oes & rl & Eg & Eo & El & _ & Hr)]; [discriminate|].
  destruct rl as [loc'|e]; [|discriminate].
  unfold step_plan, step_zip in *. fold a in Eg, Eo, El. rewrite Eg, Eo in *.
  apply group_loop_updated with (q := q) in El.
  - destruct El as [_ Hup]. apply Hup. exact Hc.
  - unfold pass_of. rewrite Hmt. destruct undo; discriminate.
  - apply zip_groups_tail_gval; eauto using normalize_tail.
Qed.

(** The tensor lists of a group's batched call hold, in the order of the
    iteration, one entry per visit with a gradient: the parameter's contents,
    its two moment buffers as the iteration found or created them, the
    gradient (supplied or attached) and, in the fifth list, which exists when
    [output_params] is truthy, the output buffers that are not [None].  The
    call carries the group's [lr], [eps], [weight_decay], combined scale and
    bias-correction flag and the instance's [eps_mode]; its [betas] are the
    group's when a parameter of the group was visited with a gradient, and
    those left by an earlier group otherwise. *)
Theorem batched_call_contents scale ot gi (g : group) ge oe gn loc (w : world) r w'
    tls h :
  let V := group_visits (heap w) g ge oe in
  let pg := p_grad (heap w) in
  let BV := List.filter (bearing pg) V in
  step_group (Forward true) scale ot gi g ge oe gn loc w = (r, w') ->
  trace w' = EvAdamMt gi tls h :: trace w ->
  tls = batch ot w BV /\
  Forall (fun v => is_Some (visit_grad pg v)) BV /\
  combined_scale g scale gn = Ok (h_combined_scale h) /\
  h_lr h = lr g /\ h_eps h = eps g /\ h_weight_decay h = weight_decay g /\
  h_bias_correction h = bias_flag g /\ h_eps_mode h = eps_mode (self w) /\
  match last_bearing pg None V with
  | Some _ => (h_beta1 h, h_beta2 h) = betas g
  | None => loc_betas loc = Some (h_beta1 h, h_beta2 h)
  end.
Proof.
  intros V pg BV Hs Htr. apply step_group_inv in Hs.
  destruct Hs as [[-> _]|(cs & r1 & w1 & Ecs & Erun & Hrest)].
  { exfalso. eapply cons_not_self. exact Htr. }
  fold V in Erun.
  apply run_visits_mt_silent in Erun as Hsil. destruct Hsil as [Htr1 _].
  change (trace w1 = trace w) in Htr1.
  destruct r1 as [loc1|e].
  2:{ destruct Hrest as [_ ->]. rewrite Htr1 in Htr.
      exfalso. eapply cons_not_self. exact Htr. }
  destruct Hrest as (rm & Em & _).
  apply (run_visits_touches (fun _ => True) (fun _ _ => True)) in Erun as Hto;
    auto using group_locals_refs, refs_in_True.
  destruct Hto as ([Hcfg _ _ _ _] & _ & Hrefs). specialize (Hrefs loc1 eq_refl).
  change (config (self w1) = config (self w)) in Hcfg.
  apply run_visits_locals in Erun as Hloc.
  change (p_grad (heap (strip w))) with pg in Hloc.
  apply (run_visits_batch ot _ _ _ _ (strip w) V []) in Erun;
    [|apply cols_agree_refl|reflexivity|destruct ot; reflexivity].
  destruct Erun as [Htl Hsome]. simpl in Htl.
  change (p_grad (heap (strip w))) with pg in Htl, Hsome. fold BV in Htl, Hsome.
  apply (mt_call_spec (fun _ => True) (fun _ _ => True)) in Em; auto.
  destruct Em as (_ & _ & _ & [[Hno _]|(b & p0 & Eb & Ep & Hev)] & _).
  { rewrite Hno, Htr1 in Htr. exfalso. eapply cons_not_self. exact Htr. }
  rewrite Htr, Htr1 in Hev. injection Hev as -> ->.
  assert (Hem : eps_mode (self w1) = eps_mode (self w)).
  { unfold config in Hcfg. congruence. }
  split; [exact Htl|]. split; [exact Hsome|]. simpl. rewrite Hem.
  repeat (split; [first [reflexivity|assumption]|]).
  destruct (last_bearing pg None V).
  - destruct Hloc as [_ Hb]. rewrite Eb in Hb. injection Hb as ->.
    destruct (betas g); reflexivity.
  - destruct Hloc as [_ Hb]. simpl in Hb. rewrite <- Hb, Eb. destruct b; reflexivity.
Qed.

(** *** The undo pass *)

(** [_step] with [undo] set fails on its first assertion when undo was not
    enabled, on its second in batched mode, in both cases before anything but
    the entry is recorded; it never evaluates the closure (the call is the
    same with the closure left out); and when it returns, it returns [None],
    undo is enabled and batched mode is off. *)
Theorem undo_pass_guards (closure : option closure_t) grads outs scale gns (w : world) :
  (_allow_undo (self w) = false ->
   _step closure grads outs scale gns true w
   = (Raise (AssertionError undo_unsupported_msg), add_event (EvEnter true) w)) /\
  (_allow_undo (self w) = true -> _use_multi_tensor (self w) = true ->
   _step closure grads outs scale gns true w
   = (Raise (AssertionError revert_mt_msg), add_event (EvEnter true) w)) /\
  _step closure grads outs scale gns true w
  = _step (loss := loss) None grads outs scale gns true w /\
  (forall v w', _step closure grads outs scale gns true w = (Ok v, w') ->
     v = RNone /\ _allow_undo (self w) = true /\ _use_multi_tensor (self w) = false).
Proof.
  split; [|split; [|split]].
  - intros Hu. unfold _step, prologue, bind, log, modify, get, py_assert. simpl.
    rewrite Hu. reflexivity.
  - intros Hu Hm. unfold _step, prologue, bind, log, modify, get, py_assert. simpl.
    rewrite Hu, Hm. reflexivity.
  - reflexivity.
  - intros v w' Hs. split.
    + apply _step_inv in Hs.
      destruct Hs as [[? _]|(ges & oes & rl & _ & _ & _ & _ & Hr)]; [discriminate|].
      destruct rl; [|discriminate]. destruct Hr as (v0 & [= <-] & Hv & _). auto.
    + apply _step_ok in Hs. destruct Hs as (_ & _ & Hu). apply Hu. reflexivity.
Qed.

(** The undo pass writes neither the overflow register nor an output
    buffer.  So after [step], undone or not, the register (and what
    [peek_overflow] returns) is what the forward pass left, and so are the
    output buffers. *)
Theorem undo_keeps_register_and_outputs (closure : option closure_t) grads outs scale gns
    (w : world) :
  (forall r w', _step closure grads outs scale gns true w = (r, w') ->
     _overflow_buf (self w') = _overflow_buf (self w) /\
     out_bufs (heap w') = out_bufs (heap w)) /\
  (forall r w', step closure grads outs scale gns w = (r, w') ->
     exists r1 w1,
       _step closure grads outs scale gns false
         (set_overflow 0 (add_event EvZero w)) = (r1, w1) /\
       _overflow_buf (self w') = _overflow_buf (self w1) /\
       out_bufs (heap w') = out_bufs (heap w1) /\
       (peek_overflow w').1 = Ok (_overflow_buf (self w1))).
Proof.
  split.
  - intros r w' Hs. apply _step_undo_keeps in Hs. exact Hs.
  - intros r w' Hs. apply step_inv in Hs. destruct Hs as (r1 & w1 & E1 & Hrest).
    exists r1, w1. split; [exact E1|].
    destruct Hrest as [[-> _]|(_ & r2 & E2 & _)]; [repeat split|].
    apply _step_undo_keeps in E2. destruct E2 as [Ho Hb].
    unfold peek_overflow, bind, get, ret. simpl. rewrite Ho, Hb. repeat split.
Qed.

(** A generator passed for [grads] is consumed by the forward pass.  When it
    yields no more gradients than the first group has parameters, the undo
    pass that follows finds it exhausted and changes nothing but the record
    of its entry: after [step] the instance and the heap are as the forward
    pass left them, whatever the overflow register says. *)
Theorem generator_gradients_not_undone (closure : option closure_t) gid scale gns
    (w : world) g0 gs its :
  _amp_stash (self w) = None ->
  param_groups (self w) = g0 :: gs ->
  gen_grads (closure_heap closure false (heap w)) !! gid = Some its ->
  (length its <= length (params g0))%nat ->
  (forall v1 w1 r2 w2,
     _step closure (ArgGenerator gid) ArgNone scale gns false w = (Ok v1, w1) ->
     _step closure (ArgGenerator gid) ArgNone scale gns true w1 = (r2, w2) ->
     w2 = add_event (EvEnter true) w1) /\
  (forall r w',
     step closure (ArgGenerator gid) ArgNone scale gns w = (r, w') ->
     exists r1 w1,
       _step closure (ArgGenerator gid) ArgNone scale gns false
         (set_overflow 0 (add_event EvZero w)) = (r1, w1) /\
       self w' = self w1 /\ heap w' = heap w1).
Proof.
  intros Hst Hg Hgen Hlen.
  assert (Hpair : forall (u : world) v1 w1 r2 w2,
     _amp_stash (self u) = None -> param_groups (self u) = g0 :: gs ->
     gen_grads (closure_heap closure false (heap u)) !! gid = Some its ->
     _step closure (ArgGenerator gid) ArgNone scale gns false u = (Ok v1, w1) ->
     _step closure (ArgGenerator gid) ArgNone scale gns true w1 = (r2, w2) ->
     w2 = add_event (EvEnter true) w1).
  { intros u v1 w1 r2 w2 Hstu Hgu Hgenu Hf Hu.
    apply _step_trace in Hf as Hc. destruct Hc as [Hc _].
    destruct (config_step_zip (self u) (self w1)
                (mk_args (ArgGenerator gid) ArgNone scale gns) Hc) as [Hz _].
    apply _step_groups in Hu.
    destruct Hu as [[_ ->]|(rl & Hl)]; [reflexivity|].
    rewrite Hz, (step_zip_generator (self u) gid scale gns g0 gs Hstu Hgu) in Hl.
    apply _step_inv in Hf.
    destruct Hf as [[? _]|(ges & oes & rf & Eg & Eo & El & _ & Hr)]; [discriminate|].
    destruct rf as [locf|e]; [|discriminate].
    rewrite group_loop_zip in El.
    unfold effective_args, mk_args in Eg, Eo, El. rewrite Hstu in Eg, Eo, El.
    simpl in Eg, Eo, El. injection Eg as <-. injection Eo as <-.
    rewrite Hgu in El. simpl in El.
    destruct (grad_norms_list (S (length gs)) gns) as [|gn gnl] eqn:Egn.
    { simpl in Hl. injection Hl as _ <-. reflexivity. }
    simpl in El. unfold bind in El.
    destruct (step_group _ _ _ _ g0 (GGen gid) (GVal VNone) gn no_locals
                (after_prologue closure false u)) as [[loc1|e] u1] eqn:Es;
      [|discriminate].
    rewrite zip_groups_nil_grads in El. injection El as _ <-.
    apply (step_group_gen _ _ _ _ _ _ _ _ _ _ _ its) in Es; [|exact Hgenu].
    rewrite drop_ge in Es by exact Hlen.
    simpl in Hl. unfold bind in Hl.
    destruct (step_group Undo _ _ _ g0 (GGen gid) (GVal VNone) gn no_locals
                (after_prologue closure true u1)) as [[loc2|e] u2] eqn:Eu;
      apply step_group_exhausted in Eu; try exact Es; subst u2;
      injection Hl as _ <-; reflexivity. }
  split.
  - intros v1 w1 r2 w2. apply Hpair; assumption.
  - intros r w' Hs. apply step_inv in Hs. destruct Hs as (r1 & w1 & E1 & Hrest).
    exists r1, w1. split; [exact E1|].
    destruct Hrest as [[-> _]|(Hok & r2 & E2 & _)]; [split; reflexivity|].
    destruct r1 as [v1|e]; [|discriminate].
    rewrite (Hpair (set_overflow 0 (add_event EvZero w)) _ _ _ _ Hst Hg Hgen E1 E2).
    split; reflexivity.
Qed.

(** *** What a call leaves as it is *)

(** [step] changes neither the flags, [eps_mode], the scale adjustment, the
    parameter groups nor the stash of the instance, and no attached gradient
    (beyond what the closure did). *)
Theorem step_keeps_configuration (closure : option closure_t) grads outs scale gns
    (w : world) r w' :
  step closure grads outs scale gns w = (r, w') ->
  config (self w') = config (self w) /\
  p_grad (heap w') = p_grad (closure_heap closure false (heap w)).
Proof.
  intros Hs. apply step_inv in Hs. destruct Hs as (r1 & w1 & E1 & Hrest).
  apply _step_trace in E1 as Hc1. destruct Hc1 as [Hc1 _].
  apply _step_p_grad in E1 as Hg1.
  destruct Hrest as [[-> _]|(_ & r2 & E2 & _)]; [split; assumption|].
  apply _step_trace in E2 as Hc2. destruct Hc2 as [Hc2 _].
  apply _step_p_grad in E2 as Hg2. simpl in Hg2.
  split; [rewrite Hc2; exact Hc1|rewrite Hg2; exact Hg1].
Qed.

(** A parameter that a pass does not visit with a gradient before the
    first sparse gradient keeps its contents [p.data]; so does, through a
    whole [step], a parameter without attached gradient when no gradients are
    supplied. *)
Theorem unprocessed_parameter_keeps_data (closure : option closure_t) grads outs scale gns
    (w : world) (q : pid) :
  let a := mk_args grads outs scale gns in
  (forall undo r w',
     let h := closure_heap closure undo (heap w) in
     _step closure grads outs scale gns undo w = (r, w') ->
     ~ processed (p_grad h) (step_plan (self w) h a) q ->
     p_data (heap w') q = p_data h q) /\
  (forall undo r w',
     let h := closure_heap closure undo (heap w) in
     _step closure grads outs scale gns undo w = (r, w') ->
     p_grad h !! q = None ->
     (forall v, v ∈ step_plan (self w) h a -> v.1.1 = q -> v.1.2 = VNone) ->
     p_data (heap w') q = p_data h q) /\
  (forall r w',
     let h := closure_heap closure false (heap w) in
     step closure grads outs scale gns w = (r, w') ->
     a_grads (effective_args (self w) a) = ArgNone ->
     p_grad h !! q = None ->
     p_data (heap w') q = p_data h q).
Proof.
  intros a. split; [|split].
  - intros undo r w' h Hs Hq. eapply _step_data; eauto.
  - intros undo r w' h Hs Hpg Habs. eapply _step_data; [exact Hs|].
    apply absent_not_processed; assumption.
  - intros r w' h Hs Ha Hpg.
    apply step_inv in Hs. destruct Hs as (r1 & w1 & E1 & Hrest).
    assert (H1 : p_data (heap w1) q = p_data h q).
    { apply (_step_data _ _ _ _ _ _ _ _ _ q E1).
      apply absent_not_processed; [exact Hpg|].
      intros v Hv _. eapply plan_absent; eauto. }
    destruct Hrest as [[-> _]|(_ & r2 & E2 & _)]; [exact H1|].
    apply _step_trace in E1 as Hc1. destruct Hc1 as [Hc1 _].
    apply _step_p_grad in E1 as Hg1.
    rewrite <- H1.
    apply (_step_data _ _ _ _ _ _ _ _ _ q E2).
    simpl. apply absent_not_processed; [rewrite Hg1; exact Hpg|].
    intros v Hv _. apply (plan_absent (self w1) (heap w1) a v); [|exact Hv].
    destruct (config_step_zip (self w) (self w1) a Hc1) as [_ ->]. exact Ha.
Qed.

(** No pass and no [step] removes a state entry.  A pass that returns leaves
    an entry for exactly the parameters that had one or were visited with a
    gradient; so the undo of a parameter's first step does not remove the
    entry that step created. *)
Theorem state_entries_persist (closure : option closure_t) grads outs scale gns
    (w : world) :
  let a := mk_args grads outs scale gns in
  (forall undo r w' q,
     _step closure grads outs scale gns undo w = (r, w') ->
     is_Some (state (self w) !! q) -> is_Some (state (self w') !! q)) /\
  (forall undo v w' q,
     let h := closure_heap closure undo (heap w) in
     _step closure grads outs scale gns undo w = (Ok v, w') ->
     (is_Some (state (self w') !! q) <->
      is_Some (state (self w) !! q) \/
      (0 < bearing_count (p_grad h) (step_plan (self w) h a) q)%nat)) /\
  (forall r w' q,
     step closure grads outs scale gns w = (r, w') ->
     is_Some (state (self w) !! q) -> is_Some (state (self w') !! q)).
Proof.
  intros a. split; [|split].
  - intros undo r w' q Hs. apply _step_entries in Hs. destruct Hs as [Hk _]. apply Hk.
  - intros undo v w' q h Hs. apply _step_entries in Hs. destruct Hs as [_ Hc].
    apply Hc. reflexivity.
  - intros r w' q Hs Hq. apply step_inv in Hs. destruct Hs as (r1 & w1 & E1 & Hrest).
    apply _step_entries in E1. destruct E1 as [Hk1 _].
    destruct Hrest as [[-> _]|(_ & r2 & E2 & _)]; [apply Hk1, Hq|].
    apply _step_entries in E2. destruct E2 as [Hk2 _]. apply Hk2, Hk1, Hq.
Qed.

(** When nothing is supplied, no parameter has an attached gradient and no
    group clips, [step] on an unbatched instance returns [None] and changes
    nothing: it zeroes the register, enters the forward pass and evaluates
    the closure.  On a batched instance with a group it raises
    UnboundLocalError for [beta1], at the batched call of the first
    group. *)
Theorem step_without_gradients (closure : option closure_t) scale (w : world) :
  let h := closure_heap closure false (heap w) in
  let w0 := set_overflow 0 (add_event EvZero w) in
  _amp_stash (self w) = None ->
  Forall (fun g : group => num_gt (max_grad_norm g) (num_of_int 0) = false)
    (param_groups (self w)) ->
  (forall g p, g ∈ param_groups (self w) -> p ∈ params g -> p_grad h !! p = None) ->
  (forall c, closure = Some c -> is_ok (c (heap w)).1 = true) ->
  (_use_multi_tensor (self w) = false ->
   step closure ArgNone ArgNone scale None w
   = (Ok RNone, after_prologue closure false w0)) /\
  (_use_multi_tensor (self w) = true -> param_groups (self w) <> [] ->
   step closure ArgNone ArgNone scale None w
   = (Raise (UnboundLocalError "beta1"), after_prologue closure false w0)).
Proof.
  intros h w0 Hst Hm Hp Hc.
  destruct (prologue_forward closure w0 Hc) as (rv & Hpro).
  assert (Hstep : _step closure ArgNone ArgNone scale None false w0
                  = match group_loop (Forward (_use_multi_tensor (self w))) scale false 0
                            (param_groups (self w))
                            (repeat (GVal VNone) (length (param_groups (self w))))
                            (repeat (GVal VNone) (length (param_groups (self w))))
                            (repeat None (length (param_groups (self w))))
                            no_locals (after_prologue closure false w0) with
                    | (Ok _, w') => (Ok rv, w')
                    | (Raise e, w') => (Raise e, w')
                    end).
  { rewrite _step_eq, Hpro. cbv zeta. unfold effective_args, mk_args. simpl.
    rewrite Hst. reflexivity. }
  split.
  - intros Hmt. unfold step, bind, log, modify, get, peek_overflow, ret. simpl.
    fold w0. rewrite Hstep, Hmt.
    rewrite group_loop_absent; [|discriminate|exact Hm|exact Hp].
    simpl. destruct (_allow_undo (self w)); reflexivity.
  - intros Hmt Hgs. unfold step, bind, log, modify, get, peek_overflow, ret. simpl.
    fold w0. rewrite Hstep, Hmt.
    destruct (param_groups (self w)) as [|g gs] eqn:Eg; [congruence|].
    simpl. unfold bind. inversion Hm; subst.
    rewrite step_group_absent; auto.
    intros p Hq. apply (Hp g); [left|exact Hq].
Qed.

(** A pass, batched or not, writes an output buffer only when the buffer is
    paired with a visit that has a gradient; when [output_params] is absent
    it writes none. *)
Theorem output_buffers_written (closure : option closure_t) grads outs scale gns undo
    (w : world) r w' :
  let a := mk_args grads outs scale gns in
  let h := closure_heap closure undo (heap w) in
  _step closure grads outs scale gns undo w = (r, w') ->
  (forall o, not_written (p_grad h) (step_plan (self w) h a) o ->
             out_bufs (heap w') o = out_bufs h o) /\
  (a_output_params (effective_args (self w) a) = ArgNone ->
   forall o, out_bufs (heap w') o = out_bufs h o).
Proof.
  intros a h Hs.
  assert (Hmain : forall o, not_written (p_grad h) (step_plan (self w) h a) o ->
                            out_bufs (heap w') o = out_bufs h o).
  { intros o Hn. apply _step_inv in Hs.
    destruct Hs as [[_ ->]|(ges & oes & rl & Eg & Eo & El & _)]; [reflexivity|].
    unfold step_plan, step_zip in Hn. fold a in Eg, Eo, El. rewrite Eg, Eo in Hn.
    apply (group_loop_outs _ _ _ o) in El; [exact El| |exact Hn].
    apply zip_groups_tail_gval; eauto using normalize_tail. }
  split; [exact Hmain|].
  intros Hnone o. apply Hmain. intros v Hv _ Hvo.
  rewrite (plan_absent_outs _ _ _ _ Hnone Hv) in Hvo. discriminate.
Qed.


End Properties.

(** ** The properties on concrete inputs *)

(** C1, counterexample. On [ex_two_groups] both parameters have a
    gradient.  With a flat gradient list, and likewise with a list of one
    gradient norm, the call returns and the forward pass has worked on the
    first group only: parameter 2 of the second group has no state and no
    kernel call. *)
Lemma short_arguments_leave_groups_out :
  let flat := ArgList [VLeaf (dense 0.5%float)] in
  let r1 := step (loss := float) None flat ArgNone 1%float None ex_two_groups in
  let r2 := step (loss := float) None ArgNone ArgNone 1%float (Some [None]) ex_two_groups in
  length (param_groups (self ex_two_groups)) = 2%nat /\
  p_grad (heap ex_two_groups) !! 2%positive = Some (dense 0.25%float) /\
  (r1.1 = Ok RNone /\ state (self r1.2) !! 2%positive = None /\
   exists h, trace r1.2 = [EvAdam 0 1%positive h; EvEnter false; EvZero]) /\
  (r2.1 = Ok RNone /\ state (self r2.2) !! 2%positive = None /\
   exists h, trace r2.2 = [EvAdam 0 1%positive h; EvEnter false; EvZero]).
Proof. vm_compute. repeat split; eexists; reflexivity. Qed.

(** C1 as amended, on [ex_overflow]: the forward pass leaves the register
    set, undo is enabled, and the undo pass follows it. *)
Lemma step_orchestration_witness :
  let w := ex_overflow in
  exists w1 und,
    (fwd0 None false (set_overflow 0 (add_event EvZero w))).2 = w1 /\
    _overflow_buf (self w1) = 1 /\
    trace (step0 None w).2 = und ++ EvEnter true :: trace w1 /\
    Forall inside_pass und.
Proof.
  intros w.
  destruct (step_orchestration (loss := float) None ArgNone ArgNone 1%float None w)
    as (r1 & w1 & fwd & _ & E1 & _ & _ & _ & _ & _ & _ & _ & Hif).
  assert (Hw1 : w1 = (fwd0 None false (set_overflow 0 (add_event EvZero w))).2)
    by (unfold fwd0; rewrite E1; reflexivity).
  assert (Hr1 : r1 = (fwd0 None false (set_overflow 0 (add_event EvZero w))).1)
    by (unfold fwd0; rewrite E1; reflexivity).
  assert (Hc : is_ok r1 && _allow_undo (self w)
               && negb (_overflow_buf (self w1) =? 0) = true)
    by (rewrite Hr1, Hw1; vm_compute; reflexivity).
  rewrite Hc in Hif. destruct Hif as (r2 & w2 & und & E2 & Ht & Hin & Hs).
  exists w1, und. split; [auto|]. split; [rewrite Hw1; vm_compute; reflexivity|].
  split; [|exact Hin]. unfold step0. rewrite Hs. exact Ht.
Defined.

(** C2 on binary64 floats: no clipping configured; a norm of 16 at scale 2
    against [max_grad_norm = 2] clips; a norm of 1 does not. *)
Lemma combined_scale_spec_witness :
  let g := ex_group [] 2%float in
  combined_scale (ex_group [] 0%float) 2%float (Some 16%float) = Ok 2%float /\
  num_gt (clip_of 16 2 2) (num_of_int 1) = true /\
  combined_scale g 2%float (Some 16%float)
    = Ok (PrimFloat.mul (clip_of 16 2 2) 2) /\
  num_le (clip_of 1 2 2) (num_of_int 1) = true /\
  combined_scale g 2%float (Some 1%float) = Ok 2%float.
Proof.
  intros g.
  split; [apply (combined_scale_spec (loss := float) (ex_group [] 0%float) 2%float
                  (Some 16%float));
          reflexivity|].
  split; [reflexivity|].
  split.
  - destruct (combined_scale_spec (loss := float) g 2%float (Some 16%float))
      as (_ & H2 & _).
    apply (H2 16%float 8%float (clip_of 16 2 2)); reflexivity.
  - split; [reflexivity|].
    destruct (combined_scale_spec (loss := float) g 2%float (Some 1%float))
      as (_ & H2 & _).
    apply (H2 1%float 0.5%float (clip_of 1 2 2)); reflexivity.
Defined.

(** C3, counterexample. Two calls that return.  On [ex_twice] parameter 1
    has a gradient and is listed twice: its counter goes from 0 to 2.  On
    [ex_two_groups] with one gradient norm supplied, parameter 2 has a
    gradient and its group is not paired: its counter stays 0. *)
Lemma counter_change_differs_from_one :
  let r1 := step0 None ex_twice in
  let r2 := step (loss := float) None ArgNone ArgNone 1%float (Some [None]) ex_two_groups in
  (p_grad (heap ex_twice) !! 1%positive = Some (dense 0.5%float) /\
   r1.1 = Ok RNone /\
   step_counter ex_twice 1%positive = 0 /\ step_counter r1.2 1%positive = 2) /\
  (p_grad (heap ex_two_groups) !! 2%positive = Some (dense 0.25%float) /\
   r2.1 = Ok RNone /\
   step_counter ex_two_groups 2%positive = 0 /\ step_counter r2.2 2%positive = 0).
Proof. vm_compute. repeat split. Qed.

(** C3 as amended, on [ex_one]: the counter of parameter 1 goes from 0 to 1
    in the forward pass and back to 0 in the undo pass. *)
Lemma step_counter_forward_undo_witness :
  let w := ex_one in
  let w1 := (fwd0 None false w).2 in
  let w2 := (fwd0 None true w1).2 in
  fwd0 None false w = (Ok RNone, w1) /\
  fwd0 None true w1 = (Ok RNone, w2) /\
  step_counter w 1%positive = 0 /\
  step_counter w1 1%positive = 1 /\
  step_counter w2 1%positive = 0.
Proof.
  intros w w1 w2.
  assert (H1 : fwd0 None false w = (Ok RNone, w1)) by (vm_compute; reflexivity).
  assert (H2 : fwd0 None true w1 = (Ok RNone, w2)) by (vm_compute; reflexivity).
  destruct (step_counter_forward_undo _ _ _ _ _ _ _ _ H1) as (_ & Hone & Hundo & _).
  split; [exact H1|]. split; [exact H2|]. split; [reflexivity|]. split.
  - rewrite (Hone 1%positive); reflexivity.
  - rewrite (Hundo RNone w2 H2); [reflexivity|]. vm_compute. reflexivity.
Defined.

(** C4 on [ex_overflow]: after a step that overflowed with undo enabled,
    [has_overflow] returns 1 once and 0 the next time. *)
Lemma overflow_accessors_witness :
  let w := ex_overflow in
  peek_overflow w = (Ok 0, w) /\
  (has_overflow (step0 None w).2).1 = Ok 1 /\
  (has_overflow (has_overflow (step0 None w).2).2).1 = Ok 0.
Proof.
  destruct (overflow_accessors (num := float) (tensor := float)) as (_ & Hp & Hh).
  split; [apply Hp|]. split; [vm_compute; reflexivity|].
  apply (Hh (step0 None ex_overflow).2).
Defined.





(** C7, the failing input. For a single group without parameters the
    three shapes of the empty gradient assignment are the empty flat list,
    the nested list holding one empty list, and the absent argument.  The
    nested and the absent shape are normalised to the same structure, one
    empty list, and [step] returns; the flat shape raises IndexError at
    [grads[0]], and so does [step]. *)
Theorem flat_empty_list_raises :
  let gs := param_groups (self ex_empty) in
  normalized (heap ex_empty) gs (ArgList []) = Raise IndexError /\
  normalized (heap ex_empty) gs (ArgList [VList []]) = Ok [[]] /\
  normalized (heap ex_empty) gs ArgNone = Ok [[]] /\
  (step (loss := float) None (ArgList []) ArgNone 1%float None ex_empty).1
    = Raise IndexError /\
  (step (loss := float) None (ArgList [VList []]) ArgNone 1%float None ex_empty).1
    = Ok RNone /\
  (step (loss := float) None ArgNone ArgNone 1%float None ex_empty).1 = Ok RNone.
Proof. vm_compute. repeat split. Qed.

(** The three shapes on a group of two parameters. *)
Lemma normalizer_shapes_witness :
  let gs := [ex_group [1%positive; 2%positive] 0%float] in
  let A := [[Some (dense 0.5%float); None]] in
  let h := ex_store [] in
  normalized h gs (ArgList [VList [VLeaf (dense 0.5%float); VNone]])
    = Ok [[VLeaf (dense 0.5%float); VNone]] /\
  normalized h gs (ArgList [VLeaf (dense 0.5%float); VNone])
    = Ok [[VLeaf (dense 0.5%float); VNone]] /\
  normalized h gs ArgNone = Ok [[VNone; VNone]].
Proof.
  intros gs A h.
  destruct (normalizer_shapes h gs A) as (Hn & Hf & _ & Ha).
  - repeat constructor.
  - discriminate.
  - split; [exact Hn|]. split; [|exact Ha].
    apply (Hf [Some (dense 0.5%float); None]); [reflexivity|discriminate].
Defined.

(** C8 on [ex_one] with a closure that returns 7: [_step] returns the loss,
    [step] returns [None]. *)
Lemma step_returns_none_witness :
  step0 (Some ex_closure) ex_one
    = (Ok RNone, (step0 (Some ex_closure) ex_one).2) /\
  (fwd0 (Some ex_closure) false (set_overflow 0 (add_event EvZero ex_one))).1
    = Ok (RLoss 7%float).
Proof.
  assert (Hs : step0 (Some ex_closure) ex_one
               = (Ok RNone, (step0 (Some ex_closure) ex_one).2))
    by (vm_compute; reflexivity).
  split; [exact Hs|].
  destruct (step_returns_none _ _ _ _ _ _ _ _ Hs) as [_ Hc].
  destruct (Hc ex_closure eq_refl) as (l & w1 & Hl & Hf).
  unfold fwd0. rewrite Hf. simpl. injection Hl as <-. reflexivity.
Defined.

(** C9 on the first group of [ex_batched]: the counters end at 6 and 3, and
    the one batched call carries step 3, the counter of parameter 2. *)
Lemma batched_step_value_witness :
  step_counter ex_group_run.2 1%positive = 6 /\
  step_counter ex_group_run.2 2%positive = 3 /\
  exists tls h, trace ex_group_run.2 = [EvAdamMt 0 tls h] /\ h_step h = 3.
Proof.
  split; [vm_compute; reflexivity|]. split; [vm_compute; reflexivity|].
  destruct (batched_step_value 1%float false 0
              (ex_group [1%positive; 2%positive] 0%float)
              (GVal VNone) (GVal VNone) None ex_locals ex_batched
              ex_group_run.1 ex_group_run.2) as [[[_ Hf]|(tls & h & Ht & Hm)] _].
  - unfold ex_group_run. destruct (step_group _ _ _ _ _ _ _ _ _ _); reflexivity.
  - vm_compute in Hf. discriminate.
  - exists tls, h. split; [exact Ht|].
    change (last_bearing (p_grad (heap ex_batched)) None
              (group_visits (heap ex_batched)
                 (ex_group [1%positive; 2%positive] 0%float)
                 (GVal VNone) (GVal VNone)))
      with (Some 2%positive) in Hm.
    destruct Hm as [-> _]. vm_compute. reflexivity.
Defined.

(** A group in which no parameter has a gradient: with nothing bound yet
    the batched call raises UnboundLocalError; after a group that bound
    [state], the call goes out with that group's step value. *)
Lemma batched_group_without_gradients :
  (step_group (Forward true) 1%float false 0 (ex_group [3%positive] 0%float)
     (GVal VNone) (GVal VNone) None ex_locals ex_batched).1
    = Raise (UnboundLocalError "beta1") /\
  exists tls h,
    hd_error (trace (step0 None ex_batched).2) = Some (EvAdamMt 1 tls h) /\
    h_step h = 3 /\
    step_counter (step0 None ex_batched).2 3%positive = 0.
Proof. vm_compute. split; [reflexivity|]. eexists _, _. repeat split. Qed.

(** C10 on [ex_one]: parameter 2 has no gradient and still has no state
    after a forward pass and after a whole [step]. *)
Lemma absent_gradient_skipped_witness :
  let w := ex_one in
  p_grad (heap w) !! 2%positive = None /\
  state (self (fwd0 None false w).2) !! 2%positive = None /\
  state (self (step0 None w).2) !! 2%positive = None.
Proof.
  intros w. split; [reflexivity|].
  destruct (absent_gradient_skipped (loss := float) None ArgNone ArgNone 1%float None
              w 2%positive) as [Hpass Hstep].
  split.
  - destruct (Hpass false (fwd0 None false w).1 (fwd0 None false w).2) as [Hs _].
    + unfold fwd0. destruct (_step _ _ _ _ _ _ _); reflexivity.
    + reflexivity.
    + intros v Hv _. vm_compute in Hv. apply list_elem_of_In in Hv.
      destruct Hv as [<-|[<-|[]]]; reflexivity.
    + etransitivity; [exact Hs|reflexivity].
  - destruct (Hstep (step0 None w).1 (step0 None w).2) as [Hs _].
    + unfold step0. destruct (step _ _ _ _ _ _); reflexivity.
    + reflexivity.
    + reflexivity.
    + etransitivity; [exact Hs|reflexivity].
Defined.

(** ** The further properties on concrete inputs *)

(** The order of the constructor's failures: without the extension module
    the constructor raises [ModuleNotFoundError] although [amsgrad] and
    batched mode with undo are asked for as well; [amsgrad] is refused
    although batched mode with undo is asked for as well; the base class's
    refusal of an empty parameter list comes after the warning. *)
Lemma init_failure_order_witness :
  __init__ (B := ref_backend) ex_env_missing [ex_group [1%positive] 0%float] 0.5%float
    true (0.5%float, 0.75%float) 0.25%float false 0%float 0%float true true 1%float true
  = ([], Raise (ModuleNotFoundError "No module named 'fused_adam_cuda'")) /\
  __init__ (B := ref_backend) (ex_env true) [ex_group [1%positive] 0%float] 0.5%float
    true (0.5%float, 0.75%float) 0.25%float false 0%float 0%float true true 1%float true
  = ([], Raise (RuntimeError amsgrad_msg)) /\
  __init__ (B := ref_backend) (ex_env false) [] 0.5%float
    true (0.5%float, 0.75%float) 0.25%float false 0%float 0%float false true 1%float true
  = ([mt_warning],
     Raise (ExternalError "ValueError: optimizer got an empty parameter list")).
Proof.
  split; [|split].
  - destruct (init_failure_order (B := ref_backend) ex_env_missing
                [ex_group [1%positive] 0%float] 0.5%float
                true (0.5%float, 0.75%float) 0.25%float false 0%float 0%float
                true true 1%float true) as (Himp & _).
    exact (Himp eq_refl).
  - destruct (init_failure_order (B := ref_backend) (ex_env true)
                [ex_group [1%positive] 0%float] 0.5%float
                true (0.5%float, 0.75%float) 0.25%float false 0%float 0%float
                true true 1%float true) as (_ & Hams & _).
    exact (Hams eq_refl eq_refl).
  - destruct (init_failure_order (B := ref_backend) (ex_env false) [] 0.5%float
                true (0.5%float, 0.75%float) 0.25%float false 0%float 0%float
                false true 1%float true) as (_ & _ & Hbase & _).
    exact (Hbase eq_refl eq_refl _ eq_refl).
Defined.

(** A construction that succeeds: batched mode is asked for and not
    available, [eps_inside_sqrt] is set. *)
Lemma init_success_witness :
  exists o,
    __init__ (B := ref_backend) (ex_env false) [ex_group [1%positive] 0%float] 0.5%float
      true (0.5%float, 0.75%float) 0.25%float true 0%float 0%float false true 1%float true
    = ([mt_warning], Ok o) /\
    eps_mode o = 0 /\ state o = ∅ /\ _use_multi_tensor o = false /\
    param_groups o = [ex_group [1%positive] 0%float].
Proof.
  eexists. split; [reflexivity|].
  match goal with
  | |- eps_mode ?o = _ /\ _ =>
      assert (H : __init__ (B := ref_backend) (ex_env false)
                    [ex_group [1%positive] 0%float] 0.5%float
                    true (0.5%float, 0.75%float) 0.25%float true 0%float 0%float
                    false true 1%float true = ([mt_warning], Ok o)) by reflexivity;
      apply init_success in H
  end.
  destruct H as (_ & _ & _ & _ & gs & Hg & ->). injection Hg as <-.
  repeat split.
Defined.

(** The slice [0:1] of two buffers on [ex_spoiled]: buffer 1 is checked,
    the non-finite buffer 2 is not. *)
Lemma strided_check_finite_selection_witness :
  exists sel : list oid,
    sel !! 0%nat = Some 1%positive /\ sel !! 1%nat = None /\
    strided_check_finite [1%positive; 2%positive] 1 0 1 true ex_spoiled
    = match strided_check_finite_kernel 0
              (map (out_bufs (heap ex_spoiled)) sel) 1 1 with
      | Ok z => (Ok tt, set_overflow z (add_event (EvStridedCheck 1) ex_spoiled))
      | Raise e => (Raise e, add_event (EvStridedCheck 1) ex_spoiled)
      end.
Proof.
  destruct (strided_check_finite_selection (B := ref_backend)
              [1%positive; 2%positive] 1 0 1 true ex_spoiled)
    as (sel & Hsel & _ & Hrun).
  exists sel. split; [rewrite Hsel; reflexivity|].
  split; [rewrite Hsel; reflexivity|]. exact Hrun.
Defined.

(** A check of both buffers of [ex_spoiled] with the default bounds:
    [has_overflow] reports 1, then 0. *)
Lemma strided_check_reported_once_witness :
  let w1 := (strided_check_finite [1%positive; 2%positive] 1 (-1) (-1) true ex_spoiled).2 in
  strided_check_finite [1%positive; 2%positive] 1 (-1) (-1) true ex_spoiled = (Ok tt, w1) /\
  (has_overflow w1).1 = Ok 1 /\
  (has_overflow (has_overflow w1).2).1 = Ok 0 /\
  state (self w1) = state (self ex_spoiled).
Proof.
  intros w1.
  assert (H : strided_check_finite [1%positive; 2%positive] 1 (-1) (-1) true ex_spoiled
              = (Ok tt, w1)) by (vm_compute; reflexivity).
  split; [exact H|].
  destruct (strided_check_reported_once (B := ref_backend) _ _ _ _ _ _ _ H)
    as (ts & _ & Hst & _ & _ & _ & Hh & Hh2).
  split; [rewrite Hh; vm_compute; reflexivity|]. split; [exact Hh2|exact Hst].
Defined.

(** On [ex_stashed], [step] with a sparse gradient and scale 4 passed is
    [step] with nothing passed; the scale in force is 2 times one half. *)
Lemma amp_stash_overrides_arguments_witness :
  step0 None ex_stashed
  = step None (ArgList [VLeaf (sparse 1%float)]) ArgNone 4%float None ex_stashed /\
  a_scale (effective_args (self ex_stashed)
             (mk_args ArgNone ArgNone 1%float None)) = 1%float /\
  step_counter (step0 None ex_stashed).2 1%positive = 1.
Proof.
  destruct (amp_stash_overrides_arguments (loss := float) None ArgNone ArgNone 1%float None
              (ArgList [VLeaf (sparse 1%float)]) ArgNone 4%float None
              ex_stashed ex_stash eq_refl) as (_ & Hs & He).
  split; [exact Hs|]. split; [rewrite He; vm_compute; reflexivity|].
  vm_compute. reflexivity.
Defined.

(** [step(output_params=[])] on [ex_one]. *)
Lemma empty_list_arguments_raise_witness :
  step (loss := float) None ArgNone (ArgList []) 1%float None ex_one
  = (Raise IndexError,
     after_prologue (loss := float) None false
       (set_overflow 0 (add_event EvZero ex_one))).
Proof.
  destruct (empty_list_arguments_raise (loss := float) None ArgNone (ArgList [])
              1%float None ex_one) as (_ & _ & Hs).
  - right. reflexivity.
  - apply Hs. discriminate.
Defined.

(** On [ex_one] the attached gradients are [[g1, None]]; passing them is
    passing nothing. *)
Lemma explicit_attached_gradients_witness :
  attached_grads (heap ex_one) (param_groups (self ex_one))
  = ArgList [VList [VLeaf (dense 0.5%float); VNone]] /\
  step (loss := float) None (ArgList [VList [VLeaf (dense 0.5%float); VNone]])
    ArgNone 1%float None ex_one
  = step0 None ex_one.
Proof.
  split; [reflexivity|].
  destruct (explicit_attached_gradients (loss := float) None ArgNone 1%float None ex_one)
    as [_ Hs]; [reflexivity|discriminate|]. exact Hs.
Defined.

(** A flat list on [ex_two_groups]: the first group is stepped, parameter 2
    of the second group is left alone although it has a gradient. *)
Lemma unpaired_groups_untouched_witness :
  let w := ex_two_groups in
  let flat := ArgList [VLeaf (dense 0.5%float)] in
  let w' := (_step (loss := float) None flat ArgNone 1%float None false w).2 in
  length (step_zip (self w) (mk_args flat ArgNone 1%float None)) = 1%nat /\
  step_counter w' 1%positive = 1 /\
  state (self w') !! 2%positive = None /\
  p_data (heap w') 2%positive = p_data (heap w) 2%positive.
Proof.
  intros w flat w'.
  destruct (unpaired_groups_untouched (loss := float) None flat ArgNone 1%float None w)
    as (_ & _ & _ & Hq).
  split; [reflexivity|]. split; [vm_compute; reflexivity|].
  destruct (Hq false (_step (loss := float) None flat ArgNone 1%float None false w).1
              w' 2%positive) as (Hst & Hd & _).
  - unfold w'. destruct (_step _ _ _ _ _ _ _); reflexivity.
  - intros g Hg. vm_compute in Hg. apply list_elem_of_In in Hg.
    destruct Hg as [<-|[]]. intros Hin. apply list_elem_of_In in Hin.
    destruct Hin as [Hin|[]]. discriminate.
  - split; [exact Hst|exact Hd].
Defined.

(** A plain [step()] on [ex_clipped]. *)
Lemma clipping_requires_grad_norms_witness :
  step0 None ex_clipped
  = (Raise TypeError,
     after_prologue (loss := float) None false
       (set_overflow 0 (add_event EvZero ex_clipped))) /\
  state (self (step0 None ex_clipped).2) = ∅.
Proof.
  destruct (clipping_requires_grad_norms (loss := float) None ArgNone ArgNone 1%float
              ex_clipped (ex_group [1%positive] 1%float) [])
    as (_ & _ & Hs); [reflexivity|vm_compute; reflexivity|reflexivity|].
  unfold step0. rewrite Hs. split; reflexivity.
Defined.

(** [step] with a closure on [ex_one]: the closure is evaluated right after
    the forward pass is entered, and not again. *)
Lemma closure_evaluated_once_witness :
  exists later,
    trace (step0 (Some ex_closure) ex_one).2
    = later ++ [EvClosure; EvEnter false; EvZero] /\
    Forall (fun ev => ev <> EvClosure) later.
Proof.
  destruct (closure_evaluated_once (Some ex_closure) ArgNone ArgNone 1%float None ex_one
              (step0 (Some ex_closure) ex_one).1 (step0 (Some ex_closure) ex_one).2)
    as [(later & Ht & Hf) _].
  - unfold step0. destruct (step _ _ _ _ _ _); reflexivity.
  - exists later. split; [exact Ht|exact Hf].
Defined.

(** The forward pass on [ex_one]. *)
Lemma kernel_call_arguments_witness :
  let w := ex_one in
  let w' := (fwd0 None false w).2 in
  exists evs,
    trace w' = evs ++ [EvEnter false] /\
    Forall (call_of (Forward false) [(ex_group [1%positive; 2%positive] 0%float,
                                      GVal VNone, GVal VNone, None)]
              1%float 1 (step_counter w) (step_counter w')) evs.
Proof.
  intros w w'.
  destruct (kernel_call_arguments (loss := float) None ArgNone ArgNone 1%float None false
              w (fwd0 None false w).1 w') as (evs & Ht & Hf).
  - reflexivity.
  - unfold w', fwd0. destruct (_step _ _ _ _ _ _ _); reflexivity.
  - exists evs. split; [exact Ht|exact Hf].
Defined.

(** The forward pass on [ex_two_groups]: parameter 1 of group 0, then
    parameter 2 of group 1. *)
Lemma kernel_calls_follow_visits_witness :
  let w' := (fwd0 None false ex_two_groups).2 in
  exists evs,
    trace w' = evs ++ [EvEnter false] /\
    map event_target (rev evs) = [Some (0%nat, 1%positive); Some (1%nat, 2%positive)].
Proof.
  intros w'.
  destruct (kernel_calls_follow_visits (loss := float) None ArgNone ArgNone 1%float None
              false ex_two_groups RNone w') as (evs & Ht & Hm).
  - reflexivity.
  - vm_compute. reflexivity.
  - exists evs. split; [exact Ht|]. rewrite Hm. vm_compute. reflexivity.
Defined.

(** The batched call of the first group of [ex_batched]: four lists of two
    tensors, the group's [lr] and [betas]. *)
Lemma batched_call_contents_witness :
  exists tls h,
    trace ex_group_run.2 = [EvAdamMt 0 tls h] /\
    map length tls = [2%nat; 2%nat; 2%nat; 2%nat] /\
    h_lr h = 0.5%float /\ (h_beta1 h, h_beta2 h) = (0.5%float, 0.75%float).
Proof.
  assert (Ht : exists tls h, trace ex_group_run.2 = [EvAdamMt 0 tls h])
    by (vm_compute; eauto).
  destruct Ht as (tls & h & Ht). exists tls, h. split; [exact Ht|].
  destruct (batched_call_contents 1%float false 0
              (ex_group [1%positive; 2%positive] 0%float)
              (GVal VNone) (GVal VNone) None ex_locals ex_batched
              ex_group_run.1 ex_group_run.2 tls h)
    as (Htls & _ & _ & Hlr & _ & _ & _ & _ & Hb).
  - unfold ex_group_run. destruct (step_group _ _ _ _ _ _ _ _ _ _); reflexivity.
  - exact Ht.
  - split; [rewrite Htls; vm_compute; reflexivity|]. split; [exact Hlr|].
    change (last_bearing (p_grad (heap ex_batched)) None
              (group_visits (heap ex_batched)
                 (ex_group [1%positive; 2%positive] 0%float)
                 (GVal VNone) (GVal VNone)))
      with (Some 2%positive) in Hb.
    exact Hb.
Defined.

(** An undo pass on [ex_mixed], where undo is not enabled, and on [ex_one],
    where it returns. *)
Lemma undo_pass_guards_witness :
  fwd0 None true ex_mixed
  = (Raise (AssertionError undo_unsupported_msg), add_event (EvEnter true) ex_mixed) /\
  _allow_undo (self ex_one) = true.
Proof.
  destruct (undo_pass_guards (loss := float) None ArgNone ArgNone 1%float None ex_mixed)
    as (Hno & _).
  split; [exact (Hno eq_refl)|].
  destruct (undo_pass_guards (loss := float) None ArgNone ArgNone 1%float None ex_one)
    as (_ & _ & _ & Hok).
  apply (Hok RNone (fwd0 None true ex_one).2). vm_compute. reflexivity.
Defined.

(** On [ex_overflow] the step is undone and the register still reads 1. *)
Lemma undo_keeps_register_and_outputs_witness :
  let w1 := (fwd0 None false (set_overflow 0 (add_event EvZero ex_overflow))).2 in
  _overflow_buf (self w1) = 1 /\
  _overflow_buf (self (step0 None ex_overflow).2) = 1 /\
  (peek_overflow (step0 None ex_overflow).2).1 = Ok 1.
Proof.
  intros w1. split; [vm_compute; reflexivity|].
  destruct (undo_keeps_register_and_outputs (loss := float) None ArgNone ArgNone
              1%float None ex_overflow) as [_ Hstep].
  destruct (Hstep (step0 None ex_overflow).1 (step0 None ex_overflow).2)
    as (r1 & u1 & E1 & Ho & _ & Hp).
  - unfold step0. destruct (step _ _ _ _ _ _); reflexivity.
  - assert (Hu : u1 = w1) by (unfold w1, fwd0; rewrite E1; reflexivity).
    subst u1. split; [rewrite Ho|rewrite Hp]; vm_compute; reflexivity.
Defined.

(** On [ex_generator] the forward pass raises the register, undo is
    enabled, [step] returns, and the counter of parameter 1 is still 1. *)
Lemma generator_gradients_not_undone_witness :
  let w := ex_generator in
  let run := step (loss := float) None (ArgGenerator 1%positive) ArgNone 1%float None w in
  let w1 := (_step (loss := float) None (ArgGenerator 1%positive) ArgNone 1%float None
               false (set_overflow 0 (add_event EvZero w))).2 in
  run.1 = Ok RNone /\
  _allow_undo (self w) = true /\ _overflow_buf (self w1) = 1 /\
  self run.2 = self w1 /\ step_counter run.2 1%positive = 1.
Proof.
  intros w run w1.
  split; [vm_compute; reflexivity|]. split; [reflexivity|].
  split; [vm_compute; reflexivity|].
  destruct (generator_gradients_not_undone (loss := float) None 1%positive 1%float None w
              (ex_group [1%positive; 2%positive] 0%float) []
              [VLeaf (dense PrimFloat.infinity)] eq_refl eq_refl eq_refl)
    as [_ Hstep]; [simpl; lia|].
  destruct (Hstep run.1 run.2) as (r1 & u1 & E1 & Hself & _).
  - unfold run. destruct (step _ _ _ _ _ _); reflexivity.
  - assert (Hu : u1 = w1) by (unfold w1; rewrite E1; reflexivity). subst u1.
    split; [exact Hself|]. vm_compute. reflexivity.
Defined.

(** [step] on [ex_overflow]. *)
Lemma step_keeps_configuration_witness :
  config (self (step0 None ex_overflow).2) = config (self ex_overflow) /\
  p_grad (heap (step0 None ex_overflow).2) = p_grad (heap ex_overflow).
Proof.
  apply (step_keeps_configuration (loss := float) None ArgNone ArgNone 1%float None
           ex_overflow (step0 None ex_overflow).1).
  unfold step0. destruct (step _ _ _ _ _ _); reflexivity.
Defined.

(** Parameter 2 of [ex_one] through a whole [step]. *)
Lemma unprocessed_parameter_keeps_data_witness :
  p_grad (heap ex_one) !! 2%positive = None /\
  p_data (heap (step0 None ex_one).2) 2%positive = p_data (heap ex_one) 2%positive.
Proof.
  split; [reflexivity|].
  destruct (unprocessed_parameter_keeps_data (loss := float) None ArgNone ArgNone
              1%float None ex_one 2%positive) as (_ & _ & Hstep).
  apply (Hstep (step0 None ex_one).1 (step0 None ex_one).2).
  - unfold step0. destruct (step _ _ _ _ _ _); reflexivity.
  - reflexivity.
  - reflexivity.
Defined.

(** On [ex_one], the forward pass creates the entry of parameter 1 and the
    undo pass keeps it, with the counter at 0. *)
Lemma state_entries_persist_witness :
  let w1 := (fwd0 None false ex_one).2 in
  let w2 := (fwd0 None true w1).2 in
  state (self ex_one) !! 1%positive = None /\
  is_Some (state (self w1) !! 1%positive) /\
  is_Some (state (self w2) !! 1%positive) /\
  step_counter w2 1%positive = 0.
Proof.
  intros w1 w2. split; [reflexivity|].
  assert (H1 : is_Some (state (self w1) !! 1%positive)) by (vm_compute; eauto).
  split; [exact H1|]. split; [|vm_compute; reflexivity].
  destruct (state_entries_persist (loss := float) None ArgNone ArgNone 1%float None w1)
    as (Hkeep & _).
  apply (Hkeep true (fwd0 None true w1).1 w2 1%positive); [|exact H1].
  unfold w2, fwd0. destruct (_step _ _ _ _ _ _ _); reflexivity.
Defined.

(** [step()] on [ex_bare], unbatched and batched. *)
Lemma step_without_gradients_witness :
  step0 None (ex_bare false)
  = (Ok RNone,
     after_prologue (loss := float) None false
       (set_overflow 0 (add_event EvZero (ex_bare false)))) /\
  step0 None (ex_bare true)
  = (Raise (UnboundLocalError "beta1"),
     after_prologue (loss := float) None false
       (set_overflow 0 (add_event EvZero (ex_bare true)))).
Proof.
  split.
  - destruct (step_without_gradients (loss := float) None 1%float (ex_bare false))
      as [Hplain _];
      [ reflexivity
      | repeat (constructor; try (vm_compute; reflexivity))
      | intros g p _ _; reflexivity
      | discriminate
      | exact (Hplain eq_refl) ].
  - destruct (step_without_gradients (loss := float) None 1%float (ex_bare true))
      as [_ Hmt];
      [ reflexivity
      | repeat (constructor; try (vm_compute; reflexivity))
      | intros g p _ _; reflexivity
      | discriminate
      | apply Hmt; [reflexivity|discriminate] ].
Defined.

(** The forward pass on [ex_one]: parameter 1 holds what the kernel returned
    for its attached gradient. *)
Lemma update_is_kernel_result_witness :
  let w := ex_one in
  let w' := (fwd0 None false w).2 in
  exists gr r,
    p_grad (heap w) !! 1%positive = Some gr /\
    p_data (heap w') 1%positive = o_p r /\
    state (self w') !! 1%positive
    = Some {| state_step := 1; exp_avg := o_exp_avg r; exp_avg_sq := o_exp_avg_sq r |}.
Proof.
  intros w w'.
  destruct (update_is_kernel_result (loss := float) None ArgNone ArgNone 1%float None
              false w RNone w' 1%positive)
    as (i & z & cs & u & gr & _ & _ & Hu & Hq & Hgr & ovf & out_t & r & _ & Hp & Hs).
  - reflexivity.
  - vm_compute. reflexivity.
  - vm_compute. reflexivity.
  - exists gr, r. split; [|split; [exact Hp|exact Hs]].
    vm_compute in Hu. apply list_elem_of_In in Hu.
    destruct Hu as [<-|[<-|[]]]; [exact Hgr|discriminate].
Defined.

(** A forward pass on [ex_one] with buffer 1 supplied for parameter 1 and none
    for parameter 2: buffer 1 is written, buffer 2 is not. *)
Lemma output_buffers_written_witness :
  let outs := ArgList [VLeaf 1%positive; VNone] in
  let w' := (_step (loss := float) None ArgNone outs 1%float None false ex_one).2 in
  out_bufs (heap ex_one) 1%positive = 0%float /\
  out_bufs (heap w') 1%positive = 0.75%float /\
  out_bufs (heap w') 2%positive = out_bufs (heap ex_one) 2%positive.
Proof.
  intros outs w'. split; [reflexivity|]. split; [vm_compute; reflexivity|].
  destruct (output_buffers_written (loss := float) None ArgNone outs 1%float None false
              ex_one (_step (loss := float) None ArgNone outs 1%float None false ex_one).1
              w') as [Hw _].
  - unfold w'. destruct (_step _ _ _ _ _ _ _); reflexivity.
  - apply Hw. intros v Hv _. vm_compute in Hv. apply list_elem_of_In in Hv.
    destruct Hv as [<-|[<-|[]]]; discriminate.
Defined.
